(** * reverse_proxy.py: an IPv6-to-IPv4 reverse TCP proxy

    A shallow embedding of [src/reverse_proxy.py] and the properties of its
    multiplexing core: the Host-header rewrite applied to client data, the
    back-pressure send loop, the two relay handlers, the acceptor, the
    teardown of a connection pair and the select loop of [run]. *)

From Stdlib Require Import ZArith Ascii String DecimalString.
From Stdlib.Strings Require Import Byte.
From Equations Require Import Equations.
From stdpp Require Import base list gmap.

(** ** Bytes and text

    [bytes] is the type of what [recv] returns and [send] takes.  [str] is a
    Python string all of whose code points are below 256, which is what
    [data.decode('ISO-8859-1', 'ignore')] always produces: ISO-8859-1 maps
    byte [b] to code point [b], so no byte is ever dropped by ['ignore']. *)

#[global] Instance byte_eq_dec : EqDecision byte := Byte.byte_eq_dec.

Abbreviation bytes := (list byte).
Abbreviation str := (list ascii).

Definition decode (data : bytes) : str := ascii_of_byte <$> data.
Definition encode (s : str) : bytes := byte_of_ascii <$> s.

(** A text literal of the development, as a Python string and as bytes. *)
Definition text (s : string) : str := list_ascii_of_string s.
Definition btext (s : string) : bytes := list_byte_of_string s.

Definition CRLF : bytes := [x0d; x0a].

(** [f'{self.port}']: the decimal text of an integer. *)
Definition format_int (port : Z) : str :=
  text (NilZero.string_of_int (Z.to_int port)).

(** ** The regular expression of [read_from_client]

    [re.compile(f'\\[[^]]*]:{self.port}')] uses two kinds of items only: a
    literal character, and the greedy star of a negated one-character
    class. *)

Inductive atom : Type :=
  | Lit (c : ascii)
  | StarNot (c : ascii).

Abbreviation regex := (list atom).

Definition ip6 (port : Z) : regex :=
  Lit "[" :: StarNot "]" :: Lit "]" :: Lit ":" :: map Lit (format_int port).

(** The backtracking matcher of [re], anchored at the head of [s]: the
    number of characters of the match, if there is one.  The star first
    tries to take one more character and falls back to the rest of the
    pattern. *)
Fixpoint match_here (p : regex) : str -> option nat :=
  match p with
  | [] => fun _ => Some 0
  | Lit c :: p' => fun s =>
      match s with
      | x :: s' => if Ascii.eqb x c then S <$> match_here p' s' else None
      | [] => None
      end
  | StarNot c :: p' =>
      fix star (s : str) : option nat :=
        match s with
        | x :: s' =>
            if Ascii.eqb x c then match_here p' s
            else match star s' with
                 | Some n => Some (S n)
                 | None => match_here p' s
                 end
        | [] => match_here p' s
        end
  end.

(** [pattern.search(s)]: the span [(start, end)] of the leftmost match. *)
Fixpoint search_from (p : regex) (i : nat) (s : str) : option (nat * nat) :=
  match match_here p s with
  | Some n => Some (i, i + n)
  | None =>
      match s with
      | [] => None
      | _ :: s' => search_from p (S i) s'
      end
  end.

Definition search (p : regex) (s : str) : option (nat * nat) :=
  search_from p 0 s.

(** [s[start:stop]] for [0 <= start <= stop]. *)
Definition slice (s : str) (start stop : nat) : str :=
  take (stop - start) (drop start s).

(** [s.startswith(old)]. *)
Fixpoint starts_with (old s : str) : bool :=
  match old, s with
  | [], _ => true
  | c :: old', x :: s' => Ascii.eqb x c && starts_with old' s'
  | _ :: _, [] => false
  end.

(** [s.replace(old, new)] for a non-empty [old]: every occurrence of [old],
    found from left to right without overlap, becomes [new]. *)
Equations? replace_all (old new s : str) : str by wf (length s) lt :=
  replace_all old new [] := [];
  replace_all old new (x :: s') :=
    if starts_with old (x :: s')
    then new ++ replace_all old new (drop (length old - 1) s')
    else x :: replace_all old new s'.
Proof.
  - rewrite length_drop. simpl. lia.
  - simpl. lia.
Qed.

(** [s.replace(old, new)]; for the empty [old] Python puts [new] before
    every character and at the end. *)
Definition replace (old new s : str) : str :=
  match old with
  | [] => new ++ flat_map (fun x => x :: new) s
  | _ :: _ => replace_all old new s
  end.

(** ** The rewrite of [read_from_client] (lines 113 to 120) *)

Definition replacement (port : Z) : str :=
  text "127.0.0.1:" ++ format_int port.

Definition rewrite_host (port : Z) (data : bytes) : bytes :=
  let str_data := decode data in
  match search (ip6 port) str_data with
  | Some (start, stop) =>
      encode (replace (slice str_data start stop) (replacement port) str_data)
  | None => data
  end.

(** ** Exceptions

    The classes the program raises, catches or can be handed by the socket
    layer.  All but [KeyboardInterrupt] derive from [Exception]. *)

Inductive exn : Type :=
  | BlockingIOError
  | ConnectionResetError
  | ConnectionAbortedError
  | ConnectionRefusedError
  | BrokenPipeError
  | OSError
  | RuntimeError
  | KeyError
  | ValueError
  | AttributeError
  | KeyboardInterrupt.

Definition is_Exception (e : exn) : bool :=
  match e with KeyboardInterrupt => false | _ => true end.

Definition is_BlockingIOError (e : exn) : bool :=
  match e with BlockingIOError => true | _ => false end.

Definition is_reset_or_abort (e : exn) : bool :=
  match e with
  | ConnectionResetError | ConnectionAbortedError => true
  | _ => false
  end.

Definition is_KeyboardInterrupt (e : exn) : bool :=
  match e with KeyboardInterrupt => true | _ => false end.

(** ** Sockets, the selector and the proxy object

    A socket is known by its descriptor.  What the peer and the kernel will
    do is part of the state: [inbox] lists what the next calls of [recv]
    find and [outbox] how the next calls of [send] are answered; [wire]
    collects the bytes the socket has accepted. *)

Abbreviation fd := nat.

Inductive recv_result : Type :=
  | Recv (data : bytes)
  | RecvRaise (e : exn).

Inductive send_result : Type :=
  | Sent (room : nat)
  | SendRaise (e : exn).

Record sock : Type := Sock {
  closed : bool;
  blocking : bool;
  inbox : list recv_result;
  outbox : list send_result;
  wire : bytes
}.

(** The answer to [accept] or to [socket.create_connection]: a new socket
    with its future, or an exception. *)
Inductive conn_result : Type :=
  | NewConn (i : list recv_result) (o : list send_result)
  | ConnRaise (e : exn).

(** The two relay methods, [read_from_client] and [read_from_server]. *)
Inductive relay : Type :=
  | from_client
  | from_server.

(** The [data] attached to a registration: the bound method
    [self.accept_connection], or a tuple of a relay method and its two
    sockets. *)
Inductive key_data : Type :=
  | Callback
  | Tuple (h : relay) (client server : fd).

(** [self.sel]: [None], a selector with its registrations, or a selector
    after [close()]. *)
Inductive selector : Type :=
  | NoSelector
  | Selecting (fd_to_key : gmap fd key_data)
  | SelectorClosed.

(** One line of output per [print]. *)
Inductive event : Type :=
  | Sending (n : nat)
  | ErrorInSafeSend (e : exn)
  | NewConnection (client : fd)
  | ErrorAccepting (e : exn)
  | ClientToServer (n : nat)
  | ClientClosed
  | ClientLost
  | ErrorReadingClient (e : exn)
  | ServerToClient (n : nat)
  | ServerClosed
  | ServerLost
  | ErrorReadingServer (e : exn)
  | Started
  | ShuttingDown
  | ErrorInSelectLoop (e : exn)
  | ErrorStarting (e : exn).

(** The state: the sockets, the proxy object ([sel], [running]), what the
    environment holds in store (the connections waiting at the listener, the
    answers to the next connects to the target port, the error of [bind] if
    it is to fail), the number of calls of [select] so far, and the output. *)
Record world : Type := World {
  socks : gmap fd sock;
  next_fd : fd;
  sel : selector;
  running : bool;
  pending : list conn_result;
  upstream : list conn_result;
  bind_error : option exn;
  polls : nat;
  log : list event
}.

Definition set_socks (f : gmap fd sock -> gmap fd sock) (w : world) : world :=
  World (f (socks w)) (next_fd w) (sel w) (running w) (pending w) (upstream w)
        (bind_error w) (polls w) (log w).
Definition set_next_fd (n : fd) (w : world) : world :=
  World (socks w) n (sel w) (running w) (pending w) (upstream w)
        (bind_error w) (polls w) (log w).
Definition set_sel (s : selector) (w : world) : world :=
  World (socks w) (next_fd w) s (running w) (pending w) (upstream w)
        (bind_error w) (polls w) (log w).
Definition set_running (b : bool) (w : world) : world :=
  World (socks w) (next_fd w) (sel w) b (pending w) (upstream w)
        (bind_error w) (polls w) (log w).
Definition set_pending (l : list conn_result) (w : world) : world :=
  World (socks w) (next_fd w) (sel w) (running w) l (upstream w)
        (bind_error w) (polls w) (log w).
Definition set_upstream (l : list conn_result) (w : world) : world :=
  World (socks w) (next_fd w) (sel w) (running w) (pending w) l
        (bind_error w) (polls w) (log w).
Definition set_polls (n : nat) (w : world) : world :=
  World (socks w) (next_fd w) (sel w) (running w) (pending w) (upstream w)
        (bind_error w) n (log w).
Definition set_log (l : list event) (w : world) : world :=
  World (socks w) (next_fd w) (sel w) (running w) (pending w) (upstream w)
        (bind_error w) (polls w) l.

(** ** Computations

    A call returns, raises, or never comes back ([Diverge]: the busy wait of
    [safe_send] on a socket that stays unwritable, or a loop that is still
    going when what is known of the environment ends). *)

Inductive res (A : Type) : Type :=
  | Ok (a : A)
  | Raise (e : exn)
  | Diverge.
Arguments Ok {A} a.
Arguments Raise {A} e.
Arguments Diverge {A}.

Definition M (A : Type) : Type := world -> res A * world.

Definition ret {A} (a : A) : M A := fun w => (Ok a, w).
Definition raise {A} (e : exn) : M A := fun w => (Raise e, w).
Definition diverge {A} : M A := fun w => (Diverge, w).

Definition bind {A B} (m : M A) (k : A -> M B) : M B :=
  fun w =>
    match m w with
    | (Ok a, w') => k a w'
    | (Raise e, w') => (Raise e, w')
    | (Diverge, w') => (Diverge, w')
    end.

Declare Scope proxy_scope.
Delimit Scope proxy_scope with proxy.
Notation "x <- m ;; k" := (bind m (fun x => k))
  (at level 100, m at next level, right associativity) : proxy_scope.
Notation "m ;; k" := (bind m (fun _ => k))
  (at level 100, right associativity) : proxy_scope.
Open Scope proxy_scope.

(** [try: body except ...: ...]: [handlers e] is the body of the first
    clause that catches [e], if one does. *)
Definition try_except {A} (body : M A) (handlers : exn -> option (M A)) : M A :=
  fun w =>
    match body w with
    | (Raise e, w') =>
        match handlers e with
        | Some h => h w'
        | None => (Raise e, w')
        end
    | r => r
    end.

(** [try: body finally: final]. *)
Definition try_finally {A} (body : M A) (final : M unit) : M A :=
  fun w =>
    match body w with
    | (Diverge, w') => (Diverge, w')
    | (r, w') =>
        match final w' with
        | (Ok _, w'') => (r, w'')
        | (Raise e, w'') => (Raise e, w'')
        | (Diverge, w'') => (Diverge, w'')
        end
    end.

(** [except Exception as e: h e] *)
Definition except_Exception {A} (h : exn -> M A) (e : exn) : option (M A) :=
  if is_Exception e then Some (h e) else None.

(** [for x in l: body x] *)
Fixpoint for_each {A} (l : list A) (body : A -> M unit) : M unit :=
  match l with
  | [] => ret tt
  | x :: l' => body x;; for_each l' body
  end.

Definition print (ev : event) : M unit :=
  fun w => (Ok tt, set_log (log w ++ [ev]) w).

(** *** Socket calls *)

Definition sock_recv (s : fd) (bufsize : nat) : M bytes :=
  fun w =>
    match socks w !! s with
    | None => (Raise OSError, w)
    | Some sk =>
        if closed sk then (Raise OSError, w)
        else
          match inbox sk with
          | [] => (Raise BlockingIOError, w)
          | Recv data :: rest =>
              let rest' :=
                if decide (length data <= bufsize) then rest
                else Recv (drop bufsize data) :: rest in
              (Ok (take bufsize data),
               set_socks <[s := Sock false (blocking sk) rest' (outbox sk) (wire sk)]> w)
          | RecvRaise e :: rest =>
              (Raise e,
               set_socks <[s := Sock false (blocking sk) rest (outbox sk) (wire sk)]> w)
          end
    end.

Definition sock_send (s : fd) (data : bytes) : M nat :=
  fun w =>
    match socks w !! s with
    | None => (Raise OSError, w)
    | Some sk =>
        if closed sk then (Raise OSError, w)
        else
          match outbox sk with
          | [] => (Raise BlockingIOError, w)
          | Sent room :: rest =>
              let n := min room (length data) in
              (Ok n,
               set_socks <[s := Sock false (blocking sk) (inbox sk) rest
                                     (wire sk ++ take n data)]> w)
          | SendRaise e :: rest =>
              (Raise e,
               set_socks <[s := Sock false (blocking sk) (inbox sk) rest (wire sk)]> w)
          end
    end.

(** [s.close()]: closing a closed socket is allowed. *)
Definition sock_close (s : fd) : M unit :=
  fun w =>
    match socks w !! s with
    | None => (Raise OSError, w)
    | Some sk =>
        (Ok tt,
         set_socks <[s := Sock true (blocking sk) (inbox sk) (outbox sk) (wire sk)]> w)
    end.

Definition sock_setblocking (s : fd) (flag : bool) : M unit :=
  fun w =>
    match socks w !! s with
    | None => (Raise OSError, w)
    | Some sk =>
        if closed sk then (Raise OSError, w)
        else
          (Ok tt,
           set_socks <[s := Sock false flag (inbox sk) (outbox sk) (wire sk)]> w)
    end.

Definition new_socket (i : list recv_result) (o : list send_result) : M fd :=
  fun w =>
    let s := next_fd w in
    (Ok s, set_next_fd (S s) (set_socks <[s := Sock false true i o []]> w)).

(** [sock.accept()] on the listening socket. *)
Definition sock_accept (listener : fd) : M fd :=
  fun w =>
    match socks w !! listener with
    | None => (Raise OSError, w)
    | Some sk =>
        if closed sk then (Raise OSError, w)
        else
          match pending w with
          | [] => (Raise BlockingIOError, w)
          | NewConn i o :: rest => new_socket i o (set_pending rest w)
          | ConnRaise e :: rest => (Raise e, set_pending rest w)
          end
    end.

(** [socket.create_connection(("127.0.0.1", port))]; with nothing known to
    listen on the port the connection is refused. *)
Definition create_connection (port : Z) : M fd :=
  fun w =>
    match upstream w with
    | [] => (Raise ConnectionRefusedError, w)
    | NewConn i o :: rest => new_socket i o (set_upstream rest w)
    | ConnRaise e :: rest => (Raise e, set_upstream rest w)
    end.

(** *** Selector calls *)

Definition is_open (s : fd) (w : world) : bool :=
  match socks w !! s with
  | Some sk => negb (closed sk)
  | None => false
  end.

Definition sel_register (s : fd) (data : key_data) : M unit :=
  fun w =>
    match sel w with
    | NoSelector => (Raise AttributeError, w)
    | SelectorClosed => (Raise ValueError, w)
    | Selecting m =>
        if is_open s w then
          match m !! s with
          | Some _ => (Raise KeyError, w)
          | None => (Ok tt, set_sel (Selecting (<[s := data]> m)) w)
          end
        else (Raise ValueError, w)
    end.

Definition sel_unregister (s : fd) : M unit :=
  fun w =>
    match sel w with
    | NoSelector => (Raise AttributeError, w)
    | SelectorClosed => (Raise KeyError, w)
    | Selecting m =>
        match m !! s with
        | Some _ => (Ok tt, set_sel (Selecting (delete s m)) w)
        | None => (Raise (if is_open s w then KeyError else ValueError), w)
        end
    end.

(** What [select] is handed by the kernel at one call. *)
Inductive select_result : Type :=
  | Ready (fds : list fd)
  | SelectRaise (e : exn).

(** [self.sel.select(timeout=1.0)]: the keys of the ready descriptors. *)
Definition sel_select (answer : select_result) : M (list (fd * key_data)) :=
  fun w =>
    match sel w with
    | NoSelector => (Raise AttributeError, w)
    | SelectorClosed => (Raise ValueError, w)
    | Selecting m =>
        let w' := set_polls (S (polls w)) w in
        match answer with
        | Ready fds => (Ok (omap (fun s => pair s <$> m !! s) fds), w')
        | SelectRaise e => (Raise e, w')
        end
    end.

(** *** The end of a socket nobody holds

    The program closes a socket by [close()], in [close_connection] and in
    the [finally] clause of [run].  Apart from that a socket is closed by
    its finalizer when the last reference to it goes: CPython counts
    references and frees an object with its last one.  A socket of the
    proxy is referred to by local variables of the calls in progress and by
    the keys of the selector: a key holds its socket as [fileobj] and, when
    its [data] is a relay tuple, the two sockets of the tuple. *)

Definition holds (x : fd) (key : fd * key_data) : bool :=
  bool_decide (key.1 = x) ||
  match key.2 with
  | Callback => false
  | Tuple _ client server => bool_decide (client = x) || bool_decide (server = x)
  end.

(** A key of the selector refers to socket [x]. *)
Definition referenced (x : fd) (w : world) : bool :=
  match sel w with
  | Selecting m => existsb (holds x) (map_to_list m)
  | _ => false
  end.

(** The finalizer of socket [x], run when the last local variable that
    held [x] goes: it closes the socket unless the selector still refers to
    it, and ignores an error of the close. *)
Definition finalize (x : fd) : M unit :=
  fun w =>
    if referenced x w then (Ok tt, w)
    else try_except (sock_close x) (fun _ => Some (ret tt)) w.

(** What goes with the frame of a call that returns: the sockets created
    during the call, which have the descriptors from [first] on, are
    finalized. *)
Definition release (first : fd) : M unit :=
  fun w => for_each (seq first (next_fd w - first)) finalize w.

(** A call of a method that creates sockets.  When the method raises, the
    traceback of the exception keeps the frame, and nothing is released at
    that point. *)
Definition call {A} (body : M A) : M A :=
  fun w => (a <- body;; release (next_fd w);; ret a) w.

(** ** The program *)

(** The [while totalsent < msg_len] loop of [safe_send].  Every turn calls
    [conn.send] once, so [fuel] bounds the number of turns. *)
Fixpoint send_loop (fuel : nat) (conn : fd) (msg : bytes) (totalsent : nat)
  : M unit :=
  if decide (totalsent < length msg) then
    match fuel with
    | 0 => diverge
    | S fuel' =>
        totalsent' <-
          try_except
            (sent <- sock_send conn (drop totalsent msg);;
             if decide (sent = 0) then raise RuntimeError
             else ret (totalsent + sent))
            (fun e =>
               if is_BlockingIOError e then Some (ret totalsent) (* sleep, continue *)
               else None);;
        send_loop fuel' conn msg totalsent'
    end
  else ret tt.

(** One turn more than there are answers left in the [outbox] of [conn]:
    once they are used up every [send] raises [BlockingIOError] and changes
    nothing, so a loop that is still going then goes on for ever. *)
Definition send_fuel (conn : fd) (w : world) : nat :=
  match socks w !! conn with
  | Some sk => S (length (outbox sk))
  | None => 1
  end.

Definition safe_send (conn : fd) (msg : bytes) : M unit :=
  match msg with
  | [] => ret tt
  | _ :: _ =>
      print (Sending (length msg));;
      try_except
        (fun w => send_loop (send_fuel conn w) conn msg 0 w)
        (except_Exception (fun e => print (ErrorInSafeSend e)))
  end.

(** [try: m except Exception: pass] *)
Definition tolerate (m : M unit) : M unit :=
  try_except m (except_Exception (fun _ => ret tt)).

Definition close_connection (client server : fd) : M unit :=
  tolerate (sel_unregister client);;
  tolerate (sel_unregister server);;
  tolerate (sock_close client);;
  tolerate (sock_close server).

Definition read_from_client (port : Z) (client server : fd) : M unit :=
  try_except
    (data <- sock_recv client 4096;;
     match data with
     | _ :: _ =>
         let data := rewrite_host port data in
         print (ClientToServer (length data));;
         safe_send server data
     | [] =>
         print ClientClosed;;
         close_connection client server
     end)
    (fun e =>
       if is_reset_or_abort e then
         Some (print ClientLost;; close_connection client server)
       else if is_Exception e then
         Some (print (ErrorReadingClient e);; close_connection client server)
       else None).

Definition read_from_server (client server : fd) : M unit :=
  try_except
    (data <- sock_recv server 4096;;
     match data with
     | _ :: _ =>
         print (ServerToClient (length data));;
         safe_send client data
     | [] =>
         print ServerClosed;;
         close_connection client server
     end)
    (fun e =>
       if is_reset_or_abort e then
         Some (print ServerLost;; close_connection client server)
       else if is_Exception e then
         Some (print (ErrorReadingServer e);; close_connection client server)
       else None).

(** The [try] statement of [accept_connection] (lines 86 to 104). *)
Definition accepting (port : Z) (sock : fd) : M unit :=
  try_except
    (client <- sock_accept sock;;
     print (NewConnection client);;
     sock_setblocking client false;;
     server <- create_connection port;;
     sock_setblocking server false;;
     sel_register client (Tuple from_client client server);;
     sel_register server (Tuple from_server client server))
    (except_Exception (fun e => print (ErrorAccepting e))).

(** [accept_connection]: the sockets it creates are held by its locals
    [client] and [server], and by the selector once they are registered. *)
Definition accept_connection (port : Z) (sock : fd) : M unit :=
  call (accepting port sock).

(** The bound method a registration tuple starts with. *)
Definition relay_handler (port : Z) (h : relay) : fd -> fd -> M unit :=
  match h with
  | from_client => read_from_client port
  | from_server => read_from_server
  end.

(** The body of [for key, mask in events]. *)
Definition dispatch (port : Z) (key : fd * key_data) : M unit :=
  match key.2 with
  | Tuple h client server => relay_handler port h client server
  | Callback => accept_connection port key.1
  end.

(** What happens around one turn of the main loop: whether another thread
    has cleared [self.running] by the time the loop condition is read, and
    what [select] is answered. *)
Record tick : Type := Tick {
  stop_request : bool;
  answer : select_result
}.

Definition external_stop (t : tick) : M unit :=
  fun w => (Ok tt, if stop_request t then set_running false w else w).

(** One turn of the body of the main loop (lines 261 to 278); the [bool]
    says whether it left by [break].  The [time.sleep(1)] of the second
    clause changes nothing in the state and is not written out. *)
Definition turn (port : Z) (t : tick) : M bool :=
  try_except
    (events <- sel_select (answer t);;
     for_each events (dispatch port);;
     ret false)
    (fun e =>
       if is_KeyboardInterrupt e then
         Some (print ShuttingDown;;
               (fun w => (Ok tt, set_running false w));;
               ret true)
       else if is_Exception e then
         Some (print (ErrorInSelectLoop e);; ret false) (* sleep *)
       else None).

(** [while self.running: ...] *)
Fixpoint main_loop (port : Z) (ticks : list tick) : M unit :=
  match ticks with
  | [] => fun w => if running w then (Diverge, w) else (Ok tt, w)
  | t :: ticks' =>
      external_stop t;;
      fun w =>
        if running w then
          (broke <- turn port t;;
           if broke : bool then ret tt else main_loop port ticks') w
        else (Ok tt, w)
  end.

Definition sock_bind (s : fd) : M unit :=
  fun w =>
    match bind_error w with
    | Some e => (Raise e, w)
    | None => (Ok tt, w)
    end.

(** [try: key.fileobj.close() except: pass] *)
Definition close_quietly (key : fd * key_data) : M unit :=
  try_except (sock_close key.1) (fun _ => Some (ret tt)).

(** The [finally] clause of [run] (lines 284 to 290). *)
Definition cleanup : M unit :=
  fun w =>
    match sel w with
    | NoSelector => (Ok tt, w)
    | Selecting m =>
        (for_each (map_to_list m) close_quietly;;
         (fun w => (Ok tt, set_sel SelectorClosed w))) w
    | SelectorClosed => (Raise AttributeError, w)
    end.

(** The listening socket (lines 243 to 257).  Of the calls that set it up,
    [bind] is the one whose failure the environment decides; [setsockopt]
    and [listen], which change nothing the proxy reads back, are not
    written out. *)
Definition startup : M unit :=
  ipv6side <- new_socket [] [];;
  sock_bind ipv6side;;
  sock_setblocking ipv6side false;;
  sel_register ipv6side Callback;;
  print Started.

(** The [try] block of [run] with its [except] clause (lines 242 to 281). *)
Definition serve (port : Z) (ticks : list tick) : M unit :=
  try_except
    (startup;;
     main_loop port ticks)
    (except_Exception (fun e => print (ErrorStarting e))).

(** [self.sel = selectors.DefaultSelector()] *)
Definition new_selector : M unit :=
  fun w => (Ok tt, set_sel (Selecting ∅) w).

(** [run] with [standalone] false (lines 239 to 290).  When it returns,
    its local [ipv6side] goes, and with the selector closed nothing refers
    to the sockets the handlers had registered. *)
Definition run (port : Z) (ticks : list tick) : M unit :=
  call
    (new_selector;;
     try_finally (serve port ticks) cleanup).

(** ** Observations on a state *)

Definition registered (s : fd) (w : world) : bool :=
  match sel w with
  | Selecting m => bool_decide (is_Some (m !! s))
  | _ => false
  end.

(** A socket once it is closed. *)
Definition shut (sk : sock) : sock :=
  Sock true (blocking sk) (inbox sk) (outbox sk) (wire sk).

(** The bytes socket [s] has accepted so far. *)
Definition sent_on (s : fd) (w : world) : bytes :=
  match socks w !! s with
  | Some sk => wire sk
  | None => []
  end.

(** The socket a relay handler reads and the line it prints when the read
    fails. *)
Definition source (h : relay) (client server : fd) : fd :=
  match h with from_client => client | from_server => server end.

Definition destination (h : relay) (client server : fd) : fd :=
  match h with from_client => server | from_server => client end.

(** What a relay handler passes to [safe_send] for the [data] it read. *)
Definition outgoing (port : Z) (h : relay) (data : bytes) : bytes :=
  match h with from_client => rewrite_host port data | from_server => data end.

Definition forwarding (h : relay) (n : nat) : event :=
  match h with from_client => ClientToServer n | from_server => ServerToClient n end.

Definition connection_lost (h : relay) : event :=
  match h with from_client => ClientLost | from_server => ServerLost end.

Definition error_reading (h : relay) (e : exn) : event :=
  match h with
  | from_client => ErrorReadingClient e
  | from_server => ErrorReadingServer e
  end.

Definition torn_down (client server : fd) (w : world) : Prop :=
  registered client w = false /\ registered server w = false /\
  is_open client w = false /\ is_open server w = false.

(** What is left of the answers to [send] on socket [s]. *)
Definition outbox_of (s : fd) (w : world) : list send_result :=
  match socks w !! s with
  | Some sk => outbox sk
  | None => []
  end.

(** [preserves P m]: the state after [m] is related by [P] to the state
    before it, however [m] ends. *)
Definition preserves (P : world -> world -> Prop) {A} (m : M A) : Prop :=
  forall w r w', m w = (r, w') -> P w w'.

(** The relations that are preserved. *)
Definition same_polls (w w' : world) : Prop := polls w' = polls w.

Definition same_log (w w' : world) : Prop := log w' = log w.

(** No registration and no socket is opened or closed. *)
Definition same_links (w w' : world) : Prop :=
  sel w' = sel w /\ forall s, is_open s w' = is_open s w.

(** No socket has accepted a byte. *)
Definition same_wire (w w' : world) : Prop :=
  forall s, sent_on s w' = sent_on s w.

(** A selector that is in use stays in use. *)
Definition still_selecting (w w' : world) : Prop :=
  (exists m, sel w = Selecting m) -> exists m', sel w' = Selecting m'.

(** What the fuel of [safe_send] is for: as long as the socket is open the
    turns left cover the answers left. *)
Definition enough_fuel (fuel : nat) (conn : fd) (w : world) : Prop :=
  (is_open conn w = true /\ length (outbox_of conn w) <= fuel) \/
  (is_open conn w = false /\ 0 < fuel).

(** How the acceptor can fail before it registers anything. *)
Definition accept_fails (listener : fd) (e : exn) (w : world) : Prop :=
  exists w1, sock_accept listener w = (Raise e, w1).

Definition accept_succeeds (listener : fd) (w : world) : Prop :=
  exists client w1, sock_accept listener w = (Ok client, w1).

Definition connect_fails (port : Z) (e : exn) (w : world) : Prop :=
  exists w1, create_connection port w = (Raise e, w1).

(** ** The words of the specification *)

(** The language of a pattern. *)
Fixpoint matches (p : regex) (w : str) : Prop :=
  match p with
  | [] => w = []
  | Lit c :: p' => exists w', w = c :: w' /\ matches p' w'
  | StarNot c :: p' =>
      exists u w', w = u ++ w' /\ Forall (fun x => x <> c) u /\ matches p' w'
  end.

(** [data] is [pre], then a bracketed address without a closing bracket
    inside, a colon and the decimal target port, then [suf]. *)
Definition pattern_at (port : Z) (data pre addr suf : bytes) : Prop :=
  data = pre ++ "["%byte :: addr ++ "]"%byte :: ":"%byte ::
                encode (format_int port) ++ suf
  /\ "]"%byte ∉ addr.

Definition has_pattern (port : Z) (data : bytes) : Prop :=
  exists pre addr suf, pattern_at port data pre addr suf.

(** [old] occurs somewhere in [s]. *)
Definition occurs_in (old s : str) : Prop :=
  exists a b, s = a ++ old ++ b.

(** [old in s] *)
Fixpoint occursb (old s : str) : bool :=
  starts_with old s ||
  match s with
  | [] => false
  | _ :: s' => occursb old s'
  end.

(** The rewrite as the specification words it: exactly the one matched
    span is replaced. *)
Definition rewrite_first_span (port : Z) (data : bytes) : bytes :=
  match search (ip6 port) (decode data) with
  | Some (start, stop) =>
      take start data ++ encode (replacement port) ++ drop stop data
  | None => data
  end.

(** ** Sample inputs and states *)

Definition req_bracketed : bytes :=
  btext "GET / HTTP/1.1" ++ CRLF ++ btext "Host: [fe80::1]:7245" ++ CRLF ++ CRLF.
Definition req_loopback : bytes :=
  btext "GET / HTTP/1.1" ++ CRLF ++ btext "Host: 127.0.0.1:7245" ++ CRLF ++ CRLF.

Definition opened (i : list recv_result) (o : list send_result) : sock :=
  Sock false false i o [].

(** A listener 0 and one pair: client 1 and upstream 2, all registered. *)
Definition w_pair (client_in : list recv_result) (client_out : list send_result)
    (server_in : list recv_result) (server_out : list send_result) : world :=
  World (<[0 := opened [] []]>
           (<[1 := opened client_in client_out]>
              (<[2 := opened server_in server_out]> ∅)))
        3
        (Selecting (<[0 := Callback]>
                      (<[1 := Tuple from_client 1 2]>
                         (<[2 := Tuple from_server 1 2]> ∅))))
        true [] [] None 0 [].

(** A listener 0 with one client waiting to be accepted. *)
Definition w_listening (backlog up : list conn_result) : world :=
  World (<[0 := opened [] []]> ∅) 1 (Selecting (<[0 := Callback]> ∅))
        true backlog up None 0 [].

(** Before [run]. *)
Definition w_init (backlog up : list conn_result) : world :=
  World ∅ 0 NoSelector true backlog up None 0 [].

(** ** More words for the send loop *)

(** A socket that goes on taking bytes: every answer is a
    [BlockingIOError] or room for at least one byte. *)
Definition patient (o : list send_result) : Prop :=
  Forall (fun a =>
            match a with
            | Sent room => 0 < room
            | SendRaise e => e = BlockingIOError
            end) o.

(** The bytes the answers [o] have room for. *)
Fixpoint total_room (o : list send_result) : nat :=
  match o with
  | [] => 0
  | Sent room :: o' => room + total_room o'
  | SendRaise _ :: o' => total_room o'
  end.

(** The exception an answer makes the loop of [safe_send] end with: the
    [RuntimeError] of a [send] of 0 bytes, or what [send] raises other than
    [BlockingIOError]. *)
Definition fatal (a : send_result) : option exn :=
  match a with
  | Sent 0 => Some RuntimeError
  | Sent (S _) => None
  | SendRaise e => if is_BlockingIOError e then None else Some e
  end.

(** ** More words for the handlers *)

(** The line a relay handler prints on an empty read. *)
Definition connection_closed (h : relay) : event :=
  match h with from_client => ClientClosed | from_server => ServerClosed end.

(** The registration of socket [s], if the selector is in use and has one. *)
Definition key_of (s : fd) (w : world) : option key_data :=
  match sel w with
  | Selecting m => m !! s
  | _ => None
  end.

(** ** The pairs of the selector *)

(** Every socket there is has a descriptor the proxy has handed out. *)
Definition wf_socks (w : world) : Prop :=
  forall x, is_Some (socks w !! x) -> x < next_fd w.

(** Socket [x] exists and is closed. *)
Definition closed_in (x : fd) (w : world) : Prop :=
  exists sk, socks w !! x = Some sk /\ closed sk = true.

(** Sockets are never forgotten, never reopened, and descriptors are never
    handed out twice. *)
Definition grows (w w' : world) : Prop :=
  wf_socks w ->
  wf_socks w' /\ next_fd w <= next_fd w' /\
  (forall x, is_Some (socks w !! x) -> is_Some (socks w' !! x)) /\
  (forall x, closed_in x w -> closed_in x w').

(** The invariant of the registrations: a registered socket is open; a
    relay registration sits at the socket its handler reads and names two
    different sockets, both registered, the client side for
    [read_from_client] and the upstream side for [read_from_server], with
    the same pair. *)
Definition paired (w : world) : Prop :=
  wf_socks w /\
  (forall x d, key_of x w = Some d -> is_open x w = true) /\
  (forall x h c s, key_of x w = Some (Tuple h c s) ->
     x = source h c s /\ c <> s /\
     key_of c w = Some (Tuple from_client c s) /\
     key_of s w = Some (Tuple from_server c s)).

(** The pair [(c, s)] is registered, and the pair is torn down. *)
Definition live (c s : fd) (w : world) : Prop :=
  c <> s /\
  key_of c w = Some (Tuple from_client c s) /\
  key_of s w = Some (Tuple from_server c s).

Definition gone (c s : fd) (w : world) : Prop :=
  key_of c w = None /\ key_of s w = None /\ closed_in c w /\ closed_in s w.

(** An event the loop may still have to handle: its pair is registered as
    when [select] reported it, or has been torn down since. *)
Definition current (key : fd * key_data) (w : world) : Prop :=
  match key.2 with
  | Callback => True
  | Tuple h c s => live c s w \/ gone c s w
  end.

(** Every socket other than [c] and [s] is as it was, and registered as
    it was. *)
Definition apart (c s : fd) (w w' : world) : Prop :=
  forall x, x <> c -> x <> s ->
    socks w' !! x = socks w !! x /\ key_of x w' = key_of x w.

(** ** The choice of the address to bind

    The standalone set-up of [run] (lines 201 to 224) lists the IPv6
    addresses of the host, drops the link-local ones and, when more than one
    is left, lets the user pick one by its number. *)

(** [addr[4]] of an [AF_INET6] entry of [getaddrinfo]. *)
Record sockaddr : Type := SockAddr {
  sa_host : string;
  sa_port : Z;
  sa_flowinfo : Z;
  sa_scope_id : Z
}.

(** The loop of lines 205 to 208: the entries whose host does not start
    with [fe80]. *)
Definition valid_addrs (addrs : list sockaddr) : list sockaddr :=
  List.filter (fun addr => negb (String.prefix "fe80" (sa_host addr))) addrs.

(** [l[i]] for a Python list: a negative index counts from the end, and an
    index out of range raises [IndexError] ([None]). *)
Definition py_index {A} (l : list A) (i : Z) : option A :=
  let n := Z.of_nat (length l) in
  if decide (0 <= i < n)%Z then l !! Z.to_nat i
  else if decide (- n <= i < 0)%Z then l !! Z.to_nat (n + i)
  else None.

(** The lines [[i + 1] host] printed when there is a choice. *)
Definition menu (addrs : list sockaddr) : list (nat * string) :=
  imap (fun i addr => (S i, sa_host addr)) (valid_addrs addrs).

Inductive selection_error : Type :=
  | NotANumber      (* [int] raised [ValueError] *)
  | OutOfRange.     (* the index raised [IndexError] *)

(** How the set-up goes on: with [self.addr] set to [addr[4][:2]], or by
    returning after ["No valid IPv6 addresses found!"] or after
    ["Error getting addresses"]. *)
Inductive choice : Type :=
  | Bind (host : string) (port : Z)
  | NoValidAddress
  | GettingAddressesFailed (why : selection_error).

(** Lines 205 to 224.  [entry] is what [int(input("Enter: "))] gives:
    a number, or [None] when [int] raises. *)
Definition choose_address (addrs : list sockaddr) (entry : option Z) : choice :=
  let valid := valid_addrs addrs in
  if decide (1 < length valid) then
    match entry with
    | None => GettingAddressesFailed NotANumber
    | Some n =>
        let selection := (n - 1)%Z in
        match py_index valid selection with
        | Some addr => Bind (sa_host addr) (sa_port addr)
        | None => GettingAddressesFailed OutOfRange
        end
    end
  else
    match valid with
    | addr :: _ => Bind (sa_host addr) (sa_port addr)
    | [] => NoValidAddress
    end.

Definition host_addrs : list sockaddr :=
  [SockAddr "fe80::1c2d:3eff:fe4f:5a6b" 7245 0 2;
   SockAddr "2001:db8::10" 7245 0 0;
   SockAddr "fd00::7" 7245 0 0;
   SockAddr "2001:db8::99" 7245 0 0].

(** * Properties *)

(** ** The rewrite *)

Lemma encode_decode (data : bytes) : encode (decode data) = data.
Proof.
  unfold encode, decode. rewrite <- list_fmap_compose.
  rewrite <- (list_fmap_id data) at 2. apply list_fmap_ext.
  intros _ b _. apply byte_of_ascii_of_byte.
Qed.

Lemma decode_encode (s : str) : decode (encode s) = s.
Proof.
  unfold encode, decode. rewrite <- list_fmap_compose.
  rewrite <- (list_fmap_id s) at 2. apply list_fmap_ext.
  intros _ c _. apply ascii_of_byte_of_ascii.
Qed.

Lemma encode_app (a b : str) : encode (a ++ b) = encode a ++ encode b.
Proof. apply fmap_app. Qed.

Lemma decode_app (a b : bytes) : decode (a ++ b) = decode a ++ decode b.
Proof. apply fmap_app. Qed.

Lemma encode_take_decode n (data : bytes) :
  encode (take n (decode data)) = take n data.
Proof. unfold decode. rewrite <- fmap_take. apply encode_decode. Qed.

Lemma encode_drop_decode n (data : bytes) :
  encode (drop n (decode data)) = drop n data.
Proof. unfold decode. rewrite <- fmap_drop. apply encode_decode. Qed.

Lemma slice_split (s : str) a b :
  a <= b -> s = take a s ++ slice s a b ++ drop b s.
Proof.
  intros Hab. rewrite <- (take_drop a s) at 1. f_equal.
  rewrite <- (take_drop (b - a) (drop a s)) at 1. unfold slice. f_equal.
  rewrite drop_drop. f_equal. lia.
Qed.

Lemma match_here_star c p s :
  match_here (StarNot c :: p) s =
  match s with
  | x :: s' =>
      if Ascii.eqb x c then match_here p s
      else match match_here (StarNot c :: p) s' with
           | Some n => Some (S n)
           | None => match_here p s
           end
  | [] => match_here p s
  end.
Proof. by destruct s. Qed.

Lemma matches_star_skip c p w :
  matches p w -> matches (StarNot c :: p) w.
Proof. intros H. exists [], w. by split_and!. Qed.

Lemma matches_star_cons c p x w :
  x <> c -> matches (StarNot c :: p) w -> matches (StarNot c :: p) (x :: w).
Proof.
  intros Hx (u & w' & -> & Hu & Hw). exists (x :: u), w'.
  split_and!; [done| by constructor | done].
Qed.

(** What the matcher takes is a word of the pattern. *)
Lemma match_here_sound p s n :
  match_here p s = Some n -> n <= length s /\ matches p (take n s).
Proof.
  revert s n. induction p as [|[c|c] p IH]; intros s n.
  - simpl. intros [= <-]. split; [lia|done].
  - destruct s as [|x s]; simpl; [done|].
    destruct (Ascii.eqb_spec x c) as [->|]; [|done].
    destruct (match_here p s) as [k|] eqn:Hk; simpl; [|done].
    intros [= <-]. destruct (IH _ _ Hk) as [Hle Hm].
    split; [lia|]. simpl. eauto.
  - revert n. induction s as [|x s IHs]; intros n; rewrite match_here_star.
    + intros Hn. destruct (IH _ _ Hn) as [Hle Hm].
      split; [done|]. by apply matches_star_skip.
    + destruct (Ascii.eqb_spec x c) as [->|Hx].
      { intros Hn. destruct (IH _ _ Hn) as [Hle Hm].
        split; [done|]. by apply matches_star_skip. }
      destruct (match_here (StarNot c :: p) s) as [k|] eqn:Hk.
      * intros [= <-]. destruct (IHs _ eq_refl) as [Hle Hm].
        split; [simpl; lia|]. simpl. by apply matches_star_cons.
      * intros Hn. destruct (IH _ _ Hn) as [Hle Hm].
        split; [done|]. by apply matches_star_skip.
Qed.

(** A word of the pattern at the head of the text is found, whatever
    follows it. *)
Lemma match_here_complete p w t :
  matches p w -> is_Some (match_here p (w ++ t)).
Proof.
  revert w. induction p as [|[c|c] p IH]; intros w.
  - simpl. eauto.
  - intros (w' & -> & Hw). simpl. rewrite Ascii.eqb_refl.
    destruct (IH _ Hw) as [k ->]. simpl. eauto.
  - intros (u & w' & -> & Hu & Hw). rewrite <- app_assoc.
    induction Hu as [|x u Hx Hu IHu].
    + simpl app. rewrite match_here_star.
      destruct (IH _ Hw) as [k Hk].
      destruct (w' ++ t) as [|x s]; [eauto|].
      destruct (Ascii.eqb x c); [eauto|].
      destruct (match_here (StarNot c :: p) s); eauto.
    + simpl app. rewrite match_here_star.
      destruct (Ascii.eqb_spec x c) as [->|_]; [done|].
      destruct IHu as [k ->]. eauto.
Qed.

(** [search] returns the leftmost position at which the matcher succeeds. *)
Lemma search_from_Some p i s a b :
  search_from p i s = Some (a, b) ->
  exists k n, a = i + k /\ b = a + n /\ k <= length s /\
    match_here p (drop k s) = Some n /\
    forall j, j < k -> match_here p (drop j s) = None.
Proof.
  revert i. induction s as [|x s IH]; intros i; simpl.
  - destruct (match_here p []) as [n|] eqn:Hn; [|done].
    intros [= <- <-]. exists 0, n. split_and!; simpl; (done || lia).
  - destruct (match_here p (x :: s)) as [n|] eqn:Hn.
    + intros [= <- <-]. exists 0, n. split_and!; simpl; (done || lia).
    + intros H. destruct (IH _ H) as (k & n & -> & -> & Hk & Hm & Hleft).
      exists (S k), n. split_and!; [lia|lia|lia|done|].
      intros [|j] Hj; [done|]. simpl. apply Hleft. lia.
Qed.

Lemma search_from_None p i s :
  search_from p i s = None ->
  forall j, match_here p (drop j s) = None.
Proof.
  revert i. induction s as [|x s IH]; intros i; simpl.
  - destruct (match_here p []) eqn:Hn; [done|]. intros _ j. by rewrite drop_nil.
  - destruct (match_here p (x :: s)) eqn:Hn; [done|].
    intros H [|j]; [done|]. simpl. by eapply IH.
Qed.

Lemma search_Some_bounds p s a b :
  search p s = Some (a, b) ->
  a <= b /\ b <= length s /\ match_here p (drop a s) = Some (b - a) /\
  matches p (slice s a b) /\
  forall j, j < a -> match_here p (drop j s) = None.
Proof.
  intros H. apply search_from_Some in H as (k & n & -> & -> & Hk & Hm & Hleft).
  simpl. destruct (match_here_sound _ _ _ Hm) as [Hn Hw].
  rewrite length_drop in Hn. unfold slice.
  replace (k + n - k) with n by lia. split_and!; (done || lia).
Qed.

Lemma starts_with_app old t : starts_with old (old ++ t) = true.
Proof.
  induction old as [|c old IH]; simpl; [done|].
  by rewrite Ascii.eqb_refl, IH.
Qed.

Lemma starts_with_true old s :
  starts_with old s = true -> s = old ++ drop (length old) s.
Proof.
  revert s. induction old as [|c old IH]; intros [|x s]; simpl; try done.
  destruct (Ascii.eqb_spec x c) as [->|]; simpl; [|done].
  intros H. f_equal. by apply IH.
Qed.

Lemma starts_with_false old s j :
  ~ occurs_in old s -> starts_with old (drop j s) = false.
Proof.
  intros Hno. destruct (starts_with old (drop j s)) eqn:H; [|done].
  destruct Hno. apply starts_with_true in H.
  exists (take j s), (drop (length old) (drop j s)).
  by rewrite <- H, take_drop.
Qed.

(** [replace] leaves a text in which [old] does not occur as it is. *)
Lemma replace_all_absent old new s :
  (forall j, starts_with old (drop j s) = false) ->
  replace_all old new s = s.
Proof.
  induction s as [|x s IH]; intros Hno; simp replace_all; [done|].
  pose proof (Hno 0) as H0. rewrite drop_0 in H0. rewrite H0. f_equal. apply IH. intros j. apply (Hno (S j)).
Qed.

(** Up to the first occurrence of [old] the text is kept, the occurrence
    becomes [new], and the replacement goes on behind it. *)
Lemma replace_all_first old new pre suf :
  old <> [] ->
  (forall j, j < length pre -> starts_with old (drop j (pre ++ old ++ suf)) = false) ->
  replace_all old new (pre ++ old ++ suf) = pre ++ new ++ replace_all old new suf.
Proof.
  intros Hold. induction pre as [|x pre IH]; intros Hno.
  - destruct old as [|c old]; [done|]. simpl app. simp replace_all.
    change (c :: old ++ suf) with ((c :: old) ++ suf).
    rewrite starts_with_app. simpl. rewrite Nat.sub_0_r.
    by rewrite drop_app_length.
  - simpl app. simp replace_all.
    change (x :: pre ++ old ++ suf) with ((x :: pre) ++ old ++ suf).
    pose proof (Hno 0) as H0. rewrite drop_0 in H0.
    rewrite H0 by (simpl; lia). f_equal. apply IH.
    intros j Hj. apply (Hno (S j)). simpl. lia.
Qed.

Lemma replace_nonempty old new s :
  old <> [] -> replace old new s = replace_all old new s.
Proof. by destruct old. Qed.

Lemma matches_literal l w : matches (map Lit l) w <-> w = l.
Proof.
  revert w. induction l as [|c l IH]; intros w; simpl; [done|].
  split.
  - intros (w' & -> & Hw). f_equal. by apply IH.
  - intros ->. exists l. split; [done|]. by apply IH.
Qed.

(** The words of the pattern of [read_from_client]. *)
Lemma matches_ip6 port w :
  matches (ip6 port) w <->
  exists addr, w = "["%char :: addr ++ "]"%char :: ":"%char :: format_int port
               /\ "]"%char ∉ addr.
Proof.
  unfold ip6. simpl. split.
  - intros (w1 & -> & u & w2 & -> & Hu & w3 & -> & w4 & -> & Hw).
    apply matches_literal in Hw as ->. exists u. split; [done|].
    intros Hin. rewrite Forall_forall in Hu. by apply (Hu _ Hin).
  - intros (addr & -> & Hno). eexists. split; [done|].
    exists addr. eexists. split; [done|]. split.
    { rewrite Forall_forall. intros x Hx ->. done. }
    eexists. split; [done|]. eexists. split; [done|].
    by apply matches_literal.
Qed.

Lemma decode_bracket_free (addr : bytes) :
  "]"%char ∈ decode addr <-> "]"%byte ∈ addr.
Proof.
  unfold decode. rewrite list_elem_of_fmap. split.
  - intros (b & Hb & Hin).
    assert (b = "]"%byte) as <-; [|done].
    by rewrite <- (byte_of_ascii_of_byte b), <- Hb.
  - intros Hin. by exists "]"%byte.
Qed.

(** The pattern occurs in the bytes exactly when [search] finds a match. *)
Lemma search_has_pattern port data start stop :
  search (ip6 port) (decode data) = Some (start, stop) ->
  has_pattern port data.
Proof.
  intros H. apply search_Some_bounds in H as (Hab & Hb & _ & Hm & _).
  apply matches_ip6 in Hm as (addr & Hw & Hno).
  exists (take start data), (encode addr), (drop stop data). split.
  - rewrite <- (encode_decode data) at 1.
    rewrite (slice_split (decode data) start stop Hab), Hw.
    rewrite encode_app, encode_take_decode, encode_app, encode_drop_decode.
    change (encode ("["%char :: addr ++ "]"%char :: ":"%char :: format_int port))
      with ("["%byte :: encode (addr ++ "]"%char :: ":"%char :: format_int port)).
    rewrite encode_app.
    change (encode ("]"%char :: ":"%char :: format_int port))
      with ("]"%byte :: ":"%byte :: encode (format_int port)).
    simpl. by rewrite <- !app_assoc.
  - intros Hin. apply Hno. apply decode_bracket_free in Hin.
    by rewrite decode_encode in Hin.
Qed.

Lemma pattern_at_match port data pre addr suf :
  pattern_at port data pre addr suf ->
  is_Some (match_here (ip6 port) (drop (length pre) (decode data))).
Proof.
  intros [-> Hno]. rewrite decode_app.
  rewrite drop_app_length' by (unfold decode; by rewrite length_fmap).
  change (decode ("["%byte :: addr ++ "]"%byte :: ":"%byte ::
                    encode (format_int port) ++ suf))
    with ("["%char :: decode (addr ++ "]"%byte :: ":"%byte ::
                                encode (format_int port) ++ suf)).
  rewrite decode_app.
  change (decode ("]"%byte :: ":"%byte :: encode (format_int port) ++ suf))
    with ("]"%char :: ":"%char :: decode (encode (format_int port) ++ suf)).
  rewrite decode_app, decode_encode.
  assert (matches (ip6 port)
            ("["%char :: decode addr ++ "]"%char :: ":"%char :: format_int port))
    as Hm.
  { apply matches_ip6. exists (decode addr). split; [done|].
    by rewrite decode_bracket_free. }
  pose proof (match_here_complete _ _ (decode suf) Hm) as Hn.
  by rewrite <- app_comm_cons, <- app_assoc, <- !app_comm_cons in Hn.
Qed.

Lemma has_pattern_search port data :
  has_pattern port data -> is_Some (search (ip6 port) (decode data)).
Proof.
  intros (pre & addr & suf & Hpat).
  destruct (search (ip6 port) _) as [[a b]|] eqn:Hs; [eauto|].
  pose proof (search_from_None _ _ _ Hs (length pre)) as Hnone.
  apply pattern_at_match in Hpat as [n Hn]. congruence.
Qed.

Lemma search_head p s n :
  match_here p s = Some n -> search p s = Some (0, n).
Proof. intros H. unfold search. destruct s; simpl; by rewrite H. Qed.

(** The text matched first does not occur further left. *)
Lemma first_match_is_first_occurrence p s a b j :
  search p s = Some (a, b) -> j < a ->
  starts_with (slice s a b) (drop j s) = false.
Proof.
  intros H Hj. apply search_Some_bounds in H as (_ & _ & _ & Hm & Hleft).
  destruct (starts_with _ _) eqn:Hst; [|done].
  apply starts_with_true in Hst.
  destruct (match_here_complete _ _ (drop (length (slice s a b)) (drop j s)) Hm)
    as [n Hn].
  rewrite <- Hst, Hleft in Hn; done.
Qed.

Lemma rewrite_host_unfold port data start stop :
  search (ip6 port) (decode data) = Some (start, stop) ->
  rewrite_host port data =
  take start data ++ encode (replacement port) ++
  encode (replace (slice (decode data) start stop) (replacement port)
            (decode (drop stop data))).
Proof.
  intros H. unfold rewrite_host. rewrite H.
  pose proof (search_Some_bounds _ _ _ _ H) as (Hab & Hb & _ & Hm & _).
  set (s := decode data) in *. set (old := slice s start stop).
  assert (old <> []) as Hold.
  { apply matches_ip6 in Hm as (addr & Hw & _). fold old in Hw. by rewrite Hw. }
  assert (s = take start s ++ old ++ drop stop s) as Hs.
  { by apply slice_split. }
  rewrite !replace_nonempty by done.
  rewrite Hs at 1. rewrite replace_all_first; [|done|].
  - rewrite !encode_app. unfold s at 1. rewrite encode_take_decode.
    unfold s, decode. by rewrite fmap_drop.
  - intros j Hj. rewrite <- Hs. rewrite length_take in Hj.
    apply (first_match_is_first_occurrence (ip6 port)); [done|lia].
Qed.

(** The rewrite of a buffer that is not empty is not empty. *)
Lemma rewrite_host_nonempty port data :
  0 < length data -> 0 < length (rewrite_host port data).
Proof.
  intros Hlen. destruct (search (ip6 port) (decode data)) as [[start stop]|] eqn:Hs.
  - rewrite (rewrite_host_unfold _ _ _ _ Hs), !length_app.
    unfold replacement, encode. rewrite length_fmap, length_app. simpl. lia.
  - unfold rewrite_host. by rewrite Hs.
Qed.

Lemma occursb_spec old s : occursb old s = true <-> occurs_in old s.
Proof.
  split.
  - induction s as [|x s IH]; simpl; rewrite orb_true_iff.
    + intros [H|H]; [|done]. apply starts_with_true in H.
      exists [], (drop (length old) []). by rewrite <- H.
    + intros [H|H].
      * apply starts_with_true in H.
        exists [], (drop (length old) (x :: s)). by rewrite <- H.
      * destruct (IH H) as (a & b & ->). by exists (x :: a), b.
  - intros (a & b & ->). induction a as [|x a IH]; simpl.
    + destruct (old ++ b) eqn:E; simpl; rewrite <- E, starts_with_app; done.
    + by rewrite IH, orb_true_r.
Qed.

(** ** The claims on the rewrite *)

(** C1, as amended.  When the pattern is found, the bytes before the first
    match are kept, the matched span becomes [127.0.0.1:<port>], and behind
    it every further occurrence of the matched text, found from left to
    right without overlap, is replaced as well.  In particular, when the
    matched text does not occur again behind the first span, that span alone
    is replaced and all later bytes are kept, whatever other occurrences of
    the pattern they hold. *)
Theorem rewrite_replaces_matched_text port data start stop :
  search (ip6 port) (decode data) = Some (start, stop) ->
  let old := slice (decode data) start stop in
  rewrite_host port data =
    take start data ++ encode (replacement port) ++
    encode (replace old (replacement port) (decode (drop stop data)))
  /\ (~ occurs_in old (decode (drop stop data)) ->
      rewrite_host port data =
        take start data ++ encode (replacement port) ++ drop stop data).
Proof.
  intros H old. pose proof (rewrite_host_unfold _ _ _ _ H) as Hr.
  fold old in Hr. split; [done|].
  intros Hno. rewrite Hr. do 2 f_equal.
  pose proof (search_Some_bounds _ _ _ _ H) as (_ & _ & _ & Hm & _).
  fold old in Hm. apply matches_ip6 in Hm as (addr & Hw & _).
  rewrite replace_nonempty by by rewrite Hw.
  rewrite replace_all_absent; [apply encode_decode|].
  intros j. by apply starts_with_false.
Qed.

Lemma rewrite_replaces_matched_text_witness :
  let data := btext "[::1]:7245 to [::2]:7245" in
  search (ip6 7245) (decode data) = Some (0, 10) /\
  ~ occurs_in (slice (decode data) 0 10) (decode (drop 10 data)) /\
  rewrite_host 7245 data = btext "127.0.0.1:7245 to [::2]:7245".
Proof.
  intros data.
  assert (search (ip6 7245) (decode data) = Some (0, 10)) as H
    by (vm_compute; reflexivity).
  assert (~ occurs_in (slice (decode data) 0 10) (decode (drop 10 data))) as Hno.
  { intros Hocc. apply occursb_spec in Hocc. vm_compute in Hocc. discriminate. }
  split; [exact H|]. split; [exact Hno|].
  destruct (rewrite_replaces_matched_text 7245 data 0 10 H) as [_ Hr].
  rewrite (Hr Hno). vm_compute. reflexivity.
Defined.

(** C1, as stated, fails: the second occurrence of the pattern has the text
    of the first and is rewritten with it. *)
Lemma rewrite_replaces_repeated_match :
  let data := btext "[::1]:7245 [::1]:7245" in
  pattern_at 7245 data [] (btext "::1") (btext " [::1]:7245") /\
  pattern_at 7245 data (btext "[::1]:7245 ") (btext "::1") [] /\
  rewrite_first_span 7245 data = btext "127.0.0.1:7245 [::1]:7245" /\
  rewrite_host 7245 data = btext "127.0.0.1:7245 127.0.0.1:7245" /\
  rewrite_host 7245 data <> rewrite_first_span 7245 data.
Proof.
  split_and!.
  - split; [vm_compute; reflexivity|]. apply (bool_decide_unpack _). exact I.
  - split; [vm_compute; reflexivity|]. apply (bool_decide_unpack _). exact I.
  - vm_compute. reflexivity.
  - vm_compute. reflexivity.
  - vm_compute. discriminate.
Qed.

(** C5.  A buffer without the bracketed address followed by a colon and the
    target port goes through the rewrite unchanged. *)
Theorem rewrite_identity_without_pattern port data :
  ~ has_pattern port data -> rewrite_host port data = data.
Proof.
  intros Hno. unfold rewrite_host.
  destruct (search (ip6 port) (decode data)) as [[start stop]|] eqn:H; [|done].
  destruct Hno. by eapply search_has_pattern.
Qed.

Lemma rewrite_identity_without_pattern_witness :
  let data := btext "Host: [fe80::1]:8080" in
  ~ has_pattern 7245 data /\ rewrite_host 7245 data = data.
Proof.
  intros data.
  assert (~ has_pattern 7245 data) as Hno.
  { intros H. apply has_pattern_search in H. vm_compute in H.
    destruct H as [x H]. discriminate. }
  split; [exact Hno|]. exact (rewrite_identity_without_pattern 7245 data Hno).
Defined.

(** ** What a computation leaves as it is *)

Section Frame.
Context (P : world -> world -> Prop).
Hypothesis P_refl : forall w, P w w.
Hypothesis P_trans : forall w1 w2 w3, P w1 w2 -> P w2 w3 -> P w1 w3.

Lemma preserves_ret {A} (a : A) : preserves P (ret a).
Proof using P_refl. intros w r w' [= <- <-]. apply P_refl. Qed.

Lemma preserves_raise {A} e : preserves P (@raise A e).
Proof using P_refl. intros w r w' [= <- <-]. apply P_refl. Qed.

Lemma preserves_diverge {A} : preserves P (@diverge A).
Proof using P_refl. intros w r w' [= <- <-]. apply P_refl. Qed.

Lemma preserves_bind {A B} (m : M A) (k : A -> M B) :
  preserves P m -> (forall a, preserves P (k a)) -> preserves P (bind m k).
Proof using P_trans.
  intros Hm Hk w r w'. unfold bind.
  destruct (m w) as [[a|e|] w1] eqn:E; specialize (Hm _ _ _ E).
  - intros H. eapply P_trans; [done|]. by eapply Hk.
  - by intros [= <- <-].
  - by intros [= <- <-].
Qed.

Lemma preserves_try_except {A} (m : M A) (h : exn -> option (M A)) :
  preserves P m -> (forall e hm, h e = Some hm -> preserves P hm) ->
  preserves P (try_except m h).
Proof using P_trans.
  intros Hm Hh w r w'. unfold try_except.
  destruct (m w) as [[a|e|] w1] eqn:E; specialize (Hm _ _ _ E).
  - by intros [= <- <-].
  - destruct (h e) as [hm|] eqn:Ee.
    + intros H. eapply P_trans; [done|]. by eapply Hh.
    + by intros [= <- <-].
  - by intros [= <- <-].
Qed.

Lemma preserves_except_Exception {A} (h : exn -> M A) e hm :
  (forall e, preserves P (h e)) -> except_Exception h e = Some hm -> preserves P hm.
Proof.
  unfold except_Exception. intros Hh. destruct (is_Exception e); [|done].
  by intros [= <-].
Qed.

Lemma preserves_tolerate (m : M unit) : preserves P m -> preserves P (tolerate m).
Proof using P_refl P_trans.
  intros Hm. apply preserves_try_except; [done|].
  intros e hm. apply preserves_except_Exception. intros _. apply preserves_ret.
Qed.

Lemma preserves_for_each {A} (l : list A) (body : A -> M unit) :
  (forall x, preserves P (body x)) -> preserves P (for_each l body).
Proof using P_refl P_trans.
  intros Hb. induction l as [|x l IH]; simpl.
  - apply preserves_ret.
  - apply preserves_bind; [apply Hb|]. by intros _.
Qed.

Lemma preserves_world {A} (m : world -> M A) :
  (forall w0, preserves P (m w0)) -> preserves P (fun w => m w w).
Proof. intros Hm w r w' H. by eapply Hm. Qed.
End Frame.

Lemma same_polls_refl w : same_polls w w.
Proof. done. Qed.
Lemma same_polls_trans w1 w2 w3 :
  same_polls w1 w2 -> same_polls w2 w3 -> same_polls w1 w3.
Proof. unfold same_polls. congruence. Qed.

Lemma same_log_refl w : same_log w w.
Proof. done. Qed.
Lemma same_log_trans w1 w2 w3 :
  same_log w1 w2 -> same_log w2 w3 -> same_log w1 w3.
Proof. unfold same_log. congruence. Qed.

Lemma same_links_refl w : same_links w w.
Proof. done. Qed.
Lemma same_links_trans w1 w2 w3 :
  same_links w1 w2 -> same_links w2 w3 -> same_links w1 w3.
Proof.
  intros [H1 H1'] [H2 H2']. split; [congruence|].
  intros s. by rewrite H2', H1'.
Qed.

Lemma still_selecting_refl w : still_selecting w w.
Proof. by intros H. Qed.
Lemma still_selecting_trans w1 w2 w3 :
  still_selecting w1 w2 -> still_selecting w2 w3 -> still_selecting w1 w3.
Proof. unfold still_selecting. auto. Qed.

Create HintDb frame.
#[local] Hint Resolve same_polls_refl same_polls_trans same_log_refl same_log_trans
  same_links_refl same_links_trans still_selecting_refl still_selecting_trans : frame.
#[local] Hint Resolve preserves_ret preserves_raise preserves_diverge
  preserves_tolerate : frame.

(** Unfolds the socket and selector calls and splits on what they find. *)
Ltac prim_cases :=
  intros w r w';
  unfold sock_recv, sock_send, sock_close, sock_setblocking, new_socket,
    sock_accept, create_connection, sel_register, sel_unregister, sel_select,
    sock_bind, print, external_stop, new_selector;
  repeat case_match; intros [= <- <-].

Lemma is_open_insert s c sk (w : world) :
  is_open s (set_socks <[c := sk]> w) =
  if decide (c = s) then negb (closed sk) else is_open s w.
Proof.
  unfold is_open. simpl. rewrite lookup_insert.
  by destruct (decide (c = s)).
Qed.

Lemma is_open_lookup s w sk :
  socks w !! s = Some sk -> is_open s w = negb (closed sk).
Proof. unfold is_open. by intros ->. Qed.

(** *** The socket and selector calls *)

Ltac polls_tac := prim_cases; reflexivity.

Lemma polls_print ev : preserves same_polls (print ev).
Proof. polls_tac. Qed.
Lemma polls_recv s n : preserves same_polls (sock_recv s n).
Proof. polls_tac. Qed.
Lemma polls_send s d : preserves same_polls (sock_send s d).
Proof. polls_tac. Qed.
Lemma polls_close s : preserves same_polls (sock_close s).
Proof. polls_tac. Qed.
Lemma polls_setblocking s b : preserves same_polls (sock_setblocking s b).
Proof. polls_tac. Qed.
Lemma polls_new_socket i o : preserves same_polls (new_socket i o).
Proof. polls_tac. Qed.
Lemma polls_accept s : preserves same_polls (sock_accept s).
Proof. polls_tac. Qed.
Lemma polls_connect port : preserves same_polls (create_connection port).
Proof. polls_tac. Qed.
Lemma polls_register s d : preserves same_polls (sel_register s d).
Proof. polls_tac. Qed.
Lemma polls_unregister s : preserves same_polls (sel_unregister s).
Proof. polls_tac. Qed.
Lemma polls_bind s : preserves same_polls (sock_bind s).
Proof. polls_tac. Qed.
Lemma polls_external_stop t : preserves same_polls (external_stop t).
Proof. polls_tac. Qed.

#[local] Hint Resolve polls_print polls_recv polls_send polls_close
  polls_setblocking polls_new_socket polls_accept polls_connect polls_register
  polls_unregister polls_bind polls_external_stop : frame.

Ltac selecting_tac :=
  prim_cases; unfold still_selecting; simpl; eauto.

Lemma selecting_print ev : preserves still_selecting (print ev).
Proof. selecting_tac. Qed.
Lemma selecting_recv s n : preserves still_selecting (sock_recv s n).
Proof. selecting_tac. Qed.
Lemma selecting_send s d : preserves still_selecting (sock_send s d).
Proof. selecting_tac. Qed.
Lemma selecting_close s : preserves still_selecting (sock_close s).
Proof. selecting_tac. Qed.
Lemma selecting_setblocking s b : preserves still_selecting (sock_setblocking s b).
Proof. selecting_tac. Qed.
Lemma selecting_new_socket i o : preserves still_selecting (new_socket i o).
Proof. selecting_tac. Qed.
Lemma selecting_accept s : preserves still_selecting (sock_accept s).
Proof. selecting_tac. Qed.
Lemma selecting_connect port : preserves still_selecting (create_connection port).
Proof. selecting_tac. Qed.
Lemma selecting_register s d : preserves still_selecting (sel_register s d).
Proof. selecting_tac. Qed.
Lemma selecting_unregister s : preserves still_selecting (sel_unregister s).
Proof. selecting_tac. Qed.
Lemma selecting_bind s : preserves still_selecting (sock_bind s).
Proof. selecting_tac. Qed.
Lemma selecting_external_stop t : preserves still_selecting (external_stop t).
Proof. selecting_tac. Qed.
Lemma selecting_select a : preserves still_selecting (sel_select a).
Proof. selecting_tac. Qed.

#[local] Hint Resolve selecting_print selecting_recv selecting_send selecting_close
  selecting_setblocking selecting_new_socket selecting_accept selecting_connect
  selecting_register selecting_unregister selecting_bind selecting_external_stop
  selecting_select : frame.

Lemma log_close s : preserves same_log (sock_close s).
Proof. prim_cases; reflexivity. Qed.
Lemma log_unregister s : preserves same_log (sel_unregister s).
Proof. prim_cases; reflexivity. Qed.
Lemma log_send s d : preserves same_log (sock_send s d).
Proof. prim_cases; reflexivity. Qed.

#[local] Hint Resolve log_close log_unregister log_send : frame.

Ltac links_tac :=
  prim_cases; split; simpl; try done;
  intros ?; unfold is_open; simpl; rewrite lookup_insert;
  match goal with
  | |- context [decide (?a = ?b)] =>
      destruct (decide (a = b)) as [<-|]; simpl; [|done]
  end;
  repeat match goal with
  | H : socks _ !! _ = Some _ |- _ => rewrite H; clear H
  | H : closed _ = _ |- _ => rewrite H; clear H
  end; done.

Lemma links_print ev : preserves same_links (print ev).
Proof. by prim_cases. Qed.
Lemma links_recv s n : preserves same_links (sock_recv s n).
Proof. links_tac. Qed.
Lemma links_send s d : preserves same_links (sock_send s d).
Proof. links_tac. Qed.

#[local] Hint Resolve links_print links_recv links_send : frame.

(** *** The end of a call *)

Lemma referenced_sel x w w' : sel w' = sel w -> referenced x w' = referenced x w.
Proof. unfold referenced. by intros ->. Qed.

Lemma finalize_spec x w :
  exists ss, finalize x w = (Ok tt, set_socks (fun _ => ss) w) /\
    forall y, ss !! y =
      if decide (y = x) then
        if referenced x w then socks w !! y else shut <$> socks w !! y
      else socks w !! y.
Proof.
  unfold finalize. destruct (referenced x w).
  - exists (socks w). split; [by destruct w|]. intros y. by destruct (decide _).
  - unfold try_except, sock_close. destruct (socks w !! x) as [sk|] eqn:Hx.
    + eexists. split; [reflexivity|]. intros y. rewrite lookup_insert.
      destruct (decide (x = y)) as [<-|], (decide _) as [|]; simplify_eq; try done.
      by rewrite Hx.
    + exists (socks w). split; [by destruct w|]. intros y.
      destruct (decide (y = x)) as [->|]; [|done]. by rewrite Hx.
Qed.

Lemma shut_shut (o : option sock) : shut <$> (shut <$> o) = shut <$> o.
Proof. by destruct o. Qed.

Lemma for_each_finalize (l : list fd) w :
  exists ss, for_each l finalize w = (Ok tt, set_socks (fun _ => ss) w) /\
    forall y, ss !! y =
      if decide (y ∈ l) then
        if referenced y w then socks w !! y else shut <$> socks w !! y
      else socks w !! y.
Proof.
  revert w. induction l as [|x l IH]; intros w; simpl.
  - exists (socks w). split; [by destruct w|]. intros y.
    destruct (decide (y ∈ [])) as [Hin|]; [by inversion Hin|done].
  - unfold bind. destruct (finalize_spec x w) as (ss1 & -> & Hss1).
    destruct (IH (set_socks (fun _ => ss1) w)) as (ss & -> & Hss).
    exists ss. split; [reflexivity|]. intros y. rewrite Hss. simpl.
    rewrite (referenced_sel y w (set_socks (fun _ => ss1) w)) by done.
    rewrite Hss1.
    destruct (decide (y ∈ l)) as [Hl|Hl], (decide (y = x)) as [->|Hx],
      (decide (_ ∈ x :: l)) as [Hin|Hin];
      try (exfalso; apply Hin; by constructor);
      try (exfalso; inversion Hin; by subst);
      destruct (referenced _ w); try done.
    by rewrite shut_shut.
Qed.

(** The release closes the sockets of the call that nothing refers to, and
    nothing else changes. *)
Lemma release_spec first w :
  exists ss, release first w = (Ok tt, set_socks (fun _ => ss) w) /\
    forall y, ss !! y =
      if decide (first <= y < next_fd w) then
        if referenced y w then socks w !! y else shut <$> socks w !! y
      else socks w !! y.
Proof.
  unfold release.
  destruct (for_each_finalize (seq first (next_fd w - first)) w) as (ss & -> & Hss).
  exists ss. split; [done|]. intros y. rewrite Hss.
  destruct (decide (y ∈ _)) as [Hin|Hin], (decide (_ <= _ < _)) as [Hy|Hy];
    try done; exfalso.
  - apply elem_of_seq in Hin. lia.
  - apply Hin, elem_of_seq. lia.
Qed.

(** With every socket of the call referred to, nothing is released. *)
Lemma release_held first w :
  (forall y, first <= y < next_fd w -> referenced y w = true) ->
  release first w = (Ok tt, w).
Proof.
  intros Hheld. destruct (release_spec first w) as (ss & -> & Hss).
  f_equal. destruct w as [socks0 ? ? ? ? ? ? ? ?]. unfold set_socks. simpl in *.
  f_equal. apply map_eq. intros y. rewrite Hss.
  destruct (decide _) as [Hy|]; [|done]. by rewrite Hheld.
Qed.

Lemma call_unfold {A} (body : M A) w :
  call body w =
  match body w with
  | (Ok a, w1) => (Ok a, (release (next_fd w) w1).2)
  | other => other
  end.
Proof.
  unfold call, bind. destruct (body w) as [[a|e|] w1]; try done.
  by destruct (release_spec (next_fd w) w1) as (ss & -> & _).
Qed.

(** A call raises what its body raises, with the state the body left. *)
Lemma call_raise {A} (body : M A) w e w' :
  call body w = (Raise e, w') -> body w = (Raise e, w').
Proof.
  rewrite call_unfold. by destruct (body w) as [[a|e0|] w1].
Qed.

Lemma release_fields first w :
  sel (release first w).2 = sel w /\ polls (release first w).2 = polls w /\
  log (release first w).2 = log w /\ next_fd (release first w).2 = next_fd w /\
  pending (release first w).2 = pending w /\
  upstream (release first w).2 = upstream w /\
  running (release first w).2 = running w.
Proof. by destruct (release_spec first w) as (ss & -> & _). Qed.

(** The release opens nothing, and closes nothing outside the call. *)
Lemma release_open first w x :
  is_open x (release first w).2 =
  if decide (first <= x < next_fd w) then is_open x w && referenced x w
  else is_open x w.
Proof.
  destruct (release_spec first w) as (ss & -> & Hss). unfold is_open. simpl.
  rewrite Hss. destruct (decide _); [|done].
  destruct (referenced x w), (socks w !! x) as [sk|]; simpl; try done.
  by rewrite andb_true_r.
  by rewrite andb_false_r.
Qed.

Lemma release_closed first w x :
  is_open x w = false -> is_open x (release first w).2 = false.
Proof. rewrite release_open. intros ->. by destruct (decide _). Qed.

(** A registered socket is referred to. *)
Lemma referenced_registered x w m d :
  sel w = Selecting m -> m !! x = Some d -> referenced x w = true.
Proof.
  intros Hsel Hx. unfold referenced. rewrite Hsel.
  apply existsb_exists. exists (x, d). split.
  - apply list_elem_of_In. by apply elem_of_map_to_list.
  - unfold holds. simpl. by rewrite bool_decide_eq_true_2.
Qed.

(** *** The program, call by call *)

Section ProgramFrame.
Context (P : world -> world -> Prop).
Hypothesis P_refl : forall w, P w w.
Hypothesis P_trans : forall w1 w2 w3, P w1 w2 -> P w2 w3 -> P w1 w3.
Hypothesis P_print : forall ev, preserves P (print ev).
Hypothesis P_recv : forall s n, preserves P (sock_recv s n).
Hypothesis P_send : forall s d, preserves P (sock_send s d).
Hypothesis P_close : forall s, preserves P (sock_close s).
Hypothesis P_setblocking : forall s b, preserves P (sock_setblocking s b).
Hypothesis P_accept : forall s, preserves P (sock_accept s).
Hypothesis P_connect : forall port, preserves P (create_connection port).
Hypothesis P_register : forall s d, preserves P (sel_register s d).
Hypothesis P_unregister : forall s, preserves P (sel_unregister s).

Ltac frame_step :=
  first
    [ apply preserves_ret; assumption
    | apply preserves_raise; assumption
    | apply preserves_diverge; assumption
    | apply preserves_tolerate; [assumption | assumption | ]
    | apply preserves_bind; [assumption | | intros ? ]
    | assumption
    | apply P_print | apply P_recv | apply P_send | apply P_close
    | apply P_setblocking | apply P_accept | apply P_connect
    | apply P_register | apply P_unregister ].

Lemma preserves_send_loop fuel conn msg t :
  preserves P (send_loop fuel conn msg t).
Proof using P_refl P_trans P_send.
  revert t. induction fuel as [|fuel IH]; intros t; simpl;
    destruct (decide (t < length msg)); repeat frame_step; [|apply IH].
  apply preserves_try_except; [assumption|repeat frame_step|].
  - destruct (decide (a = 0)); repeat frame_step.
  - intros e hm. destruct (is_BlockingIOError e); [|done].
    intros [= <-]. repeat frame_step.
Qed.

Lemma preserves_safe_send conn msg : preserves P (safe_send conn msg).
Proof using P_refl P_trans P_send P_print.
  destruct msg as [|b msg]; simpl; repeat frame_step.
  apply preserves_try_except; [assumption| |].
  - apply (preserves_world P (fun w0 => send_loop (send_fuel conn w0) conn (b :: msg) 0)).
    intros w0. apply preserves_send_loop.
  - intros e hm. apply preserves_except_Exception. intros e'. apply P_print.
Qed.

Lemma preserves_close_connection client server :
  preserves P (close_connection client server).
Proof using P_refl P_trans P_close P_unregister.
  unfold close_connection. repeat frame_step.
Qed.

Lemma preserves_read_from_client port client server :
  preserves P (read_from_client port client server).
Proof using P_refl P_trans P_close P_unregister P_send P_print P_recv.
  unfold read_from_client. apply preserves_try_except; [assumption| |].
  - apply preserves_bind; [assumption|apply P_recv|].
    intros [|b data]; apply preserves_bind; try assumption; try apply P_print;
      intros _; [apply preserves_close_connection|apply preserves_safe_send].
  - intros e hm. destruct (is_reset_or_abort e); [|destruct (is_Exception e)];
      intros [= <-]; apply preserves_bind; try assumption; try apply P_print;
      intros _; apply preserves_close_connection.
Qed.

Lemma preserves_read_from_server client server :
  preserves P (read_from_server client server).
Proof using P_refl P_trans P_close P_unregister P_send P_print P_recv.
  unfold read_from_server. apply preserves_try_except; [assumption| |].
  - apply preserves_bind; [assumption|apply P_recv|].
    intros [|b data]; apply preserves_bind; try assumption; try apply P_print;
      intros _; [apply preserves_close_connection|apply preserves_safe_send].
  - intros e hm. destruct (is_reset_or_abort e); [|destruct (is_Exception e)];
      intros [= <-]; apply preserves_bind; try assumption; try apply P_print;
      intros _; apply preserves_close_connection.
Qed.

Lemma preserves_release first : preserves P (release first).
Proof using P_refl P_trans P_close.
  apply (preserves_world P (fun w0 => for_each (seq first (next_fd w0 - first)) finalize)).
  intros w0. apply preserves_for_each; [assumption|assumption|]. intros x.
  intros w r w'. unfold finalize.
  destruct (referenced x w); [intros [= <- <-]; apply P_refl|].
  revert w r w'. apply preserves_try_except; [assumption|apply P_close|].
  intros e hm [= <-]. by apply preserves_ret.
Qed.

Lemma preserves_call {A} (body : M A) : preserves P body -> preserves P (call body).
Proof using P_refl P_trans P_close.
  intros Hb.
  apply (preserves_world P (fun w0 => a <- body;; release (next_fd w0);; ret a)).
  intros w0. apply preserves_bind; [assumption|assumption|]. intros a.
  apply preserves_bind; [assumption|apply preserves_release|].
  intros _. by apply preserves_ret.
Qed.

Lemma preserves_accept_connection port sock :
  preserves P (accept_connection port sock).
Proof using P_refl P_trans P_print P_accept P_connect P_setblocking P_register
  P_close.
  unfold accept_connection. apply preserves_call.
  unfold accepting. apply preserves_try_except; [assumption| |].
  - repeat frame_step.
  - intros e hm. apply preserves_except_Exception. intros e'. apply P_print.
Qed.

Lemma preserves_dispatch port key : preserves P (dispatch port key).
Proof using All.
  unfold dispatch, relay_handler. destruct key as [s [|[] client server]]; simpl.
  - apply preserves_accept_connection.
  - apply preserves_read_from_client.
  - apply preserves_read_from_server.
Qed.

End ProgramFrame.

(** ** The send loop *)

Lemma sent_on_insert s sk (w : world) :
  sent_on s (set_socks <[s := sk]> w) = wire sk.
Proof. unfold sent_on. simpl. by rewrite lookup_insert_eq. Qed.

Lemma outbox_of_insert s sk (w : world) :
  outbox_of s (set_socks <[s := sk]> w) = outbox sk.
Proof. unfold outbox_of. simpl. by rewrite lookup_insert_eq. Qed.

(** One call of [send]. *)
Lemma sock_send_cases conn data w r w1 :
  sock_send conn data w = (r, w1) ->
  match r with
  | Ok n =>
      n <= length data /\ sent_on conn w1 = sent_on conn w ++ take n data /\
      is_open conn w = true /\
      length (outbox_of conn w1) <= pred (length (outbox_of conn w))
  | Raise e =>
      sent_on conn w1 = sent_on conn w /\
      (is_BlockingIOError e = true ->
       is_open conn w = true /\
       length (outbox_of conn w1) <= pred (length (outbox_of conn w)))
  | Diverge => False
  end.
Proof.
  unfold sock_send.
  destruct (socks w !! conn) as [sk|] eqn:Hsk; [|by intros [= <- <-]].
  destruct (closed sk) eqn:Hc; [by intros [= <- <-]|].
  assert (is_open conn w = true) as Hopen
    by (by rewrite (is_open_lookup _ _ _ Hsk), Hc).
  assert (sent_on conn w = wire sk) as Hwire by (unfold sent_on; by rewrite Hsk).
  assert (outbox_of conn w = outbox sk) as Hout
    by (unfold outbox_of; by rewrite Hsk).
  destruct (outbox sk) as [|[room|e] rest] eqn:Ho; intros [= <- <-].
  - split; [done|]. intros _. split; [done|]. rewrite Hout. simpl. lia.
  - rewrite sent_on_insert, outbox_of_insert, Hwire, Hout. simpl.
    split_and!; (done || lia).
  - rewrite sent_on_insert, outbox_of_insert, Hwire, Hout. simpl.
    split; [done|]. intros _. split; [done|lia].
Qed.

Lemma send_loop_spec fuel conn msg t w r w' :
  send_loop fuel conn msg t w = (r, w') ->
  t <= length msg ->
  enough_fuel fuel conn w ->
  exists k, t <= k <= length msg /\
    sent_on conn w' = sent_on conn w ++ take (k - t) (drop t msg) /\
    match r with
    | Ok _ => k = length msg
    | Raise e => k < length msg /\ is_BlockingIOError e = false
    | Diverge =>
        k < length msg /\ outbox_of conn w' = [] /\ is_open conn w' = true
    end.
Proof.
  revert t w r w'. induction fuel as [|fuel IH]; intros t w r w'; simpl;
    destruct (decide (t < length msg)) as [Hlt|Hge].
  - intros [= <- <-] Ht [[Hopen Hlen]|[_ ?]]; [|lia].
    exists t. rewrite Nat.sub_diag, take_0, app_nil_r.
    split_and!; try (done || lia).
    destruct (outbox_of conn w); [done|simpl in Hlen; lia].
  - intros [= <- <-] Ht _. exists t.
    rewrite Nat.sub_diag, take_0, app_nil_r. split_and!; (done || lia).
  - unfold bind at 1, try_except, bind.
    destruct (sock_send conn (drop t msg) w) as [[n|e|] w1] eqn:Hs;
      pose proof (sock_send_cases _ _ _ _ _ Hs) as Hc;
      pose proof (links_send _ _ _ _ _ Hs) as [_ Hopen1]; [| |done].
    + destruct Hc as (Hn & Hwire & Hopen & Hlen).
      rewrite length_drop in Hn.
      destruct (decide (n = 0)) as [->|Hn0]; simpl.
      { intros [= <- <-] Ht _. exists t. rewrite Hwire, Nat.sub_diag.
        split_and!; (done || lia). }
      intros H Ht Hfuel.
      destruct (IH _ _ _ _ H) as (k & Hk & Hk' & Hr); [lia| |].
      { left. rewrite Hopen1. split; [done|].
        destruct Hfuel as [[_ ?]|[? _]]; [lia|congruence]. }
      exists k. split; [lia|]. split; [|done].
      rewrite Hk', Hwire, <- app_assoc. f_equal.
      rewrite <- drop_drop, take_take_drop. f_equal. lia.
    + destruct Hc as [Hwire Hblock].
      destruct (is_BlockingIOError e) eqn:He; simpl.
      * destruct (Hblock eq_refl) as [Hopen Hlen].
        intros H Ht Hfuel.
        destruct (IH _ _ _ _ H) as (k & Hk & Hk' & Hr); [lia| |].
        { left. rewrite Hopen1. split; [done|].
          destruct Hfuel as [[_ ?]|[? _]]; [lia|congruence]. }
        exists k. split; [lia|]. split; [|done]. by rewrite Hk', Hwire.
      * intros [= <- <-] Ht _. exists t.
        rewrite Nat.sub_diag, take_0, app_nil_r. split_and!; (done || lia).
  - intros [= <- <-] Ht _. exists t.
    rewrite Nat.sub_diag, take_0, app_nil_r. split_and!; (done || lia).
Qed.

Lemma send_fuel_enough conn w : enough_fuel (send_fuel conn w) conn w.
Proof.
  unfold enough_fuel, send_fuel, is_open, outbox_of.
  destruct (socks w !! conn) as [sk|]; [|right; split; [done|lia]].
  destruct (closed sk); [right|left]; split; simpl; (done || lia).
Qed.

(** The fuel of [safe_send] cuts nothing off: with enough fuel, one turn
    more changes neither the result nor the state.  So where the model says
    [Diverge], the loop has used up what the socket had to answer and every
    later [send] raises [BlockingIOError]. *)
Lemma send_loop_fuel_stable fuel conn msg t w :
  enough_fuel fuel conn w ->
  send_loop (S fuel) conn msg t w = send_loop fuel conn msg t w.
Proof.
  revert t w. induction fuel as [|fuel IH]; intros t w Hfuel.
  - destruct Hfuel as [[Hopen Hlen]|[_ ?]]; [|lia].
    simpl. destruct (decide (t < length msg)); [|done].
    unfold bind at 1, try_except, bind, sock_send.
    unfold is_open in Hopen. unfold outbox_of in Hlen.
    destruct (socks w !! conn) as [sk|]; [|done].
    destruct (closed sk); [done|].
    destruct (outbox sk); [|simpl in Hlen; lia].
    simpl. by destruct (decide (t < length msg)).
  - change (send_loop (S (S fuel)) conn msg t w) with
      ((if decide (t < length msg) then
          totalsent' <-
            try_except
              (sent <- sock_send conn (drop t msg);;
               if decide (sent = 0) then raise RuntimeError
               else ret (t + sent))
              (fun e => if is_BlockingIOError e then Some (ret t) else None);;
          send_loop (S fuel) conn msg totalsent'
        else ret tt) w).
    change (send_loop (S fuel) conn msg t w) with
      ((if decide (t < length msg) then
          totalsent' <-
            try_except
              (sent <- sock_send conn (drop t msg);;
               if decide (sent = 0) then raise RuntimeError
               else ret (t + sent))
              (fun e => if is_BlockingIOError e then Some (ret t) else None);;
          send_loop fuel conn msg totalsent'
        else ret tt) w).
    destruct (decide (t < length msg)); [|done].
    unfold bind at 1 3, try_except, bind.
    destruct (sock_send conn (drop t msg) w) as [[n|e|] w1] eqn:Hs;
      pose proof (sock_send_cases _ _ _ _ _ Hs) as Hc;
      pose proof (links_send _ _ _ _ _ Hs) as [_ Hopen1]; [| |done].
    + destruct Hc as (_ & _ & Hopen & Hlen).
      destruct (decide (n = 0)); [done|]. simpl. apply IH.
      left. rewrite Hopen1. split; [done|].
      destruct Hfuel as [[_ ?]|[? _]]; [lia|congruence].
    + destruct Hc as [_ Hblock].
      destruct (is_BlockingIOError e); [|done].
      destruct (Hblock eq_refl) as [Hopen Hlen]. simpl. apply IH.
      left. rewrite Hopen1. split; [done|].
      destruct Hfuel as [[_ ?]|[? _]]; [lia|congruence].
Qed.

Lemma send_loop_more_fuel extra conn msg w :
  send_loop (extra + send_fuel conn w) conn msg 0 w =
  send_loop (send_fuel conn w) conn msg 0 w.
Proof.
  induction extra as [|extra IH]; [done|].
  rewrite <- IH. apply send_loop_fuel_stable.
  pose proof (send_fuel_enough conn w) as [[Ho Hl]|[Ho Hl]]; [left|right];
    (split; [done|lia]).
Qed.

(** *** The loop, answer by answer *)

Lemma sock_send_step conn data w a rest :
  is_open conn w = true ->
  outbox_of conn w = a :: rest ->
  exists w1,
    sock_send conn data w =
      (match a with
       | Sent room => Ok (min room (length data))
       | SendRaise e => Raise e
       end, w1) /\
    is_open conn w1 = true /\ outbox_of conn w1 = rest /\
    log w1 = log w /\
    sent_on conn w1 =
      sent_on conn w ++
      match a with
      | Sent room => take (min room (length data)) data
      | SendRaise _ => []
      end.
Proof.
  unfold is_open, outbox_of, sock_send, sent_on.
  destruct (socks w !! conn) as [sk|]; [|done].
  destruct (closed sk); [done|]. intros _ ->.
  destruct a as [room|e]; eexists; (split; [done|]); simpl;
    rewrite lookup_insert_eq; simpl; by rewrite ?app_nil_r.
Qed.

Lemma send_loop_unfold fuel conn msg t w :
  t < length msg ->
  send_loop (S fuel) conn msg t w =
  match sock_send conn (drop t msg) w with
  | (Ok sent, w1) =>
      if decide (sent = 0) then (Raise RuntimeError, w1)
      else send_loop fuel conn msg (t + sent) w1
  | (Raise e, w1) =>
      if is_BlockingIOError e then send_loop fuel conn msg t w1
      else (Raise e, w1)
  | (Diverge, w1) => (Diverge, w1)
  end.
Proof.
  intros Ht. simpl. destruct (decide (t < length msg)); [|done].
  unfold bind at 1, try_except, bind.
  destruct (sock_send conn (drop t msg) w) as [[n|e|] w1]; [| |done].
  - by destruct (decide (n = 0)).
  - by destruct (is_BlockingIOError e).
Qed.

Lemma send_loop_done fuel conn msg t w :
  length msg <= t -> send_loop fuel conn msg t w = (Ok tt, w).
Proof.
  intros Ht. destruct fuel; simpl; destruct (decide (t < length msg)); (done || lia).
Qed.

(** Through answers that are patient and leave bytes to send the loop
    takes as many bytes as they have room for, in order. *)
Lemma send_loop_patient fuel conn msg o :
  patient o ->
  forall t w rest,
    is_open conn w = true ->
    outbox_of conn w = o ++ rest ->
    t + total_room o < length msg ->
    length o <= fuel ->
    exists w1,
      send_loop (fuel + 1) conn msg t w =
        send_loop (fuel - length o + 1) conn msg (t + total_room o) w1 /\
      is_open conn w1 = true /\ outbox_of conn w1 = rest /\
      log w1 = log w /\
      sent_on conn w1 = sent_on conn w ++ take (total_room o) (drop t msg).
Proof.
  intros Hp. revert fuel. induction Hp as [|a o Ha Hp IH];
    intros fuel t w rest Hopen Hout Hroom Hfuel.
  - exists w. simpl. rewrite Nat.add_0_r, Nat.sub_0_r, app_nil_r. done.
  - simpl in Hfuel. destruct fuel as [|fuel]; [lia|].
    destruct (sock_send_step conn (drop t msg) w a (o ++ rest) Hopen Hout)
      as (w1 & Hsend & Hopen1 & Hout1 & Hlog1 & Hwire1).
    destruct a as [room|e]; simpl in Hroom.
    + assert (min room (length (drop t msg)) = room) as Hmin
        by (rewrite length_drop; lia).
      rewrite Hmin in *.
      destruct (IH fuel (t + room) w1 rest Hopen1 Hout1) as
        (w2 & Hloop & Hopen2 & Hout2 & Hlog2 & Hwire2); [lia|lia|].
      exists w2. split_and!; try done; try congruence.
      * change (S fuel + 1) with (S (fuel + 1)).
        rewrite send_loop_unfold by lia. rewrite Hsend.
        destruct (decide (room = 0)); [lia|]. rewrite Hloop. simpl.
        by rewrite Nat.add_assoc.
      * rewrite Hwire2, Hwire1, <- app_assoc. f_equal. simpl.
        rewrite <- drop_drop, take_take_drop. done.
    + subst e.
      destruct (IH fuel t w1 rest Hopen1 Hout1) as
        (w2 & Hloop & Hopen2 & Hout2 & Hlog2 & Hwire2); [lia|lia|].
      exists w2. split_and!; try done; try congruence.
      * change (S fuel + 1) with (S (fuel + 1)).
        rewrite send_loop_unfold by lia. rewrite Hsend. simpl.
        by rewrite Hloop.
      * rewrite Hwire2, Hwire1, app_nil_r. done.
Qed.

Lemma send_loop_all conn msg o :
  patient o ->
  forall fuel t w,
    is_open conn w = true ->
    outbox_of conn w = o ->
    length msg <= t + total_room o ->
    length o <= fuel ->
    exists w',
      send_loop fuel conn msg t w = (Ok tt, w') /\
      log w' = log w /\
      sent_on conn w' = sent_on conn w ++ drop t msg.
Proof.
  intros Hp. induction Hp as [|a o Ha Hp IH]; intros fuel t w Hopen Hout Hroom Hfuel.
  - simpl in Hroom. exists w. rewrite send_loop_done by lia.
    rewrite drop_ge by lia. by rewrite app_nil_r.
  - destruct (decide (t < length msg)) as [Hlt|Hge].
    2:{ exists w. rewrite send_loop_done by lia.
        rewrite drop_ge by lia. by rewrite app_nil_r. }
    simpl in Hfuel. destruct fuel as [|fuel]; [lia|].
    rewrite send_loop_unfold by done.
    destruct (sock_send_step conn (drop t msg) w a o Hopen Hout)
      as (w1 & -> & Hopen1 & Hout1 & Hlog1 & Hwire1).
    destruct a as [room|e]; simpl in Hroom.
    + rewrite length_drop in *.
      destruct (decide (min room (length msg - t) = 0)); [lia|].
      destruct (IH fuel (t + min room (length msg - t)) w1 Hopen1 Hout1)
        as (w' & Hloop & Hlog & Hwire); [lia|lia|].
      exists w'. split_and!; [done|congruence|].
      rewrite Hwire, Hwire1, <- app_assoc. f_equal.
      rewrite <- drop_drop. apply take_drop.
    + subst e. simpl.
      destruct (IH fuel t w1 Hopen1 Hout1) as (w' & Hloop & Hlog & Hwire);
        [lia|lia|].
      exists w'. split_and!; [done|congruence|].
      by rewrite Hwire, Hwire1, app_nil_r.
Qed.

Lemma send_fuel_outbox conn w :
  is_open conn w = true -> send_fuel conn w = length (outbox_of conn w) + 1.
Proof.
  unfold is_open, send_fuel, outbox_of.
  destruct (socks w !! conn); [|done]. intros _. lia.
Qed.

(** What a call of [safe_send] on a non-empty buffer comes to. *)
Lemma safe_send_spec conn msg w r w' :
  0 < length msg ->
  safe_send conn msg w = (r, w') ->
  exists k, k <= length msg /\
    sent_on conn w' = sent_on conn w ++ take k msg /\
    match r with
    | Ok _ =>
        (k = length msg /\ log w' = log w ++ [Sending (length msg)]) \/
        (exists e, is_Exception e = true /\ k < length msg /\
           log w' = log w ++ [Sending (length msg); ErrorInSafeSend e])
    | Raise e =>
        is_Exception e = false /\ k < length msg /\
        log w' = log w ++ [Sending (length msg)]
    | Diverge =>
        k < length msg /\ outbox_of conn w' = [] /\ is_open conn w' = true /\
        log w' = log w ++ [Sending (length msg)]
    end.
Proof.
  intros Hlen. destruct msg as [|b msg]; [simpl in Hlen; lia|].
  unfold safe_send. set (m := b :: msg) in *.
  unfold bind, print, try_except.
  set (w0 := set_log (log w ++ [Sending (length m)]) w).
  destruct (send_loop (send_fuel conn w0) conn m 0 w0) as [rl wl] eqn:Hloop.
  pose proof (preserves_send_loop same_log same_log_refl same_log_trans
                log_send _ _ _ _ _ _ _ Hloop) as Hlog.
  unfold same_log in Hlog. simpl in Hlog.
  destruct (send_loop_spec _ _ _ _ _ _ _ Hloop) as (k & Hk & Hwire & Hr);
    [lia|apply send_fuel_enough|].
  rewrite Nat.sub_0_r, drop_0 in Hwire.
  change (sent_on conn w0) with (sent_on conn w) in Hwire.
  destruct rl as [[]|e|].
  - intros [= <- <-]. exists k. split_and!; [lia|done|]. left. by split.
  - unfold except_Exception. destruct (is_Exception e) eqn:He.
    + intros [= <- <-]. exists k. split_and!; [lia|done|].
      right. exists e. destruct Hr as [Hr _]. split_and!; [done|done|].
      simpl. by rewrite Hlog, <- app_assoc.
    + intros [= <- <-]. exists k. destruct Hr as [Hr _].
      split_and!; (done || lia).
  - intros [= <- <-]. exists k. destruct Hr as (Hr & Ho & Hopen).
    split_and!; (done || lia).
Qed.

(** A fatal answer after patient ones ends the call: the error is printed
    and [safe_send] returns. *)
Lemma safe_send_first_error conn msg w o a rest e :
  is_open conn w = true ->
  outbox_of conn w = o ++ a :: rest ->
  patient o ->
  total_room o < length msg ->
  fatal a = Some e ->
  is_Exception e = true ->
  exists w', safe_send conn msg w = (Ok tt, w') /\
    sent_on conn w' = sent_on conn w ++ take (total_room o) msg /\
    outbox_of conn w' = rest /\
    log w' = log w ++ [Sending (length msg); ErrorInSafeSend e].
Proof.
  intros Hopen Hout Hp Hroom Hfatal He.
  destruct msg as [|b msg]; [simpl in Hroom; lia|].
  unfold safe_send, bind, print, try_except.
  set (m := b :: msg) in *. set (w0 := set_log _ w).
  rewrite (send_fuel_outbox conn w0) by done.
  change (outbox_of conn w0) with (outbox_of conn w).
  destruct (send_loop_patient (length (outbox_of conn w)) conn m o Hp 0 w0
              (a :: rest)) as (w1 & -> & Hopen1 & Hout1 & Hlog1 & Hwire1);
    try done.
  { rewrite Hout, length_app. lia. }
  rewrite Hout, length_app. simpl length.
  replace (length o + S (length rest) - length o + 1) with (S (S (length rest)))
    by lia.
  rewrite send_loop_unfold by lia.
  destruct (sock_send_step conn (drop (0 + total_room o) m) w1 a rest Hopen1 Hout1)
    as (w2 & -> & Hopen2 & Hout2 & Hlog2 & Hwire2).
  rewrite drop_0 in Hwire1. change (sent_on conn w0) with (sent_on conn w) in Hwire1.
  assert (log w2 = log w ++ [Sending (length m)]) as Hlog
    by (by rewrite Hlog2, Hlog1).
  destruct a as [[|room]|e']; simpl in Hfatal; simplify_eq.
  - simpl. unfold except_Exception. simpl.
    eexists. split; [done|]. simpl. rewrite Hlog, <- app_assoc.
    split_and!; [|done|done].
    change (sent_on conn w2 = sent_on conn w ++ take (total_room o) m).
    rewrite Hwire2, Hwire1. simpl. by rewrite app_nil_r.
  - destruct (is_BlockingIOError e') eqn:Hb; [done|]. simplify_eq.
    unfold except_Exception. rewrite He.
    eexists. split; [done|]. simpl. rewrite Hlog, <- app_assoc.
    split_and!; [|done|done].
    change (sent_on conn w2 = sent_on conn w ++ take (total_room o) m).
    rewrite Hwire2, Hwire1. simpl. by rewrite app_nil_r.
Qed.

(** C3, as amended.  For a non-empty buffer [safe_send] prints its length
    and then ends in one of these ways: it returns after the socket has taken
    the whole buffer; or, on a socket error that is an [Exception], it prints
    the error and returns normally, with only a proper prefix of the buffer
    taken and nothing told to its caller; or an exception that is not an
    [Exception] goes through; or it waits for ever on an open socket that
    stays unwritable.  No [Exception] ever reaches the caller.  The socket
    errors are these: after answers that took bytes or asked to wait, a
    [send] that takes 0 bytes, which counts as a broken connection
    ([RuntimeError]), or a [send] that raises an [Exception] other than
    [BlockingIOError]; either ends the loop at once, with the bytes taken
    so far sent and the error printed. *)
Theorem safe_send_swallows_errors conn msg w r w' :
  0 < length msg ->
  safe_send conn msg w = (r, w') ->
  (exists k, k <= length msg /\
     sent_on conn w' = sent_on conn w ++ take k msg /\
     match r with
     | Ok _ =>
         (k = length msg /\ log w' = log w ++ [Sending (length msg)]) \/
         (exists e, is_Exception e = true /\ k < length msg /\
            log w' = log w ++ [Sending (length msg); ErrorInSafeSend e])
     | Raise e =>
         is_Exception e = false /\ k < length msg /\
         log w' = log w ++ [Sending (length msg)]
     | Diverge =>
         k < length msg /\ outbox_of conn w' = [] /\ is_open conn w' = true /\
         log w' = log w ++ [Sending (length msg)]
     end) /\
  (forall o a rest e,
     is_open conn w = true ->
     outbox_of conn w = o ++ a :: rest ->
     patient o ->
     total_room o < length msg ->
     fatal a = Some e ->
     is_Exception e = true ->
     r = Ok tt /\
     sent_on conn w' = sent_on conn w ++ take (total_room o) msg /\
     outbox_of conn w' = rest /\
     log w' = log w ++ [Sending (length msg); ErrorInSafeSend e]).
Proof.
  intros Hlen Hrun. split; [by apply safe_send_spec|].
  intros o a rest e Hopen Hout Hp Hroom Hfatal He.
  destruct (safe_send_first_error conn msg w o a rest e Hopen Hout Hp Hroom
              Hfatal He) as (w2 & Hrun2 & Hwire & Hrest & Hlog).
  rewrite Hrun in Hrun2. by simplify_eq.
Qed.

Lemma safe_send_swallows_errors_witness :
  let w := w_pair [] [] [] [Sent 3; SendRaise BlockingIOError; Sent 0; Sent 9] in
  let msg := btext "hello" in
  let w' := (safe_send 2 msg w).2 in
  0 < length msg /\ safe_send 2 msg w = (Ok tt, w') /\
  sent_on 2 w' = btext "hel" /\
  log w' = [Sending 5; ErrorInSafeSend RuntimeError].
Proof.
  intros w msg w'.
  assert (0 < length msg) as Hlen by (vm_compute; lia).
  assert (safe_send 2 msg w = (Ok tt, w')) as H by (vm_compute; reflexivity).
  split; [exact Hlen|]. split; [exact H|].
  destruct (safe_send_swallows_errors 2 msg w (Ok tt) w' Hlen H) as [_ Herr].
  assert (patient [Sent 3; SendRaise BlockingIOError]) as Hp
    by (repeat constructor).
  assert (total_room [Sent 3; SendRaise BlockingIOError] < length msg) as Hroom
    by (vm_compute; lia).
  destruct (Herr [Sent 3; SendRaise BlockingIOError] (Sent 0) [Sent 9]
              RuntimeError eq_refl eq_refl Hp Hroom eq_refl eq_refl)
    as (_ & Hwire & _ & Hlog).
  split; [exact Hwire|exact Hlog].
Defined.

(** C3, as stated, fails: the socket takes three bytes of five and then
    breaks, and [safe_send] returns normally. *)
Lemma safe_send_returns_after_partial_send :
  let w := w_pair [] [] [] [Sent 3; SendRaise BrokenPipeError] in
  exists w', safe_send 2 (btext "hello") w = (Ok tt, w') /\
    sent_on 2 w' = btext "hel" /\ sent_on 2 w' <> btext "hello".
Proof.
  eexists. split; [vm_compute; reflexivity|].
  split; [vm_compute; reflexivity|]. vm_compute. discriminate.
Qed.

(** ** Teardown *)

Lemma world_eta w :
  World (socks w) (next_fd w) (sel w) (running w) (pending w) (upstream w)
        (bind_error w) (polls w) (log w) = w.
Proof. by destruct w. Qed.

Lemma tolerate_unregister s w :
  exists w', tolerate (sel_unregister s) w = (Ok tt, w') /\
    registered s w' = false /\ socks w' = socks w /\ log w' = log w /\
    forall s', registered s' w = false -> registered s' w' = false.
Proof.
  unfold tolerate, try_except, sel_unregister, registered.
  destruct (sel w) as [|m|] eqn:Hsel; simpl.
  - exists w. by rewrite Hsel.
  - destruct (m !! s) as [d|] eqn:Hs.
    + eexists. split; [done|]. simpl. rewrite lookup_delete_eq.
      split_and!; try done.
      intros s'. rewrite lookup_delete. by destruct (decide (s = s')).
    + exists w. rewrite Hsel, Hs.
      by destruct (is_open s w).
  - exists w. by rewrite Hsel.
Qed.

Lemma tolerate_close s w :
  exists w', tolerate (sock_close s) w = (Ok tt, w') /\
    is_open s w' = false /\ sel w' = sel w /\ log w' = log w /\
    forall s', is_open s' w = false -> is_open s' w' = false.
Proof.
  unfold tolerate, try_except, sock_close.
  destruct (socks w !! s) as [sk|] eqn:Hs; simpl.
  - eexists. split; [done|]. rewrite is_open_insert.
    destruct (decide (s = s)); [|done]. split_and!; try done.
    intros s'. rewrite is_open_insert. by destruct (decide (s = s')).
  - exists w. split_and!; try done. unfold is_open. by rewrite Hs.
Qed.

Lemma tolerate_unregister_id s w :
  registered s w = false -> tolerate (sel_unregister s) w = (Ok tt, w).
Proof.
  unfold tolerate, try_except, sel_unregister, registered.
  destruct (sel w) as [|m|]; simpl; try done.
  destruct (m !! s) as [d|] eqn:Hs.
  - intros H. apply bool_decide_eq_false in H. destruct H. eauto.
  - by destruct (is_open s w).
Qed.

Lemma tolerate_close_id s w :
  is_open s w = false -> tolerate (sock_close s) w = (Ok tt, w).
Proof.
  unfold tolerate, try_except, sock_close, is_open.
  destruct (socks w !! s) as [sk|] eqn:Hs; simpl; [|done].
  intros Hc. apply negb_false_iff in Hc. f_equal.
  rewrite <- (world_eta w) at 2. unfold set_socks. f_equal.
  apply insert_id. rewrite Hs. f_equal. destruct sk. simpl in Hc. by subst.
Qed.

(** Teardown always returns, with both sockets unregistered and closed. *)
Lemma close_connection_ok client server w :
  exists w', close_connection client server w = (Ok tt, w') /\
    torn_down client server w' /\ log w' = log w.
Proof.
  unfold close_connection, bind.
  destruct (tolerate_unregister client w) as (w1 & -> & Hr1 & Hs1 & Hl1 & _).
  destruct (tolerate_unregister server w1) as (w2 & -> & Hr2 & Hs2 & Hl2 & Hk2).
  destruct (tolerate_close client w2) as (w3 & -> & Ho3 & Hs3 & Hl3 & _).
  destruct (tolerate_close server w3) as (w4 & -> & Ho4 & Hs4 & Hl4 & Hk4).
  exists w4. split; [done|]. split; [|congruence].
  unfold torn_down, registered in *. rewrite Hs4, Hs3.
  split_and!; auto.
Qed.

(** On a pair that is torn down, teardown changes nothing. *)
Lemma close_connection_again client server w :
  torn_down client server w -> close_connection client server w = (Ok tt, w).
Proof.
  intros (Hr1 & Hr2 & Ho1 & Ho2). unfold close_connection, bind.
  rewrite (tolerate_unregister_id _ _ Hr1), (tolerate_unregister_id _ _ Hr2).
  by rewrite (tolerate_close_id _ _ Ho1), (tolerate_close_id _ _ Ho2).
Qed.

(** C8.  In every state, whatever has become of the two sockets, teardown
    returns without an exception and leaves both sockets unregistered and
    closed; a second teardown of the same pair returns as well, and changes
    nothing. *)
Theorem close_connection_idempotent client server w :
  exists w', close_connection client server w = (Ok tt, w') /\
    torn_down client server w' /\
    close_connection client server w' = (Ok tt, w').
Proof.
  destruct (close_connection_ok client server w) as (w' & H & Ht & _).
  exists w'. split_and!; [done|done|]. by apply close_connection_again.
Qed.

(** ** The relay handlers *)

Lemma wire_recv s n : preserves same_wire (sock_recv s n).
Proof.
  prim_cases; intros c; try done; unfold sent_on; simpl;
    rewrite lookup_insert;
    match goal with
    | |- context [decide (?a = ?b)] =>
        destruct (decide (a = b)) as [<-|]; simpl; [|done]
    end;
    match goal with
    | H : socks _ !! _ = Some _ |- _ => by rewrite H
    end.
Qed.

Lemma log_recv s n : preserves same_log (sock_recv s n).
Proof. prim_cases; reflexivity. Qed.

Lemma not_Exception_not_reset e :
  is_Exception e = false -> is_reset_or_abort e = false.
Proof. by destruct e. Qed.

(** No [Exception] leaves [safe_send]. *)
Lemma safe_send_raise conn msg w e w' :
  safe_send conn msg w = (Raise e, w') -> is_Exception e = false.
Proof.
  destruct msg as [|b msg]; [done|].
  unfold safe_send, bind, print, try_except, except_Exception.
  destruct (send_loop _ _ _ _ _) as [[[]|e'|] wl]; try done.
  destruct (is_Exception e') eqn:He; [done|]. by intros [= <- <-].
Qed.

(** A read that raises an [Exception] ends in a printed line and the
    teardown of the pair. *)
Lemma relay_handler_read_error port h client server w e w1 :
  sock_recv (source h client server) 4096 w = (Raise e, w1) ->
  is_Exception e = true ->
  relay_handler port h client server w =
  (print (if is_reset_or_abort e then connection_lost h else error_reading h e);;
   close_connection client server) w1.
Proof.
  intros Hrecv He.
  destruct h; simpl in *; unfold read_from_client, read_from_server;
    unfold try_except, bind at 1; rewrite Hrecv, He;
    by destruct (is_reset_or_abort e).
Qed.

(** A read that finds bytes ends in [safe_send] on the other socket. *)
Lemma relay_handler_read_data port h client server w data w1 :
  sock_recv (source h client server) 4096 w = (Ok data, w1) ->
  0 < length data ->
  relay_handler port h client server w =
  (print (forwarding h (length (outgoing port h data)));;
   safe_send (destination h client server) (outgoing port h data)) w1.
Proof.
  intros Hrecv Hlen. destruct data as [|b data]; [simpl in Hlen; lia|].
  destruct h; simpl in *; unfold read_from_client, read_from_server;
    unfold try_except, bind at 1; rewrite Hrecv.
  all: destruct (bind (print _) _ w1) as [[[]|e|] w2] eqn:Hb; try done.
  all: unfold bind, print in Hb; apply safe_send_raise in Hb.
  all: by rewrite (not_Exception_not_reset _ Hb), Hb.
Qed.

(** A read leaves the answers to [send] as they are. *)
Lemma outbox_recv s n w r w1 x :
  sock_recv s n w = (r, w1) -> outbox_of x w1 = outbox_of x w.
Proof.
  revert w r w1. prim_cases; try done; unfold outbox_of; simpl;
    rewrite lookup_insert;
    match goal with
    | |- context [decide (?a = ?b)] =>
        destruct (decide (a = b)) as [<-|]; simpl; [|done]
    end;
    match goal with
    | H : socks _ !! _ = Some _ |- _ => by rewrite H
    end.
Qed.

(** C4, as amended.  For both relay handlers: a read error that is an
    [Exception] and not a reset or an abort is printed and the pair is torn
    down.  Once the read has found bytes, whatever happens to the send, the
    handler leaves every registration and every socket as it was and no
    [Exception] leaves it; when it returns, either the destination has
    taken all the bytes, or it has taken a proper prefix and [safe_send] has
    printed the error, after the line of the handler and its own.  And a
    send error does make it return so: when, after answers that took bytes
    or asked to wait, a [send] takes 0 bytes or raises an [Exception] other
    than [BlockingIOError], the handler returns normally with the error
    printed by [safe_send] and the pair registered and open as before. *)
Theorem relay_error_handling port h client server w :
  (forall e w1,
     sock_recv (source h client server) 4096 w = (Raise e, w1) ->
     is_Exception e = true -> is_reset_or_abort e = false ->
     exists w', relay_handler port h client server w = (Ok tt, w') /\
       torn_down client server w' /\
       log w' = log w ++ [error_reading h e]) /\
  (forall data w1,
     sock_recv (source h client server) 4096 w = (Ok data, w1) ->
     0 < length data ->
     let dest := destination h client server in
     let msg := outgoing port h data in
     (forall r w', relay_handler port h client server w = (r, w') ->
        sel w' = sel w /\ (forall s, is_open s w' = is_open s w) /\
        (forall e, r = Raise e -> is_Exception e = false) /\
        (r = Ok tt ->
         (sent_on dest w' = sent_on dest w ++ msg /\
          log w' = log w ++ [forwarding h (length msg); Sending (length msg)]) \/
         (exists k e, k < length msg /\ is_Exception e = true /\
            sent_on dest w' = sent_on dest w ++ take k msg /\
            log w' = log w ++ [forwarding h (length msg); Sending (length msg);
                               ErrorInSafeSend e]))) /\
     (forall o a rest e,
        is_open dest w = true ->
        outbox_of dest w = o ++ a :: rest ->
        patient o ->
        total_room o < length msg ->
        fatal a = Some e ->
        is_Exception e = true ->
        exists w', relay_handler port h client server w = (Ok tt, w') /\
          sel w' = sel w /\ (forall s, is_open s w' = is_open s w) /\
          sent_on dest w' = sent_on dest w ++ take (total_room o) msg /\
          log w' = log w ++ [forwarding h (length msg); Sending (length msg);
                             ErrorInSafeSend e])).
Proof.
  split.
  - intros e w1 Hrecv He Hreset.
    rewrite (relay_handler_read_error _ _ _ _ _ _ _ Hrecv He), Hreset.
    unfold bind, print.
    destruct (close_connection_ok client server
                (set_log (log w1 ++ [error_reading h e]) w1))
      as (w' & -> & Htorn & Hlog).
    exists w'. split_and!; [done|done|].
    rewrite Hlog. simpl. by rewrite (log_recv _ _ _ _ _ Hrecv).
  - intros data w1 Hrecv Hlen dest msg.
    rewrite (relay_handler_read_data _ _ _ _ _ _ _ Hrecv Hlen).
    fold dest msg.
    pose proof (links_recv _ _ _ _ _ Hrecv) as [Hsel1 Hopen1].
    unfold bind, print.
    set (w2 := set_log _ w1).
    assert (sent_on dest w2 = sent_on dest w) as Hwire2
      by apply (wire_recv _ _ _ _ _ Hrecv dest).
    assert (log w2 = log w ++ [forwarding h (length msg)]) as Hlog2
      by (simpl; by rewrite (log_recv _ _ _ _ _ Hrecv)).
    assert (0 < length msg) as Hmsg.
    { unfold msg. destruct h; simpl; [by apply rewrite_host_nonempty|done]. }
    assert (forall r w', safe_send dest msg w2 = (r, w') ->
              sel w' = sel w /\ forall s, is_open s w' = is_open s w) as Hlinks.
    { intros r w' Hsend.
      pose proof (preserves_safe_send same_links same_links_refl same_links_trans
                    links_print links_send _ _ _ _ _ Hsend) as [Hsel2 Hopen2].
      split; [by rewrite Hsel2|]. intros s. rewrite Hopen2. apply Hopen1. }
    split.
    + intros r w' Hsend. destruct (Hlinks _ _ Hsend) as [Hsel Hopen].
      split_and!; [done|done| |].
      { intros e ->. by eapply safe_send_raise. }
      intros ->.
      destruct (safe_send_spec _ _ _ _ _ Hmsg Hsend)
        as (k & Hk & Hwire & [[-> Hlog]|(e & He & Hlt & Hlog)]).
      * left. rewrite Hwire, Hwire2, Hlog, Hlog2, <- app_assoc.
        by rewrite firstn_all.
      * right. exists k, e. rewrite Hwire, Hwire2, Hlog, Hlog2, <- app_assoc.
        by split_and!.
    + intros o a rest e Hopen Hout Hp Hroom Hfatal He.
      destruct (safe_send_first_error dest msg w2 o a rest e)
        as (w' & Hsend & Hwire & _ & Hlog); try done.
      { change (is_open dest w2) with (is_open dest w1). by rewrite Hopen1. }
      { change (outbox_of dest w2) with (outbox_of dest w1).
        by rewrite (outbox_recv _ _ _ _ _ dest Hrecv). }
      exists w'. destruct (Hlinks _ _ Hsend) as [Hsel Hopen'].
      split_and!; [done|done|done| |].
      * by rewrite Hwire, Hwire2.
      * by rewrite Hlog, Hlog2, <- app_assoc.
Qed.

Lemma relay_error_handling_witness :
  let w := w_pair [RecvRaise OSError] [Sent 1; Sent 0]
             [Recv (btext "ok")] [] in
  (exists w', relay_handler 7245 from_client 1 2 w = (Ok tt, w') /\
     torn_down 1 2 w' /\ log w' = [ErrorReadingClient OSError]) /\
  (exists w', relay_handler 7245 from_server 1 2 w = (Ok tt, w') /\
     sel w' = sel w /\ is_open 1 w' = true /\ is_open 2 w' = true /\
     sent_on 1 w' = btext "o" /\
     log w' = [ServerToClient 2; Sending 2; ErrorInSafeSend RuntimeError]).
Proof.
  intros w. split.
  - destruct (relay_error_handling 7245 from_client 1 2 w) as [Herr _].
    assert (sock_recv 1 4096 w = (Raise OSError, (sock_recv 1 4096 w).2))
      as Hrecv by (vm_compute; reflexivity).
    exact (Herr OSError _ Hrecv eq_refl eq_refl).
  - destruct (relay_error_handling 7245 from_server 1 2 w) as [_ Hdata].
    assert (sock_recv 2 4096 w = (Ok (btext "ok"), (sock_recv 2 4096 w).2))
      as Hrecv by (vm_compute; reflexivity).
    assert (0 < length (btext "ok")) as Hlen by (vm_compute; lia).
    destruct (Hdata _ _ Hrecv Hlen) as [_ Hsend].
    assert (patient [Sent 1]) as Hp by (repeat constructor).
    assert (total_room [Sent 1] < length (outgoing 7245 from_server (btext "ok")))
      as Hroom by (vm_compute; lia).
    destruct (Hsend [Sent 1] (Sent 0) [] RuntimeError eq_refl eq_refl Hp Hroom
                eq_refl eq_refl) as (w' & Hrun & Hsel & Hopen & Hwire & Hlog).
    exists w'. split; [exact Hrun|]. split; [exact Hsel|].
    rewrite !Hopen. split; [reflexivity|]. split; [reflexivity|].
    split; [exact Hwire|exact Hlog].
Defined.

(** C4, as stated, fails: the upstream socket breaks on [send], and the pair
    stays registered and open. *)
Lemma send_error_leaves_pair_registered :
  let w := w_pair [Recv (btext "hello")] [] [] [SendRaise BrokenPipeError] in
  exists w', read_from_client 7245 1 2 w = (Ok tt, w') /\
    log w' = [ClientToServer 5; Sending 5; ErrorInSafeSend BrokenPipeError] /\
    registered 1 w' = true /\ registered 2 w' = true /\
    is_open 1 w' = true /\ is_open 2 w' = true /\
    ~ torn_down 1 2 w'.
Proof.
  eexists. split; [vm_compute; reflexivity|].
  split_and!; try (vm_compute; reflexivity).
  intros (H & _). vm_compute in H. discriminate.
Qed.

(** C6.  When [read_from_server] has read a non-empty [data] from the
    upstream socket, it hands exactly [data] to [safe_send] on the client
    socket: what the client socket accepts during the call is a prefix of
    [data], byte for byte, and it is all of [data] exactly when the handler
    returns without [safe_send] having printed an error. *)
Theorem read_from_server_forwards_unmodified client server w data w1 r w' :
  sock_recv server 4096 w = (Ok data, w1) ->
  0 < length data ->
  read_from_server client server w = (r, w') ->
  read_from_server client server w =
    (print (ServerToClient (length data));; safe_send client data) w1 /\
  exists k, k <= length data /\
    sent_on client w' = sent_on client w ++ take k data /\
    (k = length data <->
     r = Ok tt /\
     log w' = log w ++ [ServerToClient (length data); Sending (length data)]).
Proof.
  intros Hrecv Hlen.
  pose proof (relay_handler_read_data 0 from_server client server w data w1
                Hrecv Hlen) as Hrun.
  simpl in Hrun. rewrite Hrun. intros Hsend. split; [done|].
  unfold bind, print in Hsend. set (w2 := set_log _ w1) in Hsend.
  destruct (safe_send_spec _ _ _ _ _ Hlen Hsend) as (k & Hk & Hwire & Hr).
  assert (sent_on client w2 = sent_on client w) as Hw2
    by apply (wire_recv _ _ _ _ _ Hrecv client).
  assert (log w2 = log w ++ [ServerToClient (length data)]) as Hl2
    by (simpl; by rewrite (log_recv _ _ _ _ _ Hrecv)).
  rewrite Hw2 in Hwire. exists k. split_and!; [done|done|].
  destruct r as [[]|e|].
  - destruct Hr as [[-> Hlog]|(e & He & Hlt & Hlog)];
      rewrite Hlog, Hl2, <- app_assoc; simpl.
    + done.
    + split; [lia|]. intros [_ Heq]. apply app_inv_head in Heq. done.
  - destruct Hr as (_ & Hlt & _). split; [lia|]. by intros [? _].
  - destruct Hr as (Hlt & _). split; [lia|]. by intros [? _].
Qed.

Lemma read_from_server_forwards_unmodified_witness :
  let w := w_pair [] [Sent 2; SendRaise BlockingIOError; Sent 100]
             [Recv (btext "response")] [] in
  let w' := (read_from_server 1 2 w).2 in
  0 < length (btext "response") /\
  read_from_server 1 2 w = (Ok tt, w') /\
  sent_on 1 w' = btext "response".
Proof.
  intros w w'.
  assert (sock_recv 2 4096 w = (Ok (btext "response"), (sock_recv 2 4096 w).2))
    as Hrecv by (vm_compute; reflexivity).
  assert (0 < length (btext "response")) as Hlen by (vm_compute; lia).
  assert (read_from_server 1 2 w = (Ok tt, w')) as Hrun
    by (vm_compute; reflexivity).
  split; [exact Hlen|]. split; [exact Hrun|].
  destruct (read_from_server_forwards_unmodified 1 2 w _ _ _ _ Hrecv Hlen Hrun)
    as (_ & k & Hk & Hwire & Hall).
  assert (k = length (btext "response")) as ->.
  { apply Hall. split; [reflexivity|]. vm_compute. reflexivity. }
  rewrite Hwire. vm_compute. reflexivity.
Defined.

(** ** The acceptor *)

Lemma sock_accept_cases listener w r w1 :
  sock_accept listener w = (r, w1) ->
  (exists i o rest,
     r = Ok (next_fd w) /\
     w1 = set_next_fd (S (next_fd w))
            (set_socks <[next_fd w := Sock false true i o []]> (set_pending rest w)))
  \/ ((exists e, r = Raise e) /\
      sel w1 = sel w /\ socks w1 = socks w /\ next_fd w1 = next_fd w).
Proof.
  unfold sock_accept, new_socket. repeat case_match; intros [= <- <-];
    first [by left; eexists _, _, _ | right; eauto].
Qed.

Lemma create_connection_cases port w r w1 :
  create_connection port w = (r, w1) ->
  (exists i o rest,
     r = Ok (next_fd w) /\
     w1 = set_next_fd (S (next_fd w))
            (set_socks <[next_fd w := Sock false true i o []]> (set_upstream rest w)))
  \/ ((exists e, r = Raise e) /\
      sel w1 = sel w /\ socks w1 = socks w /\ next_fd w1 = next_fd w).
Proof.
  unfold create_connection, new_socket. repeat case_match; intros [= <- <-];
    first [by left; eexists _, _, _ | right; eauto].
Qed.

Lemma sock_accept_new listener w i o rest :
  is_open listener w = true ->
  pending w = NewConn i o :: rest ->
  sock_accept listener w =
  (Ok (next_fd w),
   set_next_fd (S (next_fd w))
     (set_socks <[next_fd w := Sock false true i o []]> (set_pending rest w))).
Proof.
  unfold is_open, sock_accept. destruct (socks w !! listener) as [sk|]; [|done].
  destruct (closed sk); [done|]. by intros _ ->.
Qed.

Lemma create_connection_new port w i o rest :
  upstream w = NewConn i o :: rest ->
  create_connection port w =
  (Ok (next_fd w),
   set_next_fd (S (next_fd w))
     (set_socks <[next_fd w := Sock false true i o []]> (set_upstream rest w))).
Proof. unfold create_connection. by intros ->. Qed.

Lemma sock_setblocking_new s flag w sk :
  socks w !! s = Some sk -> closed sk = false ->
  sock_setblocking s flag w =
  (Ok tt, set_socks <[s := Sock false flag (inbox sk) (outbox sk) (wire sk)]> w).
Proof. unfold sock_setblocking. by intros -> ->. Qed.

Lemma sel_register_new s d w m :
  sel w = Selecting m -> is_open s w = true -> m !! s = None ->
  sel_register s d w = (Ok tt, set_sel (Selecting (<[s := d]> m)) w).
Proof. unfold sel_register. by intros -> -> ->. Qed.

Lemma create_connection_raise port w e w1 w2 :
  create_connection port w = (Raise e, w1) ->
  upstream w2 = upstream w ->
  exists w3, create_connection port w2 = (Raise e, w3) /\
    sel w3 = sel w2 /\ log w3 = log w2 /\ socks w3 = socks w2 /\
    next_fd w3 = next_fd w2.
Proof.
  unfold create_connection, new_socket. intros H ->.
  destruct (upstream w) as [|[i o|e'] rest]; simplify_eq; by eexists.
Qed.

(** C2.  When [accept] fails, or [accept] succeeds and the connection to
    the target port fails (nothing listens there), with an [Exception], the
    acceptor prints the error and returns with the registrations of the
    selector exactly as they were, and with every socket it has opened
    closed: a failed [accept] has opened none, and the socket accepted
    before a failed connect is closed when the acceptor returns (the code
    has no [close()] for it: the socket goes with the local [client], its
    last reference).  No other socket is touched. *)
Theorem failed_accept_closes_and_registers_nothing port listener e w :
  is_Exception e = true ->
  referenced (next_fd w) w = false ->
  accept_fails listener e w \/
    (accept_succeeds listener w /\ connect_fails port e w) ->
  exists w', accept_connection port listener w = (Ok tt, w') /\
    sel w' = sel w /\ last (log w') = Some (ErrorAccepting e) /\
    (forall x, x <> next_fd w -> socks w' !! x = socks w !! x) /\
    (accept_fails listener e w -> socks w' = socks w) /\
    (forall client w1, sock_accept listener w = (Ok client, w1) ->
       client = next_fd w /\ closed_in client w').
Proof.
  intros He Hfresh Hfail. unfold accept_connection. rewrite call_unfold.
  destruct Hfail as [[w1 Hacc]|[(client & w1 & Hacc) [wc Hconn]]].
  - assert (accepting port listener w =
            (Ok tt, set_log (log w1 ++ [ErrorAccepting e]) w1)) as ->.
    { unfold accepting, try_except, bind at 1. rewrite Hacc.
      unfold except_Exception. by rewrite He. }
    pose proof Hacc as Hacc'.
    apply sock_accept_cases in Hacc' as
      [(? & ? & ? & ? & ?)|(_ & Hsel1 & Hsocks1 & Hn1)]; [done|].
    destruct (release_spec (next_fd w) (set_log (log w1 ++ [ErrorAccepting e]) w1))
      as (ss & -> & Hss).
    simpl in Hss. rewrite Hn1 in Hss.
    assert (ss = socks w) as ->.
    { apply map_eq. intros y. rewrite Hss, Hsocks1.
      destruct (decide _); [lia|done]. }
    eexists. split; [done|]. simpl. rewrite last_snoc.
    split_and!; try done. intros client w2 Hacc2. by rewrite Hacc in Hacc2.
  - pose proof Hacc as Hacc'.
    apply sock_accept_cases in Hacc' as
      [(i & o & rest & [= ->] & ->)|([e' [=]] & _)].
    set (c := next_fd w) in *.
    set (w2 := set_socks <[c := Sock false false i o []]>
                 (set_log (log w ++ [NewConnection c])
                    (set_next_fd (S c)
                       (set_socks <[c := Sock false true i o []]>
                          (set_pending rest w))))).
    destruct (create_connection_raise port w e wc w2 Hconn eq_refl)
      as (w3 & Hconn3 & Hsel3 & Hlog3 & Hsocks3 & Hn3).
    assert (accepting port listener w =
            (Ok tt, set_log (log w3 ++ [ErrorAccepting e]) w3)) as ->.
    { unfold accepting, try_except, bind at 1. rewrite Hacc.
      unfold bind at 1, print. unfold bind at 1.
      rewrite (sock_setblocking_new c false _ (Sock false true i o []))
        by (done || apply lookup_insert_eq).
      unfold bind at 1.
      match goal with
      | |- context [create_connection port ?x] => change x with w2
      end.
      rewrite Hconn3.
      unfold except_Exception. by rewrite He. }
    destruct (release_spec c (set_log (log w3 ++ [ErrorAccepting e]) w3))
      as (ss & -> & Hss).
    simpl in Hss. rewrite Hn3, Hsocks3 in Hss.
    change (next_fd w2) with (S c) in Hss. change (sel w2) with (sel w) in Hsel3.
    eexists. split; [done|]. simpl. rewrite last_snoc, Hsel3.
    split_and!; try done.
    + intros x Hx. rewrite Hss. destruct (decide _); [lia|]. unfold w2. simpl.
      by rewrite !lookup_insert_ne.
    + intros [w4 Hacc4]. rewrite Hacc in Hacc4. done.
    + intros client w4 Hacc4. rewrite Hacc in Hacc4. injection Hacc4 as <- _.
      split; [done|]. unfold closed_in. simpl. rewrite Hss.
      destruct (decide _); [|lia].
      rewrite (referenced_sel c w (set_log (log w3 ++ [ErrorAccepting e]) w3))
        by done.
      rewrite Hfresh. unfold w2. simpl. rewrite lookup_insert_eq. simpl. eauto.
Qed.

Lemma failed_accept_closes_and_registers_nothing_witness :
  let w := w_listening [NewConn [] []] [] in
  is_Exception ConnectionRefusedError = true /\
  referenced (next_fd w) w = false /\
  (accept_succeeds 0 w /\ connect_fails 7245 ConnectionRefusedError w) /\
  exists w', accept_connection 7245 0 w = (Ok tt, w') /\
    sel w' = sel w /\
    log w' = [NewConnection 1; ErrorAccepting ConnectionRefusedError] /\
    closed_in 1 w' /\ socks w' !! 0 = socks w !! 0.
Proof.
  intros w.
  assert (accept_succeeds 0 w /\ connect_fails 7245 ConnectionRefusedError w)
    as Hfail.
  { split; [eexists _, _|eexists]; vm_compute; reflexivity. }
  assert (referenced (next_fd w) w = false) as Hfresh by (vm_compute; reflexivity).
  split; [reflexivity|]. split; [exact Hfresh|]. split; [exact Hfail|].
  destruct (failed_accept_closes_and_registers_nothing 7245 0
              ConnectionRefusedError w eq_refl Hfresh (or_intror Hfail))
    as (w' & Hrun & Hsel & _ & Hother & _ & Hclient).
  exists w'. split; [exact Hrun|]. split; [exact Hsel|].
  assert (w' = (accept_connection 7245 0 w).2) as Hw' by (by rewrite Hrun).
  split; [rewrite Hw'; vm_compute; reflexivity|].
  split; [|apply Hother; vm_compute; lia].
  assert (sock_accept 0 w = (Ok 1, (sock_accept 0 w).2)) as Hacc
    by (vm_compute; reflexivity).
  exact (proj2 (Hclient 1 _ Hacc)).
Defined.

(** ** The main loop and the shutdown *)

Lemma main_loop_cons port t ticks w :
  main_loop port (t :: ticks) w =
  let w0 := if stop_request t then set_running false w else w in
  if running w0 then
    match turn port t w0 with
    | (Ok true, w1) => (Ok tt, w1)
    | (Ok false, w1) => main_loop port ticks w1
    | (Raise e, w1) => (Raise e, w1)
    | (Diverge, w1) => (Diverge, w1)
    end
  else (Ok tt, w0).
Proof.
  simpl. unfold bind, external_stop.
  destruct (running _); [|done].
  by destruct (turn _ _ _) as [[[]|e|] w1].
Qed.

(** At the boundary after the stop the loop ends, without a call of
    [select]. *)
Lemma main_loop_stop port t rest w :
  stop_request t = true ->
  main_loop port (t :: rest) w = (Ok tt, set_running false w).
Proof. intros H. by rewrite main_loop_cons, H. Qed.

(** What comes after the stop is never looked at. *)
Lemma main_loop_cut port pre t rest w :
  stop_request t = true ->
  main_loop port (pre ++ t :: rest) w = main_loop port (pre ++ [t]) w.
Proof.
  intros Ht. revert w. induction pre as [|t0 pre IH]; intros w.
  - simpl app. by rewrite !main_loop_stop.
  - rewrite <- !app_comm_cons, !main_loop_cons. simpl.
    destruct (running _); [|done].
    destruct (turn _ _ _) as [[[]|e|] w1]; first [done | apply IH].
Qed.

Lemma polls_set_running b : preserves same_polls (fun w => (Ok tt, set_running b w)).
Proof. by intros w r w' [= <- <-]. Qed.

Lemma same_polls_dispatch port key : preserves same_polls (dispatch port key).
Proof.
  apply preserves_dispatch;
    first [exact same_polls_refl | exact same_polls_trans | auto with frame].
Qed.

(** One turn calls [select] once at most. *)
Lemma turn_polls port t w r w' :
  turn port t w = (r, w') -> polls w' <= S (polls w).
Proof.
  unfold turn, try_except. unfold bind at 1.
  assert (forall e hm w1 r1 w2,
    (if is_KeyboardInterrupt e then
       Some (print ShuttingDown;; (fun w => (Ok tt, set_running false w));; ret true)
     else if is_Exception e then
       Some (print (ErrorInSelectLoop e);; ret false)
     else None) = Some hm ->
    hm w1 = (r1, w2) -> polls w2 = polls w1) as Hh.
  { intros e hm w1 r1 w2 Hhm Hrun.
    destruct (is_KeyboardInterrupt e); [|destruct (is_Exception e); [|done]];
      injection Hhm as <-; unfold bind, print, ret in Hrun; by simplify_eq. }
  assert (polls (sel_select (answer t) w).2 <= S (polls w)) as Hsel.
  { unfold sel_select. repeat case_match; simpl; lia. }
  destruct (sel_select (answer t) w) as [[events|e|] w0]; simpl in Hsel.
  - unfold bind.
    destruct (for_each events (dispatch port) w0) as [[[]|e|] w1] eqn:Hfor;
      pose proof (preserves_for_each same_polls same_polls_refl same_polls_trans
                    _ _ (same_polls_dispatch port) _ _ _ Hfor) as Hp;
      unfold same_polls in Hp.
    + intros [= <- <-]. lia.
    + destruct (if is_KeyboardInterrupt e then _ else _) as [hm|] eqn:Hhm.
      * intros Hrun. rewrite (Hh _ _ _ _ _ Hhm Hrun). lia.
      * intros [= <- <-]. lia.
    + intros [= <- <-]. lia.
  - destruct (if is_KeyboardInterrupt e then _ else _) as [hm|] eqn:Hhm.
    + intros Hrun. rewrite (Hh _ _ _ _ _ Hhm Hrun). lia.
    + intros [= <- <-]. lia.
  - intros [= <- <-]. lia.
Qed.

Lemma main_loop_polls port pre t rest w r w' :
  stop_request t = true ->
  main_loop port (pre ++ t :: rest) w = (r, w') ->
  polls w' <= polls w + length pre.
Proof.
  intros Ht. revert w. induction pre as [|t0 pre IH]; intros w.
  - simpl app. rewrite main_loop_stop by done. intros [= <- <-]. simpl. lia.
  - rewrite <- app_comm_cons, main_loop_cons. simpl.
    set (w0 := if stop_request t0 then _ else _).
    assert (polls w0 = polls w) as Hw0 by (unfold w0; by destruct (stop_request t0)).
    destruct (running w0); [|intros [= <- <-]; lia].
    destruct (turn port t0 w0) as [[[]|e|] w1] eqn:Hturn;
      apply turn_polls in Hturn.
    + intros [= <- <-]. lia.
    + intros H. apply IH in H. lia.
    + intros [= <- <-]. lia.
    + intros [= <- <-]. lia.
Qed.

(** The loop fails to come back only when one of its turns does. *)
Lemma main_loop_diverge port pre t rest w w' :
  stop_request t = true ->
  main_loop port (pre ++ t :: rest) w = (Diverge, w') ->
  exists t1 w1 w2, t1 ∈ pre /\ turn port t1 w1 = (Diverge, w2).
Proof.
  intros Ht. revert w. induction pre as [|t0 pre IH]; intros w.
  - simpl app. by rewrite main_loop_stop.
  - rewrite <- app_comm_cons, main_loop_cons. simpl.
    set (w0 := if stop_request t0 then _ else _).
    destruct (running w0); [|done].
    destruct (turn port t0 w0) as [[[]|e|] w1] eqn:Hturn; try done.
    + intros H. destruct (IH _ H) as (t1 & w2 & w3 & Hin & Hd).
      exists t1, w2, w3. split; [by constructor|done].
    + intros _. exists t0, w0, w1. split; [by constructor|done].
Qed.

Lemma startup_returns w w' : startup w <> (Diverge, w').
Proof.
  unfold startup, bind, new_socket, sock_bind, sock_setblocking, sel_register,
    print.
  repeat case_match; simplify_eq; done.
Qed.

Lemma polls_startup : preserves same_polls startup.
Proof.
  unfold startup.
  repeat (apply preserves_bind; [exact same_polls_trans|auto with frame|intros ?]).
  auto with frame.
Qed.

Lemma selecting_set_running b :
  preserves still_selecting (fun w => (Ok tt, set_running b w)).
Proof. intros w r w' [= <- <-]. unfold still_selecting. simpl. auto. Qed.

Lemma selecting_dispatch port key : preserves still_selecting (dispatch port key).
Proof.
  apply preserves_dispatch;
    first [exact still_selecting_refl | exact still_selecting_trans
          | auto with frame].
Qed.

Lemma selecting_turn port t : preserves still_selecting (turn port t).
Proof.
  unfold turn. apply preserves_try_except; [exact still_selecting_trans| |].
  - apply preserves_bind; [exact still_selecting_trans|auto with frame|].
    intros events.
    apply preserves_bind; [exact still_selecting_trans| |intros _; auto with frame].
    apply preserves_for_each;
      [exact still_selecting_refl|exact still_selecting_trans|].
    apply selecting_dispatch.
  - intros e hm.
    destruct (is_KeyboardInterrupt e); [|destruct (is_Exception e); [|done]];
      intros [= <-];
      repeat (apply preserves_bind; [exact still_selecting_trans| |intros ?]);
      auto using selecting_set_running with frame.
Qed.

Lemma selecting_main_loop port ticks :
  preserves still_selecting (main_loop port ticks).
Proof.
  induction ticks as [|t ticks IH]; intros w r w'.
  - simpl. destruct (running w); intros [= <- <-]; apply still_selecting_refl.
  - rewrite main_loop_cons. simpl.
    set (w0 := if stop_request t then _ else _).
    assert (still_selecting w w0) as H0.
    { unfold w0, still_selecting. destruct (stop_request t); simpl; auto. }
    destruct (running w0); [|by intros [= <- <-]].
    destruct (turn port t w0) as [[[]|e|] w1] eqn:Hturn;
      apply selecting_turn in Hturn;
      pose proof (still_selecting_trans _ _ _ H0 Hturn) as H1.
    + by intros [= <- <-].
    + intros H. apply IH in H. by eapply still_selecting_trans.
    + by intros [= <- <-].
    + by intros [= <- <-].
Qed.

Lemma selecting_serve port ticks : preserves still_selecting (serve port ticks).
Proof.
  unfold serve. apply preserves_try_except; [exact still_selecting_trans| |].
  - apply preserves_bind; [exact still_selecting_trans| |intros _; apply selecting_main_loop].
    unfold startup.
    repeat (apply preserves_bind;
            [exact still_selecting_trans|auto with frame|intros ?]).
    auto with frame.
  - intros e hm. apply preserves_except_Exception. auto with frame.
Qed.

Lemma serve_cut port pre t rest w :
  stop_request t = true ->
  serve port (pre ++ t :: rest) w = serve port (pre ++ [t]) w.
Proof.
  intros Ht. unfold serve, try_except, bind.
  destruct (startup w) as [[[]|e|] w0]; [|done|done].
  by rewrite main_loop_cut.
Qed.

Lemma serve_polls port pre t rest w r w' :
  stop_request t = true ->
  serve port (pre ++ t :: rest) w = (r, w') ->
  polls w' <= polls w + length pre.
Proof.
  intros Ht. unfold serve, try_except, bind.
  destruct (startup w) as [[[]|e|] w0] eqn:Hs;
    pose proof (polls_startup _ _ _ Hs) as Hp; unfold same_polls in Hp.
  - destruct (main_loop _ _ _) as [[[]|e|] w1] eqn:Hloop;
      apply main_loop_polls in Hloop; try done.
    + intros [= <- <-]. lia.
    + unfold except_Exception, print. destruct (is_Exception e);
        intros [= <- <-]; simpl; lia.
    + intros [= <- <-]. lia.
  - unfold except_Exception, print. destruct (is_Exception e);
      intros [= <- <-]; simpl; lia.
  - intros [= <- <-]. lia.
Qed.

Lemma serve_diverge port pre t rest w w' :
  stop_request t = true ->
  serve port (pre ++ t :: rest) w = (Diverge, w') ->
  exists t1 w1 w2, t1 ∈ pre /\ turn port t1 w1 = (Diverge, w2).
Proof.
  intros Ht. unfold serve, try_except, bind.
  destruct (startup w) as [[[]|e|] w0] eqn:Hs.
  - destruct (main_loop _ _ _) as [[[]|e|] w1] eqn:Hloop; try done.
    + unfold except_Exception, print. by destruct (is_Exception e).
    + intros _. by eapply main_loop_diverge.
  - unfold except_Exception, print. by destruct (is_Exception e).
  - by apply startup_returns in Hs.
Qed.

(** Closing what is registered. *)
Lemma close_quietly_ok key w :
  exists w', close_quietly key w = (Ok tt, w') /\
    is_open key.1 w' = false /\ sel w' = sel w /\ polls w' = polls w /\
    forall s, is_open s w = false -> is_open s w' = false.
Proof.
  unfold close_quietly, try_except, sock_close.
  destruct (socks w !! key.1) as [sk|] eqn:Hs; simpl.
  - eexists. split; [done|]. rewrite is_open_insert.
    destruct (decide (key.1 = key.1)); [|done]. split_and!; try done.
    intros s'. rewrite is_open_insert. by destruct (decide (key.1 = s')).
  - exists w. split_and!; try done. unfold is_open. by rewrite Hs.
Qed.

Lemma close_all_ok (l : list (fd * key_data)) w :
  exists w', for_each l close_quietly w = (Ok tt, w') /\
    sel w' = sel w /\ polls w' = polls w /\
    (forall s, is_open s w = false -> is_open s w' = false) /\
    forall key, key ∈ l -> is_open key.1 w' = false.
Proof.
  revert w. induction l as [|key l IH]; intros w; simpl.
  - exists w. split_and!; try done. intros key Hin. by inversion Hin.
  - unfold bind.
    destruct (close_quietly_ok key w) as (w1 & -> & Hk & Hsel & Hpolls & Hkeep).
    destruct (IH w1) as (w' & -> & Hsel' & Hpolls' & Hkeep' & Hall).
    exists w'. split_and!; [done|congruence|congruence|auto|].
    intros key' Hin. inversion Hin; subst; auto.
Qed.

Lemma cleanup_ok w m :
  sel w = Selecting m ->
  exists w', cleanup w = (Ok tt, w') /\ sel w' = SelectorClosed /\
    polls w' = polls w /\
    forall s, registered s w = true -> is_open s w' = false.
Proof.
  intros Hsel. unfold cleanup, registered, bind. rewrite Hsel.
  destruct (close_all_ok (map_to_list m) w) as (w1 & -> & _ & Hpolls & _ & Hall).
  eexists. split; [done|]. split_and!; [done|done|].
  intros s Hs. apply bool_decide_eq_true in Hs as [d Hd].
  apply (Hall (s, d)). by apply elem_of_map_to_list.
Qed.



(** ** The examples of the specification *)

(** C7.  With target port 7245 the request with [Host: [fe80::1]:7245] is
    rewritten to the one with [Host: 127.0.0.1:7245], and these are the
    bytes the upstream socket is sent when the client handler reads it. *)
Theorem rewrite_host_request_example :
  rewrite_host 7245 req_bracketed = req_loopback /\
  let w := w_pair [Recv req_bracketed] [] [] [Sent 4096] in
  sent_on 2 (read_from_client 7245 1 2 w).2 = req_loopback.
Proof. split; vm_compute; reflexivity. Qed.

(** C10.  The match does not end at a digit boundary: with target port 7245
    the buffer [[::1]:72450], which names port 72450, is rewritten to
    [127.0.0.1:72450].  In general a bracketed address followed by a colon
    and the digits of the target port is rewritten whatever bytes follow. *)
Theorem port_match_not_anchored :
  (let data := btext "[::1]:72450" in
   search (ip6 7245) (decode data) = Some (0, 10) /\
   rewrite_host 7245 data = btext "127.0.0.1:72450") /\
  forall port addr tail,
    "]"%byte ∉ addr ->
    let data := "["%byte :: addr ++ "]"%byte :: ":"%byte ::
                encode (format_int port) ++ tail in
    rewrite_host port data <> data.
Proof.
  split; [split; vm_compute; reflexivity|].
  intros port addr tail Hno data.
  assert (pattern_at port data [] addr tail) as Hpat by done.
  apply pattern_at_match in Hpat as [n Hn].
  change (drop (length []) (decode data)) with (decode data) in Hn.
  apply search_head in Hn as Hs.
  rewrite (rewrite_host_unfold _ _ _ _ Hs). by rewrite take_0.
Qed.

(** * Further properties *)

(** ** What [search] finds *)

(** X1.  The span [search] returns is an occurrence of the pattern, a bracketed
    address without a closing bracket inside followed by a colon and the
    port, and no occurrence starts further left. *)
Theorem search_finds_leftmost_pattern port data start stop :
  search (ip6 port) (decode data) = Some (start, stop) ->
  start <= stop <= length data /\
  (exists addr, pattern_at port data (take start data) addr (drop stop data)) /\
  forall pre addr suf, pattern_at port data pre addr suf -> start <= length pre.
Proof.
  intros H.
  pose proof (search_Some_bounds _ _ _ _ H) as (Hab & Hb & _ & Hm & Hleft).
  unfold decode in Hb. rewrite length_fmap in Hb. split; [lia|]. split.
  - apply matches_ip6 in Hm as (addr & Hw & Hno).
    exists (encode addr). split.
    + rewrite <- (encode_decode data) at 1.
      rewrite (slice_split (decode data) start stop Hab), Hw.
      rewrite encode_app, encode_take_decode, encode_app, encode_drop_decode.
      change (encode ("["%char :: addr ++ "]"%char :: ":"%char :: format_int port))
        with ("["%byte :: encode (addr ++ "]"%char :: ":"%char :: format_int port)).
      rewrite encode_app.
      change (encode ("]"%char :: ":"%char :: format_int port))
        with ("]"%byte :: ":"%byte :: encode (format_int port)).
      simpl. by rewrite <- !app_assoc.
    + intros Hin. apply Hno. apply decode_bracket_free in Hin.
      by rewrite decode_encode in Hin.
  - intros pre addr suf Hpat. apply pattern_at_match in Hpat as [n Hn].
    destruct (decide (start <= length pre)) as [|Hlt]; [done|].
    rewrite Hleft in Hn by lia. done.
Qed.

Lemma search_finds_leftmost_pattern_witness :
  let data := btext "x[a][b]:80 [c]:80" in
  search (ip6 80) (decode data) = Some (4, 10) /\
  exists addr, pattern_at 80 data (btext "x[a]") addr (btext " [c]:80").
Proof.
  intros data.
  assert (search (ip6 80) (decode data) = Some (4, 10)) as H
    by (vm_compute; reflexivity).
  split; [exact H|].
  destruct (search_finds_leftmost_pattern 80 data 4 10 H) as (_ & Hpat & _).
  exact Hpat.
Defined.

(** ** Back-pressure *)

(** X2.  Back-pressure loses nothing.  On an open socket that answers every
    [send] with a [BlockingIOError] or by taking at least one byte, and has
    room for the whole buffer in the end, [safe_send] returns after the
    socket has taken the buffer, whole and in order, however often it had to
    wait, and prints no error. *)
Theorem safe_send_delivers_all conn msg w :
  0 < length msg ->
  is_open conn w = true ->
  patient (outbox_of conn w) ->
  length msg <= total_room (outbox_of conn w) ->
  exists w', safe_send conn msg w = (Ok tt, w') /\
    sent_on conn w' = sent_on conn w ++ msg /\
    log w' = log w ++ [Sending (length msg)].
Proof.
  intros Hlen Hopen Hp Hroom.
  destruct msg as [|b msg]; [simpl in Hlen; lia|].
  unfold safe_send, bind, print, try_except.
  set (m := b :: msg) in *. set (w0 := set_log _ w).
  destruct (send_loop_all conn m _ Hp (send_fuel conn w0) 0 w0)
    as (w' & -> & Hlog & Hwire); try done.
  { rewrite send_fuel_outbox by done.
    change (outbox_of conn w0) with (outbox_of conn w). lia. }
  exists w'. rewrite drop_0 in Hwire. by split_and!.
Qed.

Lemma safe_send_delivers_all_witness :
  let w := w_pair [] [] []
             [SendRaise BlockingIOError; Sent 2; SendRaise BlockingIOError; Sent 100] in
  let msg := btext "hello" in
  0 < length msg /\ is_open 2 w = true /\ patient (outbox_of 2 w) /\
  length msg <= total_room (outbox_of 2 w) /\
  exists w', safe_send 2 msg w = (Ok tt, w') /\
    sent_on 2 w' = sent_on 2 w ++ msg /\ log w' = log w ++ [Sending (length msg)].
Proof.
  intros w msg.
  assert (0 < length msg) as H1 by (vm_compute; lia).
  assert (is_open 2 w = true) as H2 by (vm_compute; reflexivity).
  assert (patient (outbox_of 2 w)) as H3.
  { vm_compute. repeat constructor. }
  assert (length msg <= total_room (outbox_of 2 w)) as H4 by (vm_compute; lia).
  split_and!; [exact H1|exact H2|exact H3|exact H4|].
  exact (safe_send_delivers_all 2 msg w H1 H2 H3 H4).
Defined.

(** X3.  The first error ends the loop.  When the socket, after patient answers
    with room for fewer bytes than the buffer has, answers a [send] by
    taking 0 bytes or by an [Exception] other than [BlockingIOError], then
    [safe_send] has sent exactly the bytes there was room for, makes no
    further call of [send], prints the error and returns. *)
Theorem safe_send_stops_at_first_error conn msg w o a rest e :
  is_open conn w = true ->
  outbox_of conn w = o ++ a :: rest ->
  patient o ->
  total_room o < length msg ->
  fatal a = Some e ->
  is_Exception e = true ->
  exists w', safe_send conn msg w = (Ok tt, w') /\
    sent_on conn w' = sent_on conn w ++ take (total_room o) msg /\
    outbox_of conn w' = rest /\
    log w' = log w ++ [Sending (length msg); ErrorInSafeSend e].
Proof. apply safe_send_first_error. Qed.

Lemma safe_send_stops_at_first_error_witness :
  let w := w_pair [] [] []
             [Sent 2; SendRaise BlockingIOError; Sent 0; Sent 100] in
  let msg := btext "hello" in
  exists w', safe_send 2 msg w = (Ok tt, w') /\
    sent_on 2 w' = btext "he" /\ outbox_of 2 w' = [Sent 100] /\
    log w' = [Sending 5; ErrorInSafeSend RuntimeError].
Proof.
  intros w msg.
  assert (patient [Sent 2; SendRaise BlockingIOError]) as Hp
    by (repeat constructor).
  assert (total_room [Sent 2; SendRaise BlockingIOError] < length msg) as Hroom
    by (vm_compute; lia).
  exact (safe_send_stops_at_first_error 2 msg w
           [Sent 2; SendRaise BlockingIOError] (Sent 0) [Sent 100] RuntimeError
           eq_refl eq_refl Hp Hroom eq_refl eq_refl).
Defined.

(** ** The relay handlers: end of stream, lost connections, stale events *)

Lemma wire_close s : preserves same_wire (sock_close s).
Proof.
  prim_cases; intros c; try done; unfold sent_on; simpl;
    rewrite lookup_insert;
    match goal with
    | |- context [decide (?a = ?b)] =>
        destruct (decide (a = b)) as [<-|]; simpl; [|done]
    end;
    match goal with
    | H : socks _ !! _ = Some _ |- _ => by rewrite H
    end.
Qed.

Lemma wire_unregister s : preserves same_wire (sel_unregister s).
Proof. prim_cases; by intros c. Qed.

Lemma same_wire_refl w : same_wire w w.
Proof. done. Qed.
Lemma same_wire_trans w1 w2 w3 :
  same_wire w1 w2 -> same_wire w2 w3 -> same_wire w1 w3.
Proof. intros H1 H2 s. by rewrite H2, H1. Qed.

Lemma wire_close_connection client server :
  preserves same_wire (close_connection client server).
Proof.
  apply preserves_close_connection;
    [exact same_wire_refl|exact same_wire_trans|exact wire_close
    |exact wire_unregister].
Qed.

(** X4.  End of stream.  When the read of a relay handler finds the peer has
    closed (an empty read), the handler prints that the connection was
    closed and tears the pair down: both sockets unregistered and closed.
    Nothing is sent on any socket. *)
Theorem relay_end_of_stream port h client server w w1 :
  sock_recv (source h client server) 4096 w = (Ok [], w1) ->
  exists w', relay_handler port h client server w = (Ok tt, w') /\
    torn_down client server w' /\
    log w' = log w ++ [connection_closed h] /\
    forall s, sent_on s w' = sent_on s w.
Proof.
  intros Hrecv.
  set (w2 := set_log (log w1 ++ [connection_closed h]) w1).
  destruct (close_connection_ok client server w2) as (w' & Hclose & Htorn & Hlog).
  exists w'. split_and!; [|done| |].
  - destruct h; simpl in *; unfold read_from_client, read_from_server;
      unfold try_except, bind at 1; rewrite Hrecv; unfold bind, print;
      fold w2; by rewrite Hclose.
  - rewrite Hlog. simpl. by rewrite (log_recv _ _ _ _ _ Hrecv).
  - intros s. rewrite (wire_close_connection _ _ _ _ _ Hclose s).
    apply (wire_recv _ _ _ _ _ Hrecv s).
Qed.

Lemma relay_end_of_stream_witness :
  let w := w_pair [Recv []] [] [] [Sent 10] in
  exists w', relay_handler 7245 from_client 1 2 w = (Ok tt, w') /\
    torn_down 1 2 w' /\ log w' = [ClientClosed] /\
    forall s, sent_on s w' = sent_on s w.
Proof.
  intros w.
  assert (sock_recv 1 4096 w = (Ok [], (sock_recv 1 4096 w).2)) as Hrecv
    by (vm_compute; reflexivity).
  exact (relay_end_of_stream 7245 from_client 1 2 w _ Hrecv).
Defined.

(** X5.  Lost connection.  When the read of a relay handler raises
    [ConnectionResetError] or [ConnectionAbortedError], the handler prints
    that the connection was lost and tears the pair down. *)
Theorem relay_connection_lost port h client server w e w1 :
  sock_recv (source h client server) 4096 w = (Raise e, w1) ->
  is_reset_or_abort e = true ->
  exists w', relay_handler port h client server w = (Ok tt, w') /\
    torn_down client server w' /\
    log w' = log w ++ [connection_lost h] /\
    forall s, sent_on s w' = sent_on s w.
Proof.
  intros Hrecv Hreset.
  assert (is_Exception e = true) as He by (by destruct e).
  rewrite (relay_handler_read_error _ _ _ _ _ _ _ Hrecv He), Hreset.
  unfold bind, print.
  set (w2 := set_log (log w1 ++ [connection_lost h]) w1).
  destruct (close_connection_ok client server w2) as (w' & Hclose & Htorn & Hlog).
  rewrite Hclose. exists w'. split_and!; [done|done| |].
  - rewrite Hlog. simpl. by rewrite (log_recv _ _ _ _ _ Hrecv).
  - intros s. rewrite (wire_close_connection _ _ _ _ _ Hclose s).
    apply (wire_recv _ _ _ _ _ Hrecv s).
Qed.

Lemma relay_connection_lost_witness :
  let w := w_pair [] [] [RecvRaise ConnectionResetError] [] in
  exists w', relay_handler 7245 from_server 1 2 w = (Ok tt, w') /\
    torn_down 1 2 w' /\ log w' = [ServerLost] /\
    forall s, sent_on s w' = sent_on s w.
Proof.
  intros w.
  assert (sock_recv 2 4096 w =
          (Raise ConnectionResetError, (sock_recv 2 4096 w).2)) as Hrecv
    by (vm_compute; reflexivity).
  exact (relay_connection_lost 7245 from_server 1 2 w _ _ Hrecv eq_refl).
Defined.

Lemma sock_recv_not_open s n w :
  is_open s w = false -> sock_recv s n w = (Raise OSError, w).
Proof.
  unfold is_open, sock_recv. destruct (socks w !! s) as [sk|]; [|done].
  by destruct (closed sk).
Qed.

(** X6.  A stale event does no harm.  When a relay handler is called for a pair
    that is already torn down (as happens when both sockets of a pair were
    reported ready and the first handler closed the pair), it prints the
    error of the read and changes nothing else. *)
Theorem relay_on_torn_down_pair port h client server w :
  torn_down client server w ->
  relay_handler port h client server w =
  (Ok tt, set_log (log w ++ [error_reading h OSError]) w).
Proof.
  intros Htorn.
  assert (is_open (source h client server) w = false) as Hsrc
    by (destruct Htorn as (_ & _ & ? & ?); by destruct h).
  rewrite (relay_handler_read_error port h client server w OSError w
             (sock_recv_not_open _ _ _ Hsrc) eq_refl).
  simpl. unfold bind, print. by rewrite close_connection_again.
Qed.

Lemma relay_on_torn_down_pair_witness :
  let w := (close_connection 1 2 (w_pair [] [] [] [])).2 in
  torn_down 1 2 w /\
  relay_handler 7245 from_server 1 2 w =
  (Ok tt, set_log (log w ++ [ErrorReadingServer OSError]) w).
Proof.
  intros w.
  assert (torn_down 1 2 w) as Htorn by (repeat split; vm_compute; reflexivity).
  split; [exact Htorn|].
  exact (relay_on_torn_down_pair 7245 from_server 1 2 w Htorn).
Defined.

(** ** Exceptions stay inside the handlers *)

(** An exception that leaves a [try] whose [except] clauses do not raise
    was caught by none of them. *)
Lemma try_except_uncaught {A} (body : M A) (h : exn -> option (M A)) w e w' :
  (forall e0 hm w0 e1 w1, h e0 = Some hm -> hm w0 <> (Raise e1, w1)) ->
  try_except body h w = (Raise e, w') ->
  h e = None.
Proof.
  intros Hh. unfold try_except.
  destruct (body w) as [[a|e0|] w0]; try done.
  destruct (h e0) as [hm|] eqn:He0.
  - intros Hrun. exfalso. by eapply Hh.
  - by intros [= <- <-].
Qed.

Lemma print_then_close_returns ev client server w e w' :
  (print ev;; close_connection client server) w <> (Raise e, w').
Proof.
  unfold bind, print.
  destruct (close_connection_ok client server (set_log (log w ++ [ev]) w))
    as (w1 & -> & _). done.
Qed.

(** X7.  No [Exception] leaves a handler of the loop: whatever the state and the
    registration, the acceptor and the two relay handlers catch every
    [Exception] themselves; only an exception that is not an [Exception] can
    reach the loop. *)
Theorem handlers_contain_exceptions port key w e w' :
  dispatch port key w = (Raise e, w') -> is_Exception e = false.
Proof.
  destruct key as [x [|h client server]]; unfold dispatch; simpl.
  - unfold accept_connection. intros H. apply call_raise in H.
    unfold accepting in H. apply try_except_uncaught in H.
    + unfold except_Exception in H. by destruct (is_Exception e).
    + intros e0 hm w0 e1 w1. unfold except_Exception.
      destruct (is_Exception e0); [|done]. by intros [= <-].
  - destruct h; simpl; unfold read_from_client, read_from_server; intros H;
      apply try_except_uncaught in H.
    1,3: destruct (is_reset_or_abort e); [done|]; by destruct (is_Exception e).
    all: intros e0 hm w0 e1 w1;
      destruct (is_reset_or_abort e0); [|destruct (is_Exception e0); [|done]];
      intros [= <-]; apply print_then_close_returns.
Qed.

Lemma handlers_contain_exceptions_witness :
  let w := w_pair [RecvRaise KeyboardInterrupt] [] [] [] in
  dispatch 7245 (1, Tuple from_client 1 2) w =
    (Raise KeyboardInterrupt, (dispatch 7245 (1, Tuple from_client 1 2) w).2) /\
  is_Exception KeyboardInterrupt = false.
Proof.
  intros w.
  assert (dispatch 7245 (1, Tuple from_client 1 2) w =
          (Raise KeyboardInterrupt, (dispatch 7245 (1, Tuple from_client 1 2) w).2))
    as H by (vm_compute; reflexivity).
  split; [exact H|].
  exact (handlers_contain_exceptions 7245 _ w _ _ H).
Defined.

(** ** The acceptor, when all goes well *)

(** X8.  A successful accept registers the pair, and nothing else.  With a
    connection waiting at an open listener, an upstream that answers, and
    two fresh descriptors, the acceptor returns with the accepted socket
    registered for [read_from_client] and the upstream socket for
    [read_from_server], both registrations carrying the same pair, both
    sockets open and non-blocking; every other registration is as it was. *)
Theorem accepted_pair_is_registered port listener w m i o rest i' o' rest' :
  is_open listener w = true ->
  pending w = NewConn i o :: rest ->
  upstream w = NewConn i' o' :: rest' ->
  sel w = Selecting m ->
  m !! next_fd w = None ->
  m !! S (next_fd w) = None ->
  let client := next_fd w in
  let server := S (next_fd w) in
  exists w', accept_connection port listener w = (Ok tt, w') /\
    sel w' = Selecting (<[server := Tuple from_server client server]>
                          (<[client := Tuple from_client client server]> m)) /\
    socks w' !! client = Some (Sock false false i o []) /\
    socks w' !! server = Some (Sock false false i' o' []) /\
    pending w' = rest /\ upstream w' = rest' /\
    log w' = log w ++ [NewConnection client].
Proof.
  intros Hopen Hpend Hup Hsel Hc Hs client server.
  unfold accept_connection. rewrite call_unfold.
  unfold accepting, try_except, bind.
  rewrite (sock_accept_new _ _ _ _ _ Hopen Hpend). fold client.
  unfold print.
  set (w1 := set_log _ _).
  rewrite (sock_setblocking_new client false w1 (Sock false true i o []))
    by (done || apply lookup_insert_eq).
  set (w2 := set_socks _ w1).
  rewrite (create_connection_new port w2 i' o' rest' Hup).
  change (next_fd w2) with server.
  set (w3 := set_next_fd _ _).
  rewrite (sock_setblocking_new server false w3 (Sock false true i' o' []))
    by (done || apply lookup_insert_eq).
  set (w4 := set_socks _ w3).
  assert (socks w4 !! client = Some (Sock false false i o [])) as Hclient.
  { unfold w4, w3, w2. simpl.
    rewrite lookup_insert_ne by (unfold client, server; lia).
    rewrite lookup_insert_ne by (unfold client, server; lia).
    by rewrite lookup_insert_eq. }
  assert (socks w4 !! server = Some (Sock false false i' o' [])) as Hserver
    by apply lookup_insert_eq.
  rewrite (sel_register_new client _ w4 m Hsel);
    [|by rewrite (is_open_lookup _ _ _ Hclient)|done].
  set (w5 := set_sel _ w4).
  rewrite (sel_register_new server _ w5 _ eq_refl);
    [|unfold is_open; change (socks w5) with (socks w4); by rewrite Hserver
     |by rewrite lookup_insert_ne by (unfold client, server; lia)].
  set (w6 := set_sel _ w5). cbv beta iota.
  rewrite (release_held client w6).
  { eexists. split; [done|]. by split_and!. }
  intros y Hy. change (next_fd w6) with (S server) in Hy.
  assert (y = client \/ y = server) as [-> | ->] by (unfold server in *; lia).
  - apply (referenced_registered client w6 _ (Tuple from_client client server) eq_refl).
    rewrite lookup_insert_ne by (unfold client, server; lia).
    apply lookup_insert_eq.
  - apply (referenced_registered server w6 _ (Tuple from_server client server) eq_refl).
    apply lookup_insert_eq.
Qed.

Lemma accepted_pair_is_registered_witness :
  let w := w_listening [NewConn [Recv (btext "hi")] [Sent 9]] [NewConn [] [Sent 5]] in
  exists w', accept_connection 7245 0 w = (Ok tt, w') /\
    sel w' = Selecting (<[2 := Tuple from_server 1 2]>
                          (<[1 := Tuple from_client 1 2]> (<[0 := Callback]> ∅))) /\
    socks w' !! 1 = Some (Sock false false [Recv (btext "hi")] [Sent 9] []) /\
    socks w' !! 2 = Some (Sock false false [] [Sent 5] []) /\
    pending w' = [] /\ upstream w' = [] /\
    log w' = log w ++ [NewConnection 1].
Proof.
  intros w.
  exact (accepted_pair_is_registered 7245 0 w (<[0 := Callback]> ∅)
           [Recv (btext "hi")] [Sent 9] [] [] [Sent 5] []
           eq_refl eq_refl eq_refl eq_refl eq_refl eq_refl).
Defined.

(** ** The loop and [run]: how they end *)

(** X9.  However [run] ends, it ends clean.  When [run] comes back, by
    returning or by an exception, the selector is closed, and what it
    raises, if anything, is not an [Exception]: no [Exception] from the
    start-up, from [select] or from a handler leaves [run].  When [run]
    returns, every socket created during the run is closed: the registered
    ones by the [finally] clause, the others by a teardown or with their
    last reference. *)
Theorem run_ends_clean port ticks w r w' :
  run port ticks w = (r, w') ->
  r <> Diverge ->
  sel w' = SelectorClosed /\
  (forall e, r = Raise e -> is_Exception e = false) /\
  (r = Ok tt -> forall x, next_fd w <= x < next_fd w' -> is_open x w' = false).
Proof.
  unfold run. rewrite call_unfold. unfold bind, new_selector, try_finally.
  set (w0 := set_sel (Selecting ∅) w).
  destruct (serve port ticks w0) as [r1 w1] eqn:Hserve.
  destruct (selecting_serve _ _ _ _ _ Hserve) as [m Hsel]; [by eexists|].
  destruct (cleanup_ok _ _ Hsel) as (w2 & Hclean & Hclosed & _ & Hall).
  destruct (release_fields (next_fd w) w2) as (Hsel3 & _ & _ & Hn3 & _).
  destruct r1 as [[]|e|]; [| |by intros [= <- <-]]; rewrite Hclean;
    intros [= <- <-] _.
  - split; [congruence|]. split; [done|]. intros _ x Hx.
    rewrite Hn3 in Hx. rewrite release_open.
    destruct (decide _); [|lia].
    unfold referenced. rewrite Hclosed. apply andb_false_r.
  - split; [done|]. split; [|done]. intros e0 [= <-].
    unfold serve in Hserve. apply try_except_uncaught in Hserve.
    + unfold except_Exception in Hserve. by destruct (is_Exception e).
    + intros e0 hm w3 e1 w4. unfold except_Exception.
      destruct (is_Exception e0); [|done]. by intros [= <-].
Qed.

Lemma run_ends_clean_witness :
  let ticks := [Tick false (Ready [0]); Tick false (Ready [0]);
                Tick false (SelectRaise KeyboardInterrupt);
                Tick false (Ready [1])] in
  let w := w_init [NewConn [] []; NewConn [] []] [NewConn [] []] in
  let w' := (run 7245 ticks w).2 in
  run 7245 ticks w = (Ok tt, w') /\
  sel w' = SelectorClosed /\ next_fd w' = 4 /\
  is_open 0 w' = false /\ is_open 1 w' = false /\ is_open 2 w' = false /\
  is_open 3 w' = false.
Proof.
  intros ticks w w'.
  assert (run 7245 ticks w = (Ok tt, w')) as Hrun by (vm_compute; reflexivity).
  assert (next_fd w' = 4) as Hn by (vm_compute; reflexivity).
  destruct (run_ends_clean 7245 ticks w (Ok tt) w' Hrun) as (Hsel & _ & Hall);
    [done|].
  split; [exact Hrun|]. split; [exact Hsel|]. split; [exact Hn|].
  split_and!; apply (Hall eq_refl); rewrite Hn; vm_compute; lia.
Defined.

(** X10.  A start-up that fails.  When [bind] raises an [Exception], [run]
    prints it and returns without a single call of [select], whatever the
    environment would have offered; the selector is closed and holds no
    registration.  The listening socket, which was created before [bind],
    is closed when [run] has returned. *)
Theorem failed_startup port ticks w e :
  bind_error w = Some e ->
  is_Exception e = true ->
  exists w', run port ticks w = (Ok tt, w') /\
    log w' = log w ++ [ErrorStarting e] /\
    polls w' = polls w /\
    sel w' = SelectorClosed /\
    closed_in (next_fd w) w'.
Proof.
  intros Hbind He. unfold run. rewrite call_unfold.
  unfold bind, new_selector, try_finally, serve, try_except, bind.
  unfold startup, bind, new_socket, sock_bind. simpl. rewrite Hbind.
  unfold except_Exception. rewrite He. unfold print, cleanup. simpl.
  rewrite map_to_list_empty. simpl. unfold bind, ret. simpl.
  set (w3 := set_sel SelectorClosed _).
  destruct (release_spec (next_fd w) w3) as (ss & -> & Hss).
  eexists. split; [done|]. simpl. split_and!; try done.
  unfold closed_in. simpl. rewrite Hss. simpl.
  destruct (decide _); [|lia]. rewrite lookup_insert_eq. simpl. eauto.
Qed.

Lemma failed_startup_witness :
  let w := World ∅ 0 NoSelector true [NewConn [] []] [] (Some OSError) 0 [] in
  exists w', run 7245 [Tick false (Ready [0])] w = (Ok tt, w') /\
    log w' = log w ++ [ErrorStarting OSError] /\
    polls w' = polls w /\ sel w' = SelectorClosed /\
    closed_in (next_fd w) w'.
Proof.
  intros w.
  exact (failed_startup 7245 [Tick false (Ready [0])] w OSError eq_refl eq_refl).
Defined.

(** X11.  When [select] fails.  In a turn that starts with the flag set and the
    selector in use: if [select] raises an [Exception], the loop prints it
    and goes on with the next turn; if it raises [KeyboardInterrupt], the
    loop prints that it is shutting down, clears the flag and ends at once,
    whatever turns would have followed. *)
Theorem select_failures port t rest w m e :
  running w = true ->
  stop_request t = false ->
  sel w = Selecting m ->
  answer t = SelectRaise e ->
  let w1 := set_polls (S (polls w)) w in
  (is_Exception e = true ->
   main_loop port (t :: rest) w =
   main_loop port rest (set_log (log w ++ [ErrorInSelectLoop e]) w1)) /\
  (e = KeyboardInterrupt ->
   main_loop port (t :: rest) w =
   (Ok tt, set_running false (set_log (log w ++ [ShuttingDown]) w1))).
Proof.
  intros Hrun Hstop Hsel Hans w1.
  rewrite main_loop_cons, Hstop. simpl. rewrite Hrun.
  unfold turn, try_except.
  assert ((events <- sel_select (answer t);;
           for_each events (dispatch port);; ret false) w = (Raise e, w1))
    as -> by (unfold bind, sel_select; by rewrite Hsel, Hans).
  split.
  - intros He. assert (is_KeyboardInterrupt e = false) as -> by (by destruct e).
    by rewrite He.
  - by intros ->.
Qed.

Lemma select_failures_witness :
  let w := w_listening [] [] in
  let t := Tick false (SelectRaise OSError) in
  let w1 := set_polls (S (polls w)) w in
  main_loop 7245 [t; Tick true (Ready [])] w =
  (Ok tt, set_running false (set_log (log w ++ [ErrorInSelectLoop OSError]) w1)).
Proof.
  intros w t w1.
  destruct (select_failures 7245 t [Tick true (Ready [])] w
              (<[0 := Callback]> ∅) OSError eq_refl eq_refl eq_refl eq_refl)
    as [Hexc _].
  rewrite (Hexc eq_refl). vm_compute. reflexivity.
Defined.

(** ** The pairs of the selector are kept *)

Lemma grows_refl w : grows w w.
Proof. intros H. by split_and!. Qed.

Lemma grows_trans w1 w2 w3 : grows w1 w2 -> grows w2 w3 -> grows w1 w3.
Proof.
  intros H12 H23 H1. destruct (H12 H1) as (H2 & Hn2 & He2 & Hc2).
  destruct (H23 H2) as (H3 & Hn3 & He3 & Hc3).
  split_and!; [done|lia|auto|auto].
Qed.

(** Writing a socket that exists, without opening a closed one. *)
Lemma grows_update s sk sk' (w : world) :
  socks w !! s = Some sk ->
  (closed sk = true -> closed sk' = true) ->
  grows w (set_socks <[s := sk']> w).
Proof.
  intros Hs Hc Hwf. unfold wf_socks in *. split_and!.
  - intros x. simpl. rewrite lookup_insert. destruct (decide (s = x)) as [<-|].
    + intros _. apply Hwf. by rewrite Hs.
    + apply Hwf.
  - done.
  - intros x. simpl. rewrite lookup_insert. destruct (decide (s = x)); eauto.
  - intros x (sk0 & Hx & Hc0). unfold closed_in. simpl. rewrite lookup_insert.
    destruct (decide (s = x)) as [<-|]; [|eauto].
    exists sk'. split; [done|]. apply Hc. congruence.
Qed.

Lemma grows_new i o (w w0 : world) :
  socks w0 = socks w -> next_fd w0 = next_fd w ->
  grows w (set_next_fd (S (next_fd w0))
             (set_socks <[next_fd w0 := Sock false true i o []]> w0)).
Proof.
  intros Hs Hn Hwf. unfold wf_socks in *. rewrite Hn.
  split_and!; simpl; rewrite ?Hs.
  - intros x. rewrite lookup_insert. destruct (decide (next_fd w = x)) as [<-|].
    + lia.
    + intros Hx. apply Hwf in Hx. lia.
  - lia.
  - intros x Hx. rewrite lookup_insert. destruct (decide (next_fd w = x)); eauto.
  - intros x (sk0 & Hx & Hc0). unfold closed_in. simpl. rewrite Hs.
    rewrite lookup_insert.
    destruct (decide (next_fd w = x)) as [<-|]; [|eauto].
    assert (next_fd w < next_fd w); [|lia]. apply Hwf. by rewrite Hx.
Qed.

Lemma grows_same (w w' : world) :
  socks w' = socks w -> next_fd w' = next_fd w -> grows w w'.
Proof.
  intros Hs Hn Hwf. unfold wf_socks, closed_in. rewrite Hs, Hn.
  by split_and!.
Qed.

Lemma grows_print ev : preserves grows (print ev).
Proof. prim_cases. by apply grows_same. Qed.
Lemma grows_recv s n : preserves grows (sock_recv s n).
Proof.
  prim_cases; try apply grows_refl;
    (eapply grows_update; [done|]; simpl; congruence).
Qed.
Lemma grows_send s d : preserves grows (sock_send s d).
Proof.
  prim_cases; try apply grows_refl;
    (eapply grows_update; [done|]; simpl; congruence).
Qed.
Lemma grows_close s : preserves grows (sock_close s).
Proof.
  prim_cases; try apply grows_refl. by eapply grows_update.
Qed.
Lemma grows_setblocking s b : preserves grows (sock_setblocking s b).
Proof.
  prim_cases; try apply grows_refl.
  eapply grows_update; [done|]. simpl. congruence.
Qed.
Lemma grows_accept s : preserves grows (sock_accept s).
Proof.
  prim_cases; try apply grows_refl.
  - by apply (grows_new _ _ _ (set_pending _ _)).
  - by apply grows_same.
Qed.
Lemma grows_connect port : preserves grows (create_connection port).
Proof.
  prim_cases; try apply grows_refl.
  - by apply (grows_new _ _ _ (set_upstream _ _)).
  - by apply grows_same.
Qed.
Lemma grows_register s d : preserves grows (sel_register s d).
Proof. prim_cases; try apply grows_refl. by apply grows_same. Qed.
Lemma grows_unregister s : preserves grows (sel_unregister s).
Proof. prim_cases; try apply grows_refl. by apply grows_same. Qed.

Lemma grows_dispatch port key : preserves grows (dispatch port key).
Proof.
  apply preserves_dispatch;
    first [exact grows_refl | exact grows_trans | exact grows_print
          | exact grows_recv | exact grows_send | exact grows_close
          | exact grows_setblocking | exact grows_accept | exact grows_connect
          | exact grows_register | exact grows_unregister].
Qed.

Lemma tolerate_unregister_effect s w :
  exists w', tolerate (sel_unregister s) w = (Ok tt, w') /\
    socks w' = socks w /\
    forall x, key_of x w' = if decide (x = s) then None else key_of x w.
Proof.
  unfold tolerate, try_except, sel_unregister, key_of.
  destruct (sel w) as [|m|] eqn:Hsel; simpl.
  - exists w. rewrite Hsel. split_and!; try done. intros x. by destruct (decide _).
  - destruct (m !! s) as [d|] eqn:Hs.
    + eexists. split; [done|]. simpl. split; [done|]. intros x.
      rewrite lookup_delete. destruct (decide (s = x)), (decide (x = s)); done.
    + exists w. rewrite Hsel. split.
      { by destruct (is_open s w). }
      split; [done|]. intros x. destruct (decide (x = s)) as [->|]; done.
  - exists w. rewrite Hsel. split_and!; try done. intros x. by destruct (decide _).
Qed.

Lemma tolerate_close_effect s w :
  exists w', tolerate (sock_close s) w = (Ok tt, w') /\
    sel w' = sel w /\
    forall x, is_open x w' = if decide (x = s) then false else is_open x w.
Proof.
  unfold tolerate, try_except, sock_close.
  destruct (socks w !! s) as [sk|] eqn:Hs; simpl.
  - eexists. split; [done|]. split; [done|]. intros x.
    rewrite is_open_insert. destruct (decide (s = x)), (decide (x = s)); done.
  - exists w. split_and!; try done. intros x.
    destruct (decide (x = s)) as [->|]; [|done]. unfold is_open. by rewrite Hs.
Qed.

(** What teardown does to the registrations and to the sockets. *)
Lemma close_connection_effect client server w :
  exists w', close_connection client server w = (Ok tt, w') /\
    (forall x, key_of x w' =
               if decide (x = client \/ x = server) then None else key_of x w) /\
    (forall x, is_open x w' =
               if decide (x = client \/ x = server) then false else is_open x w).
Proof.
  unfold close_connection, bind.
  destruct (tolerate_unregister_effect client w) as (w1 & -> & Hs1 & Hk1).
  destruct (tolerate_unregister_effect server w1) as (w2 & -> & Hs2 & Hk2).
  destruct (tolerate_close_effect client w2) as (w3 & -> & Hl3 & Ho3).
  destruct (tolerate_close_effect server w3) as (w4 & -> & Hl4 & Ho4).
  exists w4. split; [done|]. split; intros x.
  - unfold key_of in *. rewrite Hl4, Hl3. rewrite Hk2, Hk1.
    destruct (decide (x = server)), (decide (x = client)),
      (decide (x = client \/ x = server)); first [done | exfalso; tauto].
  - rewrite Ho4, Ho3. unfold is_open. rewrite Hs2, Hs1.
    destruct (decide (x = server)), (decide (x = client)),
      (decide (x = client \/ x = server)); first [done | exfalso; tauto].
Qed.

(** A relay handler either leaves the registrations and the sockets' being
    open as they are, or ends in a teardown of its pair. *)
Lemma relay_handler_effect port h client server w r w' :
  relay_handler port h client server w = (r, w') ->
  same_links w w' \/
  exists w2, same_links w w2 /\ close_connection client server w2 = (Ok tt, w').
Proof.
  destruct (sock_recv (source h client server) 4096 w) as [[data|e|] w1] eqn:Hrecv;
    pose proof (links_recv _ _ _ _ _ Hrecv) as Hl1.
  - destruct data as [|b data].
    + intros H. right. exists (set_log (log w1 ++ [connection_closed h]) w1).
      split; [done|].
      destruct (close_connection_ok client server
                  (set_log (log w1 ++ [connection_closed h]) w1))
        as (w2 & Hclose & _).
      rewrite Hclose. f_equal.
      destruct h; simpl in *; unfold read_from_client, read_from_server in H;
        unfold try_except, bind at 1 in H; rewrite Hrecv in H;
        unfold bind, print in H; simpl in H; rewrite Hclose in H; congruence.
    + rewrite (relay_handler_read_data _ _ _ _ _ _ _ Hrecv) by (simpl; lia).
      unfold bind, print. intros H. left.
      eapply same_links_trans; [exact Hl1|].
      eapply (same_links_trans _ (set_log _ w1)); [done|].
      eapply preserves_safe_send; [| | | |exact H];
        first [exact same_links_refl|exact same_links_trans
              |exact links_print|exact links_send].
  - destruct (is_Exception e) eqn:He.
    + rewrite (relay_handler_read_error _ _ _ _ _ _ _ Hrecv He).
      unfold bind, print. set (w2 := set_log _ w1). intros H. right.
      exists w2. split; [done|].
      destruct (close_connection_ok client server w2) as (w3 & Hclose & _).
      rewrite Hclose in *. congruence.
    + intros H. left.
      destruct h; simpl in *; unfold read_from_client, read_from_server in H;
        unfold try_except, bind at 1 in H; rewrite Hrecv in H;
        rewrite (not_Exception_not_reset _ He), He in H; by simplify_eq.
  - exfalso. revert Hrecv. unfold sock_recv. repeat case_match; done.
Qed.

Lemma except_print_effect {A} (r : res A) (ev : exn -> event) w1 r' w' :
  match r with
  | Raise e =>
      match except_Exception (fun e => print (ev e)) e with
      | Some h => h w1
      | None => (Raise e, w1)
      end
  | Ok _ | Diverge => (Ok tt, w1)
  end = (r', w') ->
  sel w' = sel w1 /\ socks w' = socks w1 /\ next_fd w' = next_fd w1.
Proof.
  destruct r as [a|e|]; try (by intros [= <- <-]).
  unfold except_Exception, print. destruct (is_Exception e); by intros [= <- <-].
Qed.

Lemma key_of_sel w w' x : sel w' = sel w -> key_of x w' = key_of x w.
Proof. unfold key_of. by intros ->. Qed.

Lemma is_open_socks w w' x : socks w' = socks w -> is_open x w' = is_open x w.
Proof. unfold is_open. by intros ->. Qed.

Lemma paired_fresh w x :
  paired w -> next_fd w <= x -> key_of x w = None.
Proof.
  intros (Hwf & Hopen & _) Hx. destruct (key_of x w) as [d|] eqn:Hk; [|done].
  apply Hopen in Hk. unfold is_open in Hk.
  destruct (socks w !! x) as [sk|] eqn:Hs; [|done].
  assert (x < next_fd w); [|lia]. apply Hwf. by rewrite Hs.
Qed.

(** What the acceptor does to the registrations and to the sockets there
    were: nothing, or it adds the new pair. *)
Lemma accepting_effect port listener w r w' :
  paired w ->
  accepting port listener w = (r, w') ->
  let c := next_fd w in
  let s := S (next_fd w) in
  (forall x, x < next_fd w -> is_open x w' = is_open x w) /\
  ((forall x, key_of x w' = key_of x w) \/
   ((forall x, key_of x w' =
               if decide (x = c) then Some (Tuple from_client c s)
               else if decide (x = s) then Some (Tuple from_server c s)
               else key_of x w) /\
    is_open c w' = true /\ is_open s w' = true)).
Proof.
  intros Hpaired Hrun c s.
  unfold accepting, try_except in Hrun. unfold bind at 1 in Hrun.
  destruct (sock_accept listener w) as [r1 w1] eqn:Hacc.
  apply sock_accept_cases in Hacc as
    [(i & o & rest & -> & ->)|([e ->] & Hsel1 & Hsocks1 & Hn1)].
  2:{ unfold except_Exception, print in Hrun.
      destruct (is_Exception e); simplify_eq; simpl;
        (split; [intros x _; by apply is_open_socks|]);
        left; intros x; by apply key_of_sel. }
  fold c in Hrun. unfold bind at 1, print in Hrun.
  set (w1 := set_log _ _) in Hrun.
  unfold bind at 1 in Hrun.
  rewrite (sock_setblocking_new c false w1 (Sock false true i o []))
    in Hrun by (done || apply lookup_insert_eq).
  set (w2 := set_socks _ w1) in Hrun.
  assert (forall x, x < c -> is_open x w2 = is_open x w) as Hopen2.
  { intros x Hx. unfold is_open, w2, w1. simpl.
    by rewrite !lookup_insert_ne by lia. }
  unfold bind at 1 in Hrun.
  destruct (create_connection port w2) as [r3 w3] eqn:Hconn.
  apply create_connection_cases in Hconn as
    [(i' & o' & rest' & -> & ->)|([e ->] & Hsel3 & Hsocks3 & Hn3)].
  2:{ unfold except_Exception, print in Hrun.
      destruct (is_Exception e); simplify_eq; simpl;
        (split; [intros x Hx; rewrite <- (Hopen2 x Hx);
                 apply is_open_socks; exact Hsocks3|]);
        left; intros x; apply key_of_sel; exact Hsel3. }
  change (next_fd w2) with s in Hrun.
  set (w3 := set_next_fd _ _) in Hrun.
  unfold bind at 1 in Hrun.
  rewrite (sock_setblocking_new s false w3 (Sock false true i' o' []))
    in Hrun by (done || apply lookup_insert_eq).
  set (w4 := set_socks _ w3) in Hrun.
  assert (socks w4 !! c = Some (Sock false false i o [])) as Hclient.
  { unfold w4, w3, w2. simpl.
    rewrite lookup_insert_ne by (unfold c, s; lia).
    rewrite lookup_insert_ne by (unfold c, s; lia).
    by rewrite lookup_insert_eq. }
  assert (socks w4 !! s = Some (Sock false false i' o' [])) as Hserver
    by apply lookup_insert_eq.
  assert (forall x, x < c -> is_open x w4 = is_open x w) as Hopen4.
  { intros x Hx. rewrite <- (Hopen2 x Hx). unfold is_open, w4, w3. simpl.
    by rewrite !lookup_insert_ne by (unfold s; lia). }
  assert (sel w4 = sel w) as Hsel4 by done.
  destruct (sel w) as [|m|] eqn:Hsel.
  1,3: unfold bind at 1, sel_register in Hrun; rewrite Hsel4 in Hrun;
    unfold except_Exception, print in Hrun; simpl in Hrun; simplify_eq;
    (split; [intros x Hx; rewrite <- (Hopen4 x Hx); by apply is_open_socks|]);
    left; intros x; by apply key_of_sel.
  assert (m !! c = None) as Hc.
  { pose proof (paired_fresh w c Hpaired) as H. unfold key_of in H.
    rewrite Hsel in H. apply H. unfold c. lia. }
  assert (m !! s = None) as Hs.
  { pose proof (paired_fresh w s Hpaired) as H. unfold key_of in H.
    rewrite Hsel in H. apply H. unfold s. lia. }
  unfold bind at 1 in Hrun.
  rewrite (sel_register_new c _ w4 m Hsel4) in Hrun;
    [|by rewrite (is_open_lookup _ _ _ Hclient)|done].
  set (w5 := set_sel _ w4) in Hrun.
  rewrite (sel_register_new s _ w5 _ eq_refl) in Hrun;
    [|unfold is_open; change (socks w5) with (socks w4); by rewrite Hserver
     |by rewrite lookup_insert_ne by (unfold c, s; lia)].
  simplify_eq. split.
  - intros x Hx. rewrite <- (Hopen4 x Hx). by apply is_open_socks.
  - right. split_and!.
    + intros x. unfold key_of. simpl. rewrite ?Hsel.
      destruct (decide (x = c)) as [->|Hxc].
      { rewrite lookup_insert_ne by (unfold c, s; lia).
        by rewrite lookup_insert_eq. }
      destruct (decide (x = s)) as [->|Hxs].
      { by rewrite lookup_insert_eq. }
      by rewrite !lookup_insert_ne by done.
    + exact (is_open_lookup c w4 _ Hclient).
    + exact (is_open_lookup s w4 _ Hserver).
Qed.

Lemma referenced_key x w d : key_of x w = Some d -> referenced x w = true.
Proof.
  unfold key_of. destruct (sel w) as [|m|] eqn:Hsel; try done.
  intros Hx. by eapply referenced_registered.
Qed.

(** The same of the whole call: the sockets of a pair that is registered
    are held by the selector, and the release touches no socket there was. *)
Lemma accept_connection_effect port listener w r w' :
  paired w ->
  accept_connection port listener w = (r, w') ->
  let c := next_fd w in
  let s := S (next_fd w) in
  (forall x, x < next_fd w -> is_open x w' = is_open x w) /\
  ((forall x, key_of x w' = key_of x w) \/
   ((forall x, key_of x w' =
               if decide (x = c) then Some (Tuple from_client c s)
               else if decide (x = s) then Some (Tuple from_server c s)
               else key_of x w) /\
    is_open c w' = true /\ is_open s w' = true)).
Proof.
  intros Hpaired Hrun c s. unfold accept_connection in Hrun.
  rewrite call_unfold in Hrun.
  destruct (accepting port listener w) as [r0 w0] eqn:Hbody.
  destruct (accepting_effect _ _ _ _ _ Hpaired Hbody) as [Hop Hkeys].
  fold c s in Hkeys.
  destruct r0 as [[]|e|]; [|by simplify_eq..]. simplify_eq.
  destruct (release_fields c w0) as (Hsel & _).
  assert (forall x, key_of x (release c w0).2 = key_of x w0) as Hk
    by (intros x; by apply key_of_sel).
  split.
  - intros x Hx. rewrite release_open.
    destruct (decide _); [unfold c in *; lia|]. by apply Hop.
  - destruct Hkeys as [Hkey|(Hkey & Hoc & Hos)]; [left|right].
    + intros x. by rewrite Hk.
    + split; [intros x; by rewrite Hk|].
      assert (referenced c w0 = true) as Hrc.
      { apply (referenced_key c w0 (Tuple from_client c s)). rewrite Hkey.
        by destruct (decide (c = c)). }
      assert (referenced s w0 = true) as Hrs.
      { apply (referenced_key s w0 (Tuple from_server c s)). rewrite Hkey.
        destruct (decide (s = c)); [unfold c, s in *; lia|].
        by destruct (decide (s = S c)). }
      change s with (S c) in Hrs |- *.
      split; rewrite release_open; destruct (decide _);
        by rewrite ?Hoc, ?Hos, ?Hrc, ?Hrs.
Qed.

Lemma is_open_exists x w : is_open x w = true -> is_Some (socks w !! x).
Proof. unfold is_open. destruct (socks w !! x); [eauto|done]. Qed.

Lemma closed_in_of x w :
  is_Some (socks w !! x) -> is_open x w = false -> closed_in x w.
Proof.
  unfold is_open, closed_in. intros [sk ->] H. exists sk.
  split; [done|]. by destruct (closed sk).
Qed.

Lemma closed_in_exists x w : closed_in x w -> is_Some (socks w !! x).
Proof. intros (sk & -> & _). eauto. Qed.

(** A step that changes no registration and no socket's being open. *)
Lemma paired_same_links w w' :
  paired w -> grows w w' -> same_links w w' ->
  paired w' /\ forall key, current key w -> current key w'.
Proof.
  intros (Hwf & Hopen & Hpair) Hgrow [Hsel Hsame].
  destruct (Hgrow Hwf) as (Hwf' & _ & _ & Hclosed).
  assert (forall x, key_of x w' = key_of x w) as Hkey
    by (intros x; by apply key_of_sel).
  split.
  - split_and!; [done| |].
    + intros x d. rewrite Hkey, Hsame. apply Hopen.
    + intros x h c s. rewrite !Hkey. apply Hpair.
  - intros [x [|h c s]]; unfold current, live, gone; simpl; [done|].
    rewrite !Hkey. intros [?|(? & ? & ? & ?)]; [by left|right].
    split_and!; auto.
Qed.

(** The teardown of a pair that is registered or gone. *)
Lemma paired_close_connection client server w2 w' :
  paired w2 -> grows w2 w' ->
  live client server w2 \/ gone client server w2 ->
  (forall x, key_of x w' =
             if decide (x = client \/ x = server) then None else key_of x w2) ->
  (forall x, is_open x w' =
             if decide (x = client \/ x = server) then false else is_open x w2) ->
  paired w' /\ forall key, current key w2 -> current key w'.
Proof.
  intros (Hwf & Hopen & Hpair) Hgrow Hcur Hkey Hop.
  destruct (Hgrow Hwf) as (Hwf' & _ & Hexists & Hclosed).
  (* a registered pair that meets [client] or [server] is this pair *)
  assert (forall c s, live c s w2 ->
            (c = client \/ c = server \/ s = client \/ s = server) ->
            live client server w2 /\ c = client /\ s = server) as Hmeet.
  { intros c s (Hne & Hc & Hs) Hin.
    destruct Hcur as [(Hne0 & Hc0 & Hs0)|(Hc0 & Hs0 & _)].
    - destruct Hin as [-> | [-> | [-> | ->]]]; simplify_eq; by repeat split.
    - destruct Hin as [-> | [-> | [-> | ->]]]; congruence. }
  split.
  - split_and!; [done| |].
    + intros x d. rewrite Hkey, Hop.
      destruct (decide (x = client \/ x = server)); [done|]. apply Hopen.
    + intros x h c s. rewrite Hkey.
      destruct (decide (x = client \/ x = server)) as [|Hx]; [done|].
      intros Hk. destruct (Hpair _ _ _ _ Hk) as (-> & Hne & Hc & Hs).
      assert (~ (c = client \/ c = server \/ s = client \/ s = server)) as Hout.
      { intros Hin. destruct (Hmeet c s) as (_ & -> & ->); [done|done|].
        apply Hx. destruct h; simpl; auto. }
      rewrite !Hkey.
      destruct (decide (c = client \/ c = server)); [exfalso; tauto|].
      destruct (decide (s = client \/ s = server)); [exfalso; tauto|].
      done.
  - intros [x [|h c s]]; unfold current; simpl; [done|].
    intros [Hlive|(Hc & Hs & Hcc & Hcs)].
    + destruct (decide (c = client \/ c = server \/ s = client \/ s = server))
        as [Hin|Hout].
      * destruct (Hmeet c s Hlive Hin) as ((Hne & Hkc & Hks) & -> & ->).
        right. unfold gone. rewrite !Hkey.
        destruct (decide (client = client \/ client = server)); [|exfalso; tauto].
        destruct (decide (server = client \/ server = server)); [|exfalso; tauto].
        split_and!; [done|done| |].
        -- apply closed_in_of.
           ++ apply Hexists, is_open_exists. by eapply Hopen.
           ++ rewrite Hop. destruct (decide _); [done|exfalso; tauto].
        -- apply closed_in_of.
           ++ apply Hexists, is_open_exists. by eapply Hopen.
           ++ rewrite Hop. destruct (decide _); [done|exfalso; tauto].
      * left. destruct Hlive as (Hne & Hkc & Hks). unfold live. rewrite !Hkey.
        destruct (decide (c = client \/ c = server)); [exfalso; tauto|].
        destruct (decide (s = client \/ s = server)); [exfalso; tauto|].
        done.
    + right. unfold gone. rewrite !Hkey.
      split_and!; [by destruct (decide _)|by destruct (decide _)|auto|auto].
Qed.

(** One handler call keeps the invariant, and keeps the other events of the
    batch current. *)
Lemma dispatch_paired port key w r w' :
  paired w -> current key w -> dispatch port key w = (r, w') ->
  paired w' /\ forall key2, current key2 w -> current key2 w'.
Proof.
  intros Hpaired Hcur Hrun.
  pose proof (grows_dispatch _ _ _ _ _ Hrun) as Hgrow.
  destruct key as [x [|h client server]]; unfold dispatch, current in *;
    simpl in *.
  - destruct (accept_connection_effect _ _ _ _ _ Hpaired Hrun) as [Hop Hkeys].
    destruct Hpaired as (Hwf & Hopen & Hpair).
    destruct (Hgrow Hwf) as (Hwf' & _ & Hexists & Hclosed).
    assert (forall y d, key_of y w = Some d -> y < next_fd w) as Hbelow.
    { intros y d Hk. by apply Hwf, is_open_exists, (Hopen _ d). }
    destruct Hkeys as [Hkey|(Hkey & Hoc & Hos)].
    + split.
      * split_and!; [done| |].
        -- intros y d. rewrite Hkey. intros Hk. rewrite Hop by eauto. eauto.
        -- intros y h c s. rewrite !Hkey. apply Hpair.
      * intros [y [|h c s]]; unfold current, live, gone; simpl; [done|].
        rewrite !Hkey. intros [?|(? & ? & ? & ?)]; [by left|right].
        split_and!; auto.
    + assert (forall y d, key_of y w = Some d -> key_of y w' = Some d) as Hold.
      { intros y d Hk. pose proof (Hbelow _ _ Hk). rewrite Hkey.
        destruct (decide (y = next_fd w)); [lia|].
        destruct (decide (y = S (next_fd w))); [lia|]. done. }
      split.
      * split_and!; [done| |].
        -- intros y d. rewrite Hkey.
           destruct (decide (y = next_fd w)) as [->|]; [done|].
           destruct (decide (y = S (next_fd w))) as [->|]; [done|].
           intros Hk. rewrite Hop by eauto. eauto.
        -- intros y h c s. rewrite (Hkey y).
           destruct (decide (y = next_fd w)) as [->|].
           { intros [= <- <- <-]. rewrite !Hkey. simpl.
             destruct (decide (next_fd w = next_fd w)); [|done].
             destruct (decide (S (next_fd w) = next_fd w)); [lia|].
             destruct (decide (S (next_fd w) = S (next_fd w))); [|done].
             split_and!; (done || lia). }
           destruct (decide (y = S (next_fd w))) as [->|].
           { intros [= <- <- <-]. rewrite !Hkey. simpl.
             destruct (decide (next_fd w = next_fd w)); [|done].
             destruct (decide (S (next_fd w) = next_fd w)); [lia|].
             destruct (decide (S (next_fd w) = S (next_fd w))); [|done].
             split_and!; (done || lia). }
           intros Hk. destruct (Hpair _ _ _ _ Hk) as (-> & Hne & Hc & Hs).
           split_and!; auto.
      * intros [y [|h c s]]; unfold current, live, gone; simpl; [done|].
        intros [(Hne & Hc & Hs)|(Hc & Hs & Hcc & Hcs)].
        -- left. split_and!; auto.
        -- right.
           assert (forall z, closed_in z w -> key_of z w = None ->
                             key_of z w' = None) as Hnone.
           { intros z Hz Hk. apply closed_in_exists, Hwf in Hz. rewrite Hkey.
             destruct (decide (z = next_fd w)); [lia|].
             destruct (decide (z = S (next_fd w))); [lia|]. done. }
           split_and!; auto.
  - destruct (relay_handler_effect _ _ _ _ _ _ _ Hrun)
      as [Hlinks|(w2 & Hlinks & Hclose)].
    + by apply paired_same_links.
    + destruct (close_connection_effect client server w2)
        as (w3 & Hclose3 & Hkey & Hop).
      rewrite Hclose in Hclose3. injection Hclose3 as <-.
      destruct Hlinks as [Hsel Hsame].
      assert (forall y, key_of y w2 = key_of y w) as Hk2
        by (intros y; by apply key_of_sel).
      (* the state before the teardown differs from [w] in what no part of
         the invariant reads *)
      apply (paired_close_connection client server w); try done.
      * intros y. rewrite Hkey, Hk2. done.
      * intros y. rewrite Hop, Hsame. done.
Qed.

Lemma paired_same w w' :
  sel w' = sel w -> socks w' = socks w -> next_fd w' = next_fd w ->
  paired w -> paired w'.
Proof.
  intros Hsel Hsocks Hn. unfold paired, wf_socks, key_of, is_open.
  by rewrite Hsel, Hsocks, Hn.
Qed.

Lemma for_each_paired port events w r w' :
  paired w -> Forall (fun key => current key w) events ->
  for_each events (dispatch port) w = (r, w') ->
  paired w'.
Proof.
  revert w. induction events as [|key events IH]; intros w Hpaired Hcur; simpl.
  - by intros [= <- <-].
  - unfold bind. destruct (dispatch port key w) as [r1 w1] eqn:Hd.
    apply Forall_cons in Hcur as [Hkey Hcur].
    destruct (dispatch_paired _ _ _ _ _ Hpaired Hkey Hd) as [Hp1 Hc1].
    destruct r1 as [[]|e|]; [|by intros [= <- <-]..].
    apply IH; [done|]. eapply Forall_impl; [exact Hcur|]. auto.
Qed.

(** What [select] reports is registered. *)
Lemma sel_select_current a w events w0 :
  paired w -> sel_select a w = (Ok events, w0) ->
  paired w0 /\ Forall (fun key => current key w0) events.
Proof.
  intros Hpaired. unfold sel_select.
  destruct (sel w) as [|m|] eqn:Hsel; [done| |done].
  destruct a as [fds|e]; [|done]. intros [= <- <-].
  split; [by eapply paired_same|].
  apply Forall_forall. intros [x d] Hin.
  apply list_elem_of_omap in Hin as (y & _ & Hy).
  destruct (m !! y) as [d'|] eqn:Hm; simplify_eq/=.
  destruct d as [|h c s]; unfold current; simpl; [done|]. left.
  destruct Hpaired as (_ & _ & Hpair).
  destruct (Hpair x h c s) as (_ & Hne & Hc & Hs).
  { unfold key_of. by rewrite Hsel. }
  by repeat split.
Qed.

Lemma turn_paired port t w r w' :
  paired w -> turn port t w = (r, w') -> paired w'.
Proof.
  intros Hpaired. unfold turn, try_except.
  assert (forall e hm w1 r1 w2,
    (if is_KeyboardInterrupt e then
       Some (print ShuttingDown;; (fun w => (Ok tt, set_running false w));; ret true)
     else if is_Exception e then
       Some (print (ErrorInSelectLoop e);; ret false)
     else None) = Some hm ->
    hm w1 = (r1, w2) -> paired w1 -> paired w2) as Hh.
  { intros e hm w1 r1 w2 Hhm Hrun.
    destruct (is_KeyboardInterrupt e); [|destruct (is_Exception e); [|done]];
      injection Hhm as <-; unfold bind, print, ret in Hrun; simplify_eq;
      by apply paired_same. }
  unfold bind at 1.
  destruct (sel_select (answer t) w) as [[events|e|] w0] eqn:Hsel.
  - destruct (sel_select_current _ _ _ _ Hpaired Hsel) as [Hp0 Hcur].
    unfold bind.
    destruct (for_each events (dispatch port) w0) as [[[]|e|] w1] eqn:Hfor;
      pose proof (for_each_paired _ _ _ _ _ Hp0 Hcur Hfor) as Hp1.
    + by intros [= <- <-].
    + destruct (if is_KeyboardInterrupt e then _ else _) as [hm|] eqn:Hhm.
      * intros Hrun. by eapply Hh.
      * by intros [= <- <-].
    + by intros [= <- <-].
  - assert (paired w0) as Hp0.
    { revert Hsel. unfold sel_select.
      repeat case_match; intros ?; simplify_eq; try done;
        by eapply paired_same. }
    destruct (if is_KeyboardInterrupt e then _ else _) as [hm|] eqn:Hhm.
    + intros Hrun. by eapply Hh.
    + by intros [= <- <-].
  - exfalso. revert Hsel. unfold sel_select. repeat case_match; done.
Qed.

(** X12.  The loop keeps the pairs.  From a state in which every registered
    socket is open and the relay registrations come in complete pairs (the
    client side registered for [read_from_client], the upstream side for
    [read_from_server], both naming the same two sockets), the main loop,
    whatever the environment does and however it ends or fails to end, is
    again in such a state: accepts add whole pairs, teardowns remove whole
    pairs, and an event for a pair torn down earlier in its batch disturbs
    no other pair. *)
Theorem loop_keeps_pairs port ticks w r w' :
  paired w -> main_loop port ticks w = (r, w') -> paired w'.
Proof.
  revert w. induction ticks as [|t ticks IH]; intros w Hpaired.
  - simpl. by destruct (running w); intros [= <- <-].
  - rewrite main_loop_cons. simpl.
    set (w0 := if stop_request t then _ else _).
    assert (paired w0) as Hp0.
    { unfold w0. destruct (stop_request t); [|done]. by eapply paired_same. }
    destruct (running w0); [|by intros [= <- <-]].
    destruct (turn port t w0) as [[[]|e|] w1] eqn:Hturn;
      pose proof (turn_paired _ _ _ _ _ Hp0 Hturn) as Hp1.
    + by intros [= <- <-].
    + by apply IH.
    + by intros [= <- <-].
    + by intros [= <- <-].
Qed.

Lemma paired_listening backlog up : paired (w_listening backlog up).
Proof.
  assert (forall x d, key_of x (w_listening backlog up) = Some d ->
                      x = 0 /\ d = Callback) as Hk.
  { intros x d. unfold key_of. simpl. rewrite lookup_insert.
    destruct (decide (0 = x)) as [<-|]; [by intros [= <-]|].
    by rewrite lookup_empty. }
  split_and!.
  - intros x. simpl. rewrite lookup_insert.
    destruct (decide (0 = x)) as [<-|]; [lia|].
    rewrite lookup_empty. by intros [? ?].
  - intros x d Hx. by apply Hk in Hx as [-> _].
  - intros x h c s Hx. by apply Hk in Hx as [_ ?].
Qed.

Lemma loop_keeps_pairs_witness :
  let w := w_listening [NewConn [Recv (btext "hi")] []; NewConn [Recv []] []]
             [NewConn [] [Sent 9]; NewConn [] []] in
  let ticks := [Tick false (Ready [0]); Tick false (Ready [0; 1]);
                Tick false (Ready [3; 4]); Tick true (Ready [])] in
  let w' := (main_loop 7245 ticks w).2 in
  paired w /\ main_loop 7245 ticks w = (Ok tt, w') /\
  key_of 2 w' = Some (Tuple from_server 1 2) /\ is_open 2 w' = true /\
  key_of 3 w' = None.
Proof.
  intros w ticks w'.
  assert (paired w) as Hp by apply paired_listening.
  assert (main_loop 7245 ticks w = (Ok tt, w')) as Hrun
    by (vm_compute; reflexivity).
  destruct (loop_keeps_pairs 7245 ticks w (Ok tt) w' Hp Hrun)
    as (_ & Hopen & Hpair).
  assert (key_of 1 w' = Some (Tuple from_client 1 2)) as H1
    by (vm_compute; reflexivity).
  destruct (Hpair 1 from_client 1 2 H1) as (_ & _ & _ & H2).
  split; [exact Hp|]. split; [exact Hrun|]. split; [exact H2|].
  split; [exact (Hopen 2 _ H2)|]. vm_compute. reflexivity.
Defined.

(** ** A handler touches its own pair only *)

Section PairFrame.
Context (c s : fd).

Lemma apart_refl w : apart c s w w.
Proof. by intros x _ _. Qed.

Lemma apart_trans w1 w2 w3 :
  apart c s w1 w2 -> apart c s w2 w3 -> apart c s w1 w3.
Proof.
  intros H12 H23 x Hc Hs. destruct (H12 x Hc Hs) as [<- <-]. by apply H23.
Qed.

Ltac apart_tac Hx :=
  prim_cases; intros y Hyc Hys; unfold key_of; simpl; try done;
  match type of Hx with
  | ?x = _ \/ _ => assert (x <> y) by (destruct Hx; congruence)
  end;
  rewrite ?lookup_insert_ne by done; rewrite ?lookup_delete_ne by done;
  try match goal with H : sel _ = _ |- _ => rewrite H end;
  repeat split; reflexivity.

Lemma apart_print ev : preserves (apart c s) (print ev).
Proof. prim_cases. by intros y _ _. Qed.

Lemma apart_recv x n :
  x = c \/ x = s -> preserves (apart c s) (sock_recv x n).
Proof. intros Hx. apart_tac Hx. Qed.

Lemma apart_send x d :
  x = c \/ x = s -> preserves (apart c s) (sock_send x d).
Proof. intros Hx. apart_tac Hx. Qed.

Lemma apart_close x :
  x = c \/ x = s -> preserves (apart c s) (sock_close x).
Proof. intros Hx. apart_tac Hx. Qed.

Lemma apart_unregister x :
  x = c \/ x = s -> preserves (apart c s) (sel_unregister x).
Proof. intros Hx. apart_tac Hx. Qed.

Lemma apart_send_loop fuel x msg t :
  x = c \/ x = s -> preserves (apart c s) (send_loop fuel x msg t).
Proof.
  intros Hx. revert t. induction fuel as [|fuel IH]; intros t; simpl;
    destruct (decide (t < length msg)).
  - apply preserves_diverge, apart_refl.
  - apply preserves_ret, apart_refl.
  - apply preserves_bind; [exact apart_trans| |intros ?; apply IH].
    apply preserves_try_except; [exact apart_trans| |].
    + apply preserves_bind; [exact apart_trans|by apply apart_send|].
      intros n. destruct (decide (n = 0)).
      * apply preserves_raise, apart_refl.
      * apply preserves_ret, apart_refl.
    + intros e hm. destruct (is_BlockingIOError e); [|done].
      intros [= <-]. apply preserves_ret, apart_refl.
  - apply preserves_ret, apart_refl.
Qed.

Lemma apart_safe_send x msg :
  x = c \/ x = s -> preserves (apart c s) (safe_send x msg).
Proof.
  intros Hx. destruct msg as [|b msg]; simpl.
  - apply preserves_ret, apart_refl.
  - apply preserves_bind; [exact apart_trans|apply apart_print|]. intros _.
    apply preserves_try_except; [exact apart_trans| |].
    + apply (preserves_world (apart c s)
               (fun w0 => send_loop (send_fuel x w0) x (b :: msg) 0)).
      intros w0. by apply apart_send_loop.
    + intros e hm. apply preserves_except_Exception. intros e'.
      apply apart_print.
Qed.

Lemma apart_close_connection :
  preserves (apart c s) (close_connection c s).
Proof.
  unfold close_connection.
  repeat (apply preserves_bind; [exact apart_trans| |intros _]);
    (apply preserves_tolerate; [exact apart_refl|exact apart_trans|]);
    first [apply apart_unregister | apply apart_close]; auto.
Qed.

Lemma apart_relay_handler port h :
  preserves (apart c s) (relay_handler port h c s).
Proof.
  assert (forall ev, preserves (apart c s) (print ev;; close_connection c s))
    as Hclose.
  { intros ev. apply preserves_bind; [exact apart_trans|apply apart_print|].
    intros _. apply apart_close_connection. }
  destruct h; simpl; unfold read_from_client, read_from_server;
    (apply preserves_try_except; [exact apart_trans| |]).
  1,3: apply preserves_bind;
    [exact apart_trans|apply apart_recv; auto|];
    intros [|b data]; [apply Hclose|];
    (apply preserves_bind; [exact apart_trans|apply apart_print|]);
    intros _; apply apart_safe_send; auto.
  all: intros e hm;
    destruct (is_reset_or_abort e); [|destruct (is_Exception e); [|done]];
    intros [= <-]; apply Hclose.
Qed.

End PairFrame.

(** X13.  Trouble on one connection stays there.  Whatever a relay handler does
    for its pair, forwarding, failing, tearing the pair down or never
    coming back, every other socket is left exactly as it was (its state,
    what it has been sent, what it has still to read) and registered exactly
    as it was. *)
Theorem relay_touches_only_its_pair port h client server w r w' x :
  relay_handler port h client server w = (r, w') ->
  x <> client -> x <> server ->
  socks w' !! x = socks w !! x /\ key_of x w' = key_of x w.
Proof.
  intros Hrun Hc Hs.
  exact (apart_relay_handler client server port h w r w' Hrun x Hc Hs).
Qed.

Lemma relay_touches_only_its_pair_witness :
  let w := w_pair [RecvRaise OSError] [] [] [] in
  let w' := (relay_handler 7245 from_client 1 2 w).2 in
  relay_handler 7245 from_client 1 2 w = (Ok tt, w') /\
  torn_down 1 2 w' /\
  socks w' !! 0 = socks w !! 0 /\ key_of 0 w' = key_of 0 w.
Proof.
  intros w w'.
  assert (relay_handler 7245 from_client 1 2 w = (Ok tt, w')) as Hrun
    by (vm_compute; reflexivity).
  split; [exact Hrun|]. split; [repeat split; vm_compute; reflexivity|].
  apply (relay_touches_only_its_pair 7245 from_client 1 2 w (Ok tt) w' 0 Hrun);
    lia.
Defined.

(** ** The choice of the address, in standalone mode *)

Lemma py_index_elem {A} (l : list A) i a : py_index l i = Some a -> a ∈ l.
Proof.
  unfold py_index. repeat case_decide; try done;
    intros Hl; apply list_elem_of_lookup; eauto.
Qed.

Lemma valid_addrs_elem addrs a :
  a ∈ valid_addrs addrs ->
  a ∈ addrs /\ String.prefix "fe80" (sa_host a) = false.
Proof.
  unfold valid_addrs. rewrite !list_elem_of_In, filter_In.
  intros [Hin Hp]. split; [done|]. by apply negb_true_iff.
Qed.

(** X14.  The address bound is never link-local.  Whatever the user enters, an
    address the set-up binds to is one of those [getaddrinfo] returned, with
    its own port, and its host does not start with [fe80]. *)
Theorem chosen_address_is_valid addrs entry host port :
  choose_address addrs entry = Bind host port ->
  String.prefix "fe80" host = false /\
  exists addr, addr ∈ addrs /\ sa_host addr = host /\ sa_port addr = port.
Proof.
  unfold choose_address.
  assert (forall a, a ∈ valid_addrs addrs ->
            Bind (sa_host a) (sa_port a) = Bind host port ->
            String.prefix "fe80" host = false /\
            exists addr, addr ∈ addrs /\ sa_host addr = host /\ sa_port addr = port)
    as Hok.
  { intros a Ha [= <- <-]. apply valid_addrs_elem in Ha as [? ?]. eauto. }
  destruct (decide (1 < length (valid_addrs addrs))).
  - destruct entry as [n|]; [|done].
    destruct (py_index _ _) as [a|] eqn:Hi; [|done].
    apply Hok. by eapply py_index_elem.
  - destruct (valid_addrs addrs) as [|a l] eqn:Hv; [done|].
    apply Hok. rewrite ?Hv. by constructor.
Qed.

Lemma chosen_address_is_valid_witness :
  choose_address host_addrs (Some 2%Z) = Bind "fd00::7" 7245 /\
  String.prefix "fe80" "fd00::7" = false.
Proof.
  assert (choose_address host_addrs (Some 2%Z) = Bind "fd00::7" 7245) as H
    by (vm_compute; reflexivity).
  split; [exact H|].
  exact (proj1 (chosen_address_is_valid host_addrs (Some 2%Z) _ _ H)).
Defined.

(** X15.  The number on the menu binds the host next to it.  When there is a
    choice (more than one address is left), entering the number printed in
    front of a host binds that host. *)
Theorem menu_number_binds_listed_host addrs i k host :
  1 < length (valid_addrs addrs) ->
  menu addrs !! i = Some (k, host) ->
  exists port, choose_address addrs (Some (Z.of_nat k)) = Bind host port.
Proof.
  intros Hmany. unfold menu. rewrite list_lookup_imap.
  destruct (valid_addrs addrs !! i) as [a|] eqn:Ha; [|done].
  intros [= <- <-]. exists (sa_port a).
  unfold choose_address. destruct (decide _); [|lia].
  pose proof (lookup_lt_Some _ _ _ Ha) as Hi.
  unfold py_index. destruct (decide _) as [_|Hout]; [|lia].
  replace (Z.to_nat (Z.of_nat (S i) - 1)) with i by lia. by rewrite Ha.
Qed.

Lemma menu_number_binds_listed_host_witness :
  1 < length (valid_addrs host_addrs) /\
  menu host_addrs !! 2 = Some (3, "2001:db8::99"%string) /\
  exists port, choose_address host_addrs (Some 3%Z) = Bind "2001:db8::99" port.
Proof.
  assert (1 < length (valid_addrs host_addrs)) as Hmany by (vm_compute; lia).
  assert (menu host_addrs !! 2 = Some (3, "2001:db8::99"%string)) as Hmenu
    by (vm_compute; reflexivity).
  split; [exact Hmany|]. split; [exact Hmenu|].
  exact (menu_number_binds_listed_host host_addrs 2 3 _ Hmany Hmenu).
Defined.

(** X16.  An entry that is not on the menu.  When there is a choice among [n]
    addresses, numbered 1 to [n]: an entry from [-(n - 1)] to 0 is not
    refused but counts from the end of the list (0 binds the last address,
    -1 the one before it); an entry above [n] or below [-(n - 1)] ends the
    set-up with an error, and nothing is bound. *)
Theorem entry_off_the_menu addrs (k : Z) :
  let valid := valid_addrs addrs in
  let n := Z.of_nat (length valid) in
  1 < length valid ->
  ((- n < k <= 0)%Z ->
   exists addr, valid !! Z.to_nat (n + k - 1) = Some addr /\
     choose_address addrs (Some k) = Bind (sa_host addr) (sa_port addr)) /\
  ((n < k \/ k <= - n)%Z ->
   choose_address addrs (Some k) = GettingAddressesFailed OutOfRange).
Proof.
  intros valid n Hmany. unfold choose_address. fold valid.
  destruct (decide (1 < length valid)); [|lia]. split.
  - intros Hk. unfold py_index. fold n.
    destruct (decide (0 <= k - 1 < n)%Z); [lia|].
    destruct (decide (- n <= k - 1 < 0)%Z); [|lia].
    replace (n + (k - 1))%Z with (n + k - 1)%Z by lia.
    destruct (valid !! Z.to_nat (n + k - 1)) as [addr|] eqn:Ha; [eauto|].
    apply lookup_ge_None in Ha. lia.
  - intros Hk. unfold py_index. fold n.
    destruct (decide (0 <= k - 1 < n)%Z); [lia|].
    destruct (decide (- n <= k - 1 < 0)%Z); [lia|]. done.
Qed.

Lemma entry_off_the_menu_witness :
  1 < length (valid_addrs host_addrs) /\
  choose_address host_addrs (Some 0%Z) = Bind "2001:db8::99" 7245 /\
  choose_address host_addrs (Some 4%Z) = GettingAddressesFailed OutOfRange.
Proof.
  assert (1 < length (valid_addrs host_addrs)) as Hmany by (vm_compute; lia).
  destruct (entry_off_the_menu host_addrs 0 Hmany) as [Hwrap _].
  destruct (entry_off_the_menu host_addrs 4 Hmany) as [_ Hout].
  split; [exact Hmany|]. split.
  - destruct Hwrap as (addr & Ha & ->);
      [vm_compute; split; [reflexivity|discriminate]|].
    vm_compute in Ha. by injection Ha as <-.
  - apply Hout. vm_compute. left. reflexivity.
Defined.

(** ** All or nothing at the acceptor; what the clean-up leaves alone *)

(** X17.  Both or neither.  In a state that satisfies the invariant of the
    registrations, however the acceptor ends (no connection waiting, an
    upstream that refuses, a selector that is not in use, or success), it
    either leaves every registration as it was or has added the two
    registrations of the new pair together, both sockets open; and it never
    changes whether an existing socket is open. *)
Theorem accept_registers_both_or_neither port listener w r w' :
  paired w ->
  accept_connection port listener w = (r, w') ->
  let c := next_fd w in
  let s := S (next_fd w) in
  (forall x, x < next_fd w -> is_open x w' = is_open x w) /\
  ((forall x, key_of x w' = key_of x w) \/
   ((forall x, key_of x w' =
               if decide (x = c) then Some (Tuple from_client c s)
               else if decide (x = s) then Some (Tuple from_server c s)
               else key_of x w) /\
    is_open c w' = true /\ is_open s w' = true)).
Proof. apply accept_connection_effect. Qed.

Lemma accept_registers_both_or_neither_witness :
  let w := w_listening [NewConn [] []] [ConnRaise OSError] in
  let w' := (accept_connection 7245 0 w).2 in
  paired w /\ accept_connection 7245 0 w = (Ok tt, w') /\
  key_of 1 w' = None /\ key_of 2 w' = None /\ is_open 0 w' = true.
Proof.
  intros w w'.
  assert (paired w) as Hp by apply paired_listening.
  assert (accept_connection 7245 0 w = (Ok tt, w')) as Hrun
    by (vm_compute; reflexivity).
  destruct (accept_registers_both_or_neither 7245 0 w (Ok tt) w' Hp Hrun)
    as [Hopen [Hkeys|(Hkeys & _ & _)]].
  - split; [exact Hp|]. split; [exact Hrun|].
    rewrite !Hkeys. rewrite (Hopen 0) by (vm_compute; lia).
    split_and!; vm_compute; reflexivity.
  - specialize (Hkeys 1). vm_compute in Hkeys. discriminate.
Defined.

Lemma close_quietly_other key w r w' x :
  close_quietly key w = (r, w') -> x <> key.1 ->
  socks w' !! x = socks w !! x.
Proof.
  unfold close_quietly, try_except, sock_close, ret.
  destruct (socks w !! key.1); intros [= <- <-] Hx; [|done].
  simpl. by rewrite lookup_insert_ne.
Qed.

Lemma close_all_other (l : list (fd * key_data)) w r w' x :
  for_each l close_quietly w = (r, w') ->
  Forall (fun key => x <> key.1) l ->
  socks w' !! x = socks w !! x.
Proof.
  revert w. induction l as [|key l IH]; intros w; simpl.
  - by intros [= <- <-].
  - unfold bind. destruct (close_quietly key w) as [r1 w1] eqn:Hc.
    intros Hrun Hall. apply Forall_cons in Hall as [Hkey Hall].
    rewrite <- (close_quietly_other _ _ _ _ _ Hc Hkey).
    destruct r1 as [[]|e|]; [by apply IH|by simplify_eq..].
Qed.

(** X18.  The clean-up closes registered sockets only.  A socket that no
    key of the selector refers to when the [finally] clause of [run] begins
    is left by the clause exactly as it is: the listening socket of a
    failed [bind], for one, is still open when the clause is done. *)
Theorem cleanup_skips_unregistered w r w' x :
  cleanup w = (r, w') ->
  referenced x w = false ->
  socks w' !! x = socks w !! x.
Proof.
  unfold cleanup, referenced. destruct (sel w) as [|m|]; try by intros [= <- <-].
  unfold bind.
  destruct (for_each (map_to_list m) close_quietly w) as [r1 w1] eqn:Hall.
  intros Hrun Hx.
  assert (socks w1 !! x = socks w !! x) as <-.
  { eapply close_all_other; [exact Hall|]. apply Forall_forall.
    intros [y d] Hin ->. simpl in Hx.
    assert (existsb (holds y) (map_to_list m) = true) as Hy;
      [|by rewrite Hy in Hx].
    apply existsb_exists. exists (y, d). split; [by apply list_elem_of_In|].
    unfold holds. simpl. by rewrite bool_decide_eq_true_2. }
  destruct r1 as [[]|e|]; by simplify_eq.
Qed.

Lemma cleanup_skips_unregistered_witness :
  let w0 := World ∅ 0 (Selecting ∅) true [] [] (Some OSError) 0 [] in
  let w := (serve 7245 [] w0).2 in
  let w' := (cleanup w).2 in
  serve 7245 [] w0 = (Ok tt, w) /\ log w = [ErrorStarting OSError] /\
  cleanup w = (Ok tt, w') /\ referenced 0 w = false /\ is_open 0 w' = true.
Proof.
  intros w0 w w'.
  assert (cleanup w = (Ok tt, w')) as Hrun by (vm_compute; reflexivity).
  assert (referenced 0 w = false) as Href by (vm_compute; reflexivity).
  split; [vm_compute; reflexivity|]. split; [vm_compute; reflexivity|].
  split; [exact Hrun|]. split; [exact Href|].
  unfold is_open. rewrite (cleanup_skips_unregistered w (Ok tt) w' 0 Hrun Href).
  vm_compute. reflexivity.
Defined.
